(** * Verification of the diagram core of score_docs-as-code

    Three Python modules are embedded:
    - [src/extensions/score_metamodel/diagram.py]: the class-diagram AST
      ([ClassDiagram]) and its PlantUML renderer, in [Module Diagram];
    - [src/extensions/score_draw_uml_funcs/__init__.py]: the drawing functions
      over the need graph, in [Module Draw];
    - [src/extensions/score_metamodel/draw_metamodel.py]: the class diagram
      of the need types of the configuration, in [Module Metamodel].

    Python code that mutates objects and raises exceptions is embedded in a
    state-and-exception monad: a computation takes the state and gives an
    outcome together with the state it leaves behind, also when it raises. *)

From Stdlib Require Import String Ascii.
From stdpp Require Import base option list gmap strings pretty sorting.

(** ** Outcomes, and the monad of mutating, raising code *)

(** Python exceptions the embedded code can raise. *)
Inductive exn :=
  | ValueError (msg : string)
  | KeyError (key : string).

(** [Diverge] stands for a recursion or loop that was cut off by the fuel of
    the model; it is not an outcome of the Python code. *)
Inductive outcome (A : Type) :=
  | Val (a : A)
  | Raise (e : exn)
  | Diverge.
Arguments Val {A} a.
Arguments Raise {A} e.
Arguments Diverge {A}.

Definition M (S A : Type) : Type := S → outcome A * S.

Definition ret {S A} (a : A) : M S A := λ s, (Val a, s).
Definition raise {S A} (e : exn) : M S A := λ s, (Raise e, s).
Definition diverge {S A} : M S A := λ s, (Diverge, s).
Definition bind {S A B} (m : M S A) (k : A → M S B) : M S B :=
  λ s, match m s with
       | (Val a, s') => k a s'
       | (Raise e, s') => (Raise e, s')
       | (Diverge, s') => (Diverge, s')
       end.
Definition get {S} : M S S := λ s, (Val s, s).
Definition gets {S A} (f : S → A) : M S A := λ s, (Val (f s), s).
Definition modify {S} (f : S → S) : M S unit := λ s, (Val tt, f s).

Declare Scope py_scope.
Delimit Scope py_scope with py.
Notation "x ←' m ; k" := (bind m (λ x, k))
  (at level 100, m at next level, right associativity) : py_scope.
Notation "'let*' p := m 'in' k" := (bind m (λ p, k))
  (at level 100, p pattern, m at next level, right associativity) : py_scope.
Notation "m ;;' k" := (bind m (λ _, k))
  (at level 100, right associativity) : py_scope.

(** A Python [for] loop that threads an accumulator through its body. *)
Fixpoint for_each {S A B} (l : list A) (body : B → A → M S B) (acc : B) : M S B :=
  match l with
  | [] => ret acc
  | x :: l' => bind (body acc x) (for_each l' body)
  end.

(** What a run of a computation does: it raises, returns, or is cut off. *)
Definition raises {S A} (m : M S A) (s : S) : Prop := ∃ e, (m s).1 = Raise e.
Definition returns {S A} (m : M S A) (s : S) : Prop := ∃ a, (m s).1 = Val a.

(** ** Python strings *)

Definition nl : string := String "010"%char "".
Definition dquote : string := String "034"%char "".

(** [sep.join(l)] *)
Fixpoint join (sep : string) (l : list string) : string :=
  match l with
  | [] => ""
  | [x] => x
  | x :: l' => x +:+ sep +:+ join sep l'
  end.

(** [s.replace(old, new)] for a non-empty [old]: occurrences are replaced from
    the left and do not overlap. [skip] counts the characters of a matched
    occurrence that are still to be dropped. *)
Fixpoint replace_go (old new : string) (skip : nat) (s : string) : string :=
  match s with
  | EmptyString => ""
  | String c s' =>
      match skip with
      | S k => replace_go old new k s'
      | O => if String.prefix old s
             then new +:+ replace_go old new (String.length old - 1) s'
             else String c (replace_go old new 0 s')
      end
  end.
Definition replace (old new s : string) : string := replace_go old new 0 s.

(** [s.strip("_")] on the list of characters. *)
Fixpoint lstrip (c : ascii) (l : list ascii) : list ascii :=
  match l with
  | x :: l' => if decide (x = c) then lstrip c l' else l
  | [] => []
  end.
Definition rstrip (c : ascii) (l : list ascii) : list ascii :=
  reverse (lstrip c (reverse l)).
Definition strip (c : ascii) (l : list ascii) : list ascii :=
  rstrip c (lstrip c l).

(** ** Python dicts, in insertion order *)

Section dict.
Context {V : Type}.

Fixpoint dict_get (k : string) (d : list (string * V)) : option V :=
  match d with
  | [] => None
  | (k', v') :: d' => if decide (k' = k) then Some v' else dict_get k d'
  end.

(** [d[k] = v]: an existing key keeps its place, a new one goes last. *)
Fixpoint dict_set (k : string) (v : V) (d : list (string * V)) : list (string * V) :=
  match d with
  | [] => [(k, v)]
  | (k', v') :: d' =>
      if decide (k' = k) then (k, v) :: d' else (k', v') :: dict_set k v d'
  end.

Definition dict_keys (d : list (string * V)) : list string := d.*1.
Definition dict_values (d : list (string * V)) : list V := d.*2.
End dict.

(** [sorted(l, key=key)]: Python's sort is stable, and a stable sort has one
    possible result, the one this insertion sort computes. *)
Section sorted.
Context {A K : Type} (le : relation K) `{!RelDecision le} (key : A → K).

Fixpoint sorted_insert (x : A) (l : list A) : list A :=
  match l with
  | [] => [x]
  | y :: l' =>
      if decide (le (key x) (key y)) then x :: l else y :: sorted_insert x l'
  end.

Definition sorted (l : list A) : list A := foldr sorted_insert [] l.
End sorted.

(** * diagram.py: the class-diagram AST and its renderer *)

Module Diagram.

(** ** Model *)

Inductive Visibility := PUBLIC | PRIVATE | PROTECTED | PACKAGE.

Definition Visibility_value (v : Visibility) : string :=
  match v with
  | PUBLIC => "+" | PRIVATE => "-" | PROTECTED => "#" | PACKAGE => "~"
  end.

Inductive RelationKind :=
  | ASSOCIATION | UNDIRECTED | INHERITANCE | IMPLEMENTS
  | DEPENDENCY | COMPOSITION | AGGREGATION.

Definition RelationKind_value (k : RelationKind) : string :=
  match k with
  | ASSOCIATION => "association"
  | UNDIRECTED => "undirected"
  | INHERITANCE => "inheritance"
  | IMPLEMENTS => "implements"
  | DEPENDENCY => "dependency"
  | COMPOSITION => "composition"
  | AGGREGATION => "aggregation"
  end.

Record Member := mkMember {
  m_name : string;
  m_visibility : Visibility;
  m_type_hint : option string;
}.

Record ClassNode := mkClassNode {
  c_name : string;
  c_stereotype : option string;
  c_members : list Member;
}.

Record Relation := mkRelation {
  r_src : string;
  r_dst : string;
  r_kind : RelationKind;
  r_label : option string;
}.

(** [classes] is a Python dict: keys in insertion order, each key once. *)
Record ClassDiagram := mkClassDiagram {
  classes : list (string * ClassNode);
  relations : list Relation;
}.

Definition empty_diagram : ClassDiagram := mkClassDiagram [] [].

Definition set_classes (f : list (string * ClassNode) → list (string * ClassNode))
    (d : ClassDiagram) : ClassDiagram :=
  mkClassDiagram (f (classes d)) (relations d).
Definition set_relations (f : list Relation → list Relation)
    (d : ClassDiagram) : ClassDiagram :=
  mkClassDiagram (classes d) (f (relations d)).

Local Open Scope py_scope.

(** ** ClassDiagram methods *)

(** [not name] on a [str]. *)
Definition falsy (s : string) : bool := bool_decide (s = "").

(** [ClassDiagram._ensure_class]. The node it returns is the object that the
    dict holds under [name]; a later change of that node is a change of the
    dict entry. *)
Definition _ensure_class (name : string) (stereotype : option string)
    : M ClassDiagram ClassNode :=
  if falsy name then raise (ValueError "class name must not be empty")
  else
    node ←' gets (λ d, dict_get name (classes d));
    match node with
    | None =>
        let node := mkClassNode name stereotype [] in
        modify (set_classes (dict_set name node)) ;;'
        ret node
    | Some node =>
        if bool_decide (stereotype ≠ None ∧ c_stereotype node = None)
        then
          let node := mkClassNode (c_name node) stereotype (c_members node) in
          modify (set_classes (dict_set name node)) ;;'
          ret node
        else ret node
    end.

Definition add_class (name : string) (stereotype : option string)
    : M ClassDiagram ClassNode :=
  _ensure_class name stereotype.

Definition add_member (class_name member_name : string)
    (visibility : Visibility) (type_hint : option string) : M ClassDiagram unit :=
  if falsy member_name then raise (ValueError "member name must not be empty")
  else
    node ←' _ensure_class class_name None;
    (* node.members.append(...), on the node held under class_name *)
    modify (set_classes (dict_set class_name
      (mkClassNode (c_name node) (c_stereotype node)
         (c_members node ++ [mkMember member_name visibility type_hint])))).

Definition relate (src dst : string) (kind : RelationKind) (label : option string)
    : M ClassDiagram unit :=
  if falsy src || falsy dst
  then raise (ValueError "relation endpoints must not be empty")
  else
    _ensure_class src None ;;'
    _ensure_class dst None ;;'
    modify (set_relations (λ rs, rs ++ [mkRelation src dst kind label])).

(** ** PlantUmlRenderer *)

Definition _ARROWS (k : RelationKind) : string :=
  match k with
  | ASSOCIATION => "-->"
  | UNDIRECTED => "--"
  | INHERITANCE => "<|--"
  | IMPLEMENTS => "<|.."
  | DEPENDENCY => "..>"
  | COMPOSITION => "*--"
  | AGGREGATION => "o--"
  end.

Definition backslash : string := String "092"%char "".
Definition cr : string := String "013"%char "".

Definition _quote (text : string) : string :=
  dquote +:+ replace dquote (backslash +:+ dquote) text +:+ dquote.

Definition _escape_label (text : string) : string :=
  replace ":" (backslash +:+ ":") (replace cr " " (replace nl " " text)).

Definition _escape_stereotype (text : string) : string :=
  replace ">>" "> >" (replace "<<" "< <" (replace cr " " (replace nl " " text))).

(** *** _AliasMap *)

Record AliasMap := mkAliasMap {
  _map : gmap string string;
  _used : gset string;
}.

Definition empty_alias_map : AliasMap := mkAliasMap ∅ ∅.

(** The regular expression [[A-Za-z0-9_]] against one character. *)
Definition VALID_CHARS (ch : ascii) : bool :=
  let n := nat_of_ascii ch in
  ((65 <=? n) && (n <=? 90)) || ((97 <=? n) && (n <=? 122))
  || ((48 <=? n) && (n <=? 57)) || (n =? 95).

Definition underscore : ascii := "_"%char.

Definition sanitize_chars (name : string) : list ascii :=
  (λ ch, if VALID_CHARS ch then ch else underscore) <$> list_ascii_of_string name.

(** [_AliasMap._sanitize]. The message of the Python error ends in
    [repr(name)]; the model puts the name itself there. *)
Definition _sanitize (name : string) : outcome string :=
  let alias := string_of_list_ascii (strip underscore (sanitize_chars name)) in
  if falsy alias then Raise (ValueError ("Cannot create alias for name: " +:+ name))
  else Val alias.

(** The candidate [f"{base}_{counter}"]. *)
Definition suffixed (base : string) (counter : nat) : string :=
  base +:+ "_" +:+ pretty counter.

(** The [while alias in self._used] loop of [_create_alias]; [None] when the
    fuel runs out. *)
Fixpoint alias_loop (fuel : nat) (used : gset string) (base alias : string)
    (counter : nat) : option string :=
  if decide (alias ∈ used) then
    match fuel with
    | O => None
    | S fuel' => alias_loop fuel' used base (suffixed base counter) (S counter)
    end
  else Some alias.

(** [_AliasMap._create_alias]. The loop gets more fuel than there are used
    identifiers; [alias_loop_enough] shows that it never runs out. *)
Definition _create_alias (name : string) : M AliasMap string :=
  λ am,
    match _sanitize name with
    | Val base =>
        match alias_loop (S (size (_used am))) (_used am) base base 2 with
        | Some alias => (Val alias, mkAliasMap (_map am) ({[alias]} ∪ _used am))
        | None => (Diverge, am)
        end
    | Raise e => (Raise e, am)
    | Diverge => (Diverge, am)
    end.

(** [_AliasMap.__getitem__] *)
Definition getitem (name : string) : M AliasMap string :=
  m ←' gets _map;
  match m !! name with
  | Some alias => ret alias
  | None =>
      alias ←' _create_alias name;
      modify (λ am, mkAliasMap (<[name := alias]> (_map am)) (_used am)) ;;'
      ret alias
  end.

(** *** render *)

Definition truthy (o : option string) : bool :=
  match o with Some s => negb (falsy s) | None => false end.

Definition member_line (m : Member) : string :=
  match m_type_hint m with
  | Some t =>
      if falsy t then "  " +:+ Visibility_value (m_visibility m) +:+ " " +:+ m_name m
      else "  " +:+ Visibility_value (m_visibility m) +:+ " " +:+ m_name m +:+ " : " +:+ t
  | None => "  " +:+ Visibility_value (m_visibility m) +:+ " " +:+ m_name m
  end.

(** The body of [for c in classes]. *)
Definition render_class (lines : list string) (c : ClassNode)
    : M AliasMap (list string) :=
  cid ←' getitem (c_name c);
  let display := _quote (c_name c) in
  let head :=
    if truthy (c_stereotype c)
    then "class " +:+ cid +:+ " as " +:+ display +:+ " <<"
           +:+ _escape_stereotype (default "" (c_stereotype c)) +:+ ">> {"
    else "class " +:+ cid +:+ " as " +:+ display +:+ " {" in
  ret (lines ++ [head] ++ (member_line <$> c_members c) ++ ["}"]).

(** The body of [for r in relations]. *)
Definition render_relation (lines : list string) (r : Relation)
    : M AliasMap (list string) :=
  src ←' getitem (r_src r);
  dst ←' getitem (r_dst r);
  let arrow := _ARROWS (r_kind r) in
  if truthy (r_label r)
  then ret (lines ++ [src +:+ " " +:+ arrow +:+ " " +:+ dst +:+ " : "
                        +:+ _escape_label (default "" (r_label r))])
  else ret (lines ++ [src +:+ " " +:+ arrow +:+ " " +:+ dst]).

(** The sort key [(r.src, r.dst, r.kind.value, r.label or "")]. *)
Definition relation_key (r : Relation) : string * (string * (string * string)) :=
  (r_src r, (r_dst r, (RelationKind_value (r_kind r), default "" (r_label r)))).

(** Python compares tuples by their first differing component. *)
Definition lex_le {A B} (RA : relation A) (RB : relation B) : relation (A * B) :=
  λ p q, (RA p.1 q.1 ∧ p.1 ≠ q.1) ∨ (p.1 = q.1 ∧ RB p.2 q.2).

Global Instance lex_le_dec {A B} (RA : relation A) (RB : relation B)
    `{!EqDecision A, !RelDecision RA, !RelDecision RB} : RelDecision (lex_le RA RB).
Proof. intros p q. unfold lex_le. apply _. Defined.

Definition key_le : relation (string * (string * (string * string))) :=
  lex_le String.le (lex_le String.le (lex_le String.le String.le)).

Global Instance key_le_dec : RelDecision key_le.
Proof. unfold key_le. apply _. Defined.

(** [PlantUmlRenderer.render] *)
Definition render_lines (diagram : ClassDiagram) : M AliasMap string :=
  let classes := sorted String.le c_name (dict_values (classes diagram)) in
  let relations := sorted key_le relation_key (relations diagram) in
  lines ←' for_each classes render_class [];
  lines ←' for_each relations render_relation lines;
  ret (join nl lines +:+ nl).

Definition render (diagram : ClassDiagram) : outcome string :=
  (render_lines diagram empty_alias_map).1.

(** The diagram a sequence of calls builds from the empty one. *)
Definition build (calls : list (M ClassDiagram unit)) : outcome unit * ClassDiagram :=
  for_each calls (λ _ call, call) tt empty_diagram.

(** The three diagrams of tests/test_diagram.py. *)
Definition test_simple : ClassDiagram :=
  (build [ add_class "A" None ;;' ret tt;
           add_member "A" "id" PUBLIC None;
           relate "A" "B" ASSOCIATION (Some "uses") ]).2.

Definition test_stereotype : ClassDiagram :=
  (build [ add_class "User" (Some "Entity") ;;' ret tt;
           add_member "User" "password" PRIVATE None ]).2.

Definition test_inheritance : ClassDiagram :=
  (build [ relate "Base" "Derived" INHERITANCE None ]).2.

(** One content, built in two orders. *)
Definition test_order_1 : ClassDiagram := Eval vm_compute in
  (build [ relate "A" "B" ASSOCIATION (Some "uses");
           relate "C" "A" INHERITANCE None;
           add_member "C" "x" PRIVATE (Some "int") ]).2.

Definition test_order_2 : ClassDiagram := Eval vm_compute in
  (build [ add_member "C" "x" PRIVATE (Some "int");
           relate "C" "A" INHERITANCE None;
           relate "A" "B" ASSOCIATION (Some "uses") ]).2.

(** ** Vocabulary of the statements about diagram.py *)

(** A letter or a digit. *)
Definition alnum (ch : ascii) : bool :=
  VALID_CHARS ch && negb (bool_decide (ch = underscore)).

(** The dict [classes] holds each key once, and under a key a node of that
    name: this is how [_ensure_class] fills it. *)
Definition well_keyed (d : ClassDiagram) : Prop :=
  NoDup (dict_keys (classes d)) ∧ Forall (λ kc, c_name kc.2 = kc.1) (classes d).

(** Both ends of every relation are classes of the diagram. *)
Definition vivified (d : ClassDiagram) : Prop :=
  ∀ r, r ∈ relations d →
    is_Some (dict_get (r_src r) (classes d)) ∧ is_Some (dict_get (r_dst r) (classes d)).

(** The aliases a sequence of display names is given, in order. *)
Definition requests (names : list string) : M AliasMap (list string) :=
  for_each names (λ acc name, alias ←' getitem name; ret (acc ++ [alias])) [].

(** The identifiers in use are those the map holds. *)
Definition alias_consistent (am : AliasMap) : Prop :=
  ∀ alias, alias ∈ _used am ↔ ∃ name, _map am !! name = Some alias.

(** ** Further vocabulary *)

(** The characters of a Python string. *)
Definition chars (s : string) : list ascii := list_ascii_of_string s.

(** The name has a letter or a digit. *)
Definition has_alnum (name : string) : Prop :=
  Exists (λ ch, alnum ch = true) (chars name).

(** The display names the renderer asks an alias for: the names of the
    classes, and both ends of the relations. *)
Definition diagram_names (d : ClassDiagram) : list string :=
  (c_name <$> dict_values (classes d))
  ++ (relations d ≫= λ r, [r_src r; r_dst r]).

(** An identifier of letters, digits and underscores that starts with a
    letter or a digit. *)
Definition identifier (s : string) : Prop :=
  Forall (λ ch, VALID_CHARS ch = true) (chars s)
  ∧ ∃ ch, head (chars s) = Some ch ∧ alnum ch = true.

(** No identifier stands for two display names. *)
Definition alias_injective (am : AliasMap) : Prop :=
  ∀ n1 n2 alias,
    _map am !! n1 = Some alias → _map am !! n2 = Some alias → n1 = n2.

(** A class node is kept by an operation, up to what operations add: the
    name stays, a stereotype that was set stays, and the members stay in front
    of the new ones. *)
Definition node_kept (n n' : ClassNode) : Prop :=
  c_name n' = c_name n
  ∧ (∀ s, c_stereotype n = Some s → c_stereotype n' = Some s)
  ∧ c_members n `prefix_of` c_members n'.

(** A diagram is kept by an operation: no class and no relation is lost or
    moved, and every class node is kept. *)
Definition diagram_kept (d d' : ClassDiagram) : Prop :=
  dict_keys (classes d) `prefix_of` dict_keys (classes d')
  ∧ relations d `prefix_of` relations d'
  ∧ ∀ k n, dict_get k (classes d) = Some n →
      ∃ n', dict_get k (classes d') = Some n' ∧ node_kept n n'.

(** Whether a run over the display names [names] returns tells whether all
    of them have a letter or a digit: it returns when they have, raises a
    [ValueError] when one has not, and is never cut off. *)
Definition outcome_tells {A} (names : list string) (r : outcome A) : Prop :=
  match r with
  | Val _ => Forall has_alnum names
  | Raise e => (∃ msg, e = ValueError msg) ∧ ¬ Forall has_alnum names
  | Diverge => False
  end.

(** The names that have an alias have a letter or a digit. *)
Definition alias_keys_ok (am : AliasMap) : Prop :=
  ∀ n a, _map am !! n = Some a → has_alnum n.

(** The text has no line break. *)
Definition one_line (s : string) : Prop :=
  Forall (λ ch, ch ≠ "010"%char ∧ ch ≠ "013"%char) (chars s).

(** Every [c] in the text stands behind a [b]. *)
Definition escaped (c b : ascii) (l : list ascii) : Prop :=
  head l ≠ Some c ∧ ∀ i, l !! S i = Some c → l !! i = Some b.

End Diagram.

(** * score_draw_uml_funcs/__init__.py: drawing over the need graph *)

Module Draw.

Local Open Scope py_scope.

(** ** Needs, list objects and the registries *)

(** The identity of a Python list object. The lists of a need and the lists
    the registries hold are objects of one heap, so that an [append] through
    one reference is seen through every other. *)
Definition loc := nat.

(** A need record. [id], [type] and [title] are always there; a relation field
    is absent ([None]) or refers to a list object of ids. *)
Record Need := mkNeed {
  id : string;
  type : string;
  title : string;
  includes : option loc;
  consists_of : option loc;
  implements : option loc;
  uses : option loc;
}.

(** The two registries are dicts from an interface id to a list object. *)
Inductive registry := ProcImpl | ProcUsed.

Inductive log_entry :=
  | NotFound (who relation target : string)
  | NoImplementer (iface : string)
  | ComponentNotFound (comp : string).

Record world := mkWorld {
  heap : gmap loc (list string);
  proc_impl_interfaces : list (string * loc);
  proc_used_interfaces : list (string * loc);
  logged : list log_entry;
}.

Definition empty_world (h : gmap loc (list string)) : world := mkWorld h [] [] [].

(** *** Text

    The text helpers (gen_struct_element, gen_interface_element,
    gen_link_text, get_hierarchy_text, gen_header, get_alias) are not part of
    the sources at hand. A text is kept as the sequence of the pieces that
    were appended to it; each piece stands for the string the named helper
    returns, with the literal text the caller puts around it. *)
Inductive piece :=
  | StructOpen (kind need_id : string)      (* gen_struct_element(kind, need) "  {\n" *)
  | StructClose (title : string)            (* "} /' title '/ \n\n" *)
  | Interface (iface : string)              (* gen_interface_element(iface, all_needs, True) *)
  | Hierarchy (part : nat) (comp : string)  (* get_hierarchy_text(comp, all_needs)[part] *)
  | Link (src arrow dst label : string)     (* gen_link_text(src, arrow, dst, label) " \n" *)
  | Actor                                   (* actor "Feature User" as <alias> \n *)
  | Header                                  (* gen_header() *)
  | Newline.                                (* "\n" *)

Global Instance piece_eq_dec : EqDecision piece.
Proof. solve_decision. Defined.

Definition text := list piece.

(** ["\n".join(set(text.split("\n"))) + "\n"]: every line is kept once. The
    order of a Python set is not specified; the model keeps first
    occurrences in place. *)
Definition dedup_lines (t : text) : text := remove_dups t.

(** *** Primitive effects *)

Definition set_heap (f : gmap loc (list string) → gmap loc (list string)) (w : world) : world :=
  mkWorld (f (heap w)) (proc_impl_interfaces w) (proc_used_interfaces w) (logged w).

Definition registry_of (r : registry) (w : world) : list (string * loc) :=
  match r with
  | ProcImpl => proc_impl_interfaces w
  | ProcUsed => proc_used_interfaces w
  end.

Definition set_registry (r : registry) (f : list (string * loc) → list (string * loc))
    (w : world) : world :=
  match r with
  | ProcImpl => mkWorld (heap w) (f (proc_impl_interfaces w)) (proc_used_interfaces w) (logged w)
  | ProcUsed => mkWorld (heap w) (proc_impl_interfaces w) (f (proc_used_interfaces w)) (logged w)
  end.

Definition info (e : log_entry) : M world unit :=
  modify (λ w, mkWorld (heap w) (proc_impl_interfaces w) (proc_used_interfaces w)
                 (logged w ++ [e])).

(** The content of a list object. *)
Definition deref (h : gmap loc (list string)) (l : loc) : list string :=
  default [] (h !! l).

Definition read (l : loc) : M world (list string) := gets (λ w, deref (heap w) l).

(** A list display [[...]] makes a new object. *)
Definition alloc (v : list string) : M world loc :=
  λ w, let l := fresh (dom (heap w)) in (Val l, set_heap (insert l v) w).

(** [l.append(x)] *)
Definition append (l : loc) (x : string) : M world unit :=
  modify (set_heap (λ h, <[l := deref h l ++ [x]]> h)).

(** [need.get(field, [])] *)
Definition field (h : gmap loc (list string)) (f : option loc) : list string :=
  match f with Some l => deref h l | None => [] end.

(** [proc_dict.get(iface, [])] *)
Definition registry_get (r : registry) (iface : string) : M world (list string) :=
  gets (λ w, match dict_get iface (registry_of r w) with
             | Some l => deref (heap w) l
             | None => []
             end).

(** [proc_dict[iface]], a reference to the list object. *)
Definition registry_item (r : registry) (iface : string) : M world loc :=
  entry ←' gets (λ w, dict_get iface (registry_of r w));
  match entry with
  | Some l => ret l
  | None => raise (KeyError iface)
  end.

(** [proc_dict[iface] = [...]], with a new list object. *)
Definition registry_set (r : registry) (iface : string) (v : list string) : M world unit :=
  l ←' alloc v;
  modify (set_registry r (dict_set iface l)).

(** [all_needs[key]] *)
Definition item (all_needs : gmap string Need) (key : string) : M world Need :=
  match all_needs !! key with
  | Some n => ret n
  | None => raise (KeyError key)
  end.

Definition is_external_baselib (comp_id : string) : bool :=
  String.prefix "comp__baselibs_" comp_id || String.prefix "comp__os_" comp_id.

(** ** The drawing functions *)

Section drawing.

(** The relation helpers of score_draw_uml_funcs.helpers are not among the
    sources; the drawing functions are embedded over any such helpers. They
    read the graph ([all_needs] and the list objects of its needs) and
    change nothing. *)
Variable get_interface_from_component :
  gmap loc (list string) → Need → string → gmap string Need → list string.
Variable get_impl_comp_from_logic_iface :
  gmap loc (list string) → string → gmap string Need → list string.
Variable get_module :
  gmap loc (list string) → string → gmap string Need → string.
Variable get_interface_from_int :
  gmap loc (list string) → string → gmap string Need → string.

(** [_process_interfaces] *)
Definition _process_interfaces (iface_list : list string) (relation : string)
    (need : Need) (all_needs : gmap string Need) (proc_dict : registry)
    (linkage_text : text) : M world text :=
  for_each iface_list (λ linkage_text iface,
    match all_needs !! iface with
    | None => info (NotFound (id need) relation iface) ;;' ret linkage_text
    | Some iface_need =>
        if bool_decide (relation = "implements") then
          cur ←' registry_get proc_dict iface;
          (if bool_decide (cur = []) then registry_set proc_dict iface []
           else ret tt) ;;'
          l ←' registry_item proc_dict iface;
          credited ←' read l;
          if bool_decide (id need ∈ credited) then ret linkage_text
          else
            append l (id need) ;;'
            ret (linkage_text ++ [Link (id need) "-u->" (id iface_need) "implements"])
        else
          cur ←' registry_get proc_dict iface;
          (if bool_decide (cur = []) then registry_set proc_dict iface [id need]
           else l ←' registry_item proc_dict iface; append l (id need)) ;;'
          ret linkage_text
    end) linkage_text.

(** [draw_comp_incl_impl_int]; [fuel] bounds the depth of the recursion. *)
Fixpoint draw_comp_incl_impl_int (fuel : nat) (need : Need)
    (all_needs : gmap string Need) (white_box_view : bool)
    : M world (text * text) :=
  match fuel with
  | O => diverge
  | S fuel =>
      let structure_text := [StructOpen "component" (id need)] in
      let linkage_text : text := [] in
      let* (structure_text, linkage_text) :=
        (if white_box_view then
           h ←' gets heap;
           let sub_components := field h (includes need) ++ field h (consists_of need) in
           for_each sub_components (λ '(structure_text, linkage_text) need_inc,
             match all_needs !! need_inc with
             | None =>
                 info (NotFound (id need) "include" need_inc) ;;'
                 ret (structure_text, linkage_text)
             | Some curr_need =>
                 if bool_decide (type curr_need ∈ ["comp"; "comp_arc_sta"]) then
                   h ←' gets heap;
                   let sub_is_container :=
                     negb (bool_decide (field h (consists_of curr_need) = [])) in
                   let* (sub_structure, sub_linkage) :=
                     draw_comp_incl_impl_int fuel curr_need all_needs sub_is_container in
                   ret (structure_text ++ sub_structure, linkage_text ++ sub_linkage)
                 else ret (structure_text, linkage_text)
             end) (structure_text, linkage_text)
         else ret (structure_text, linkage_text)) in
      let structure_text := structure_text ++ [StructClose (title need)] in
      h ←' gets heap;
      let local_impl_interfaces :=
        get_interface_from_component h need "implements" all_needs in
      let local_used_interfaces :=
        get_interface_from_component h need "uses" all_needs in
      linkage_text ←' _process_interfaces local_impl_interfaces "implements"
                        need all_needs ProcImpl linkage_text;
      linkage_text ←' _process_interfaces local_used_interfaces "uses"
                        need all_needs ProcUsed linkage_text;
      ret (structure_text, linkage_text)
  end.

(** [draw_impl_interface]; the set it is given is updated in place. *)
Fixpoint draw_impl_interface (fuel : nat) (need : Need)
    (all_needs : gmap string Need) (local_impl_interfaces : gset string)
    : M world (gset string) :=
  match fuel with
  | O => diverge
  | S fuel =>
      h ←' gets heap;
      let sub_components := field h (includes need) ++ field h (consists_of need) in
      local_impl_interfaces ←'
        for_each sub_components (λ local_impl_interfaces need_inc,
          match all_needs !! need_inc with
          | None =>
              info (NotFound (id need) "include" need_inc) ;;'
              ret local_impl_interfaces
          | Some curr_need =>
              draw_impl_interface fuel curr_need all_needs local_impl_interfaces
          end) local_impl_interfaces;
      h ←' gets heap;
      ret (local_impl_interfaces
             ∪ list_to_set (get_interface_from_component h need "implements" all_needs))
  end.

(** [_process_impl_interfaces] *)
Definition _process_impl_interfaces (fuel : nat) (need : Need)
    (all_needs : gmap string Need) (structure_text : text) : M world text :=
  local_impl_interfaces ←' draw_impl_interface fuel need all_needs ∅;
  for_each (elements local_impl_interfaces) (λ structure_text iface,
    match all_needs !! iface with
    | None => info (NotFound (id need) "implements" iface) ;;' ret structure_text
    | Some _ =>
        cur ←' registry_get ProcImpl iface;
        if bool_decide (cur = []) then
          registry_set ProcImpl iface [id need] ;;'
          ret (structure_text ++ [Interface iface])
        else ret structure_text
    end) structure_text.

(** [_process_used_interfaces] *)
Definition _process_used_interfaces (need : Need) (all_needs : gmap string Need)
    (local_impl_interfaces : list string) (structure_text linkage_text : text)
    : M world (text * text) :=
  items ←' gets proc_used_interfaces;
  for_each items (λ '(structure_text, linkage_text) '(iface, comps),
    entry ←' gets (λ w, dict_get iface (proc_impl_interfaces w));
    h ←' gets heap;
    let interface_structure_exists :=
      match entry with
      | Some l => bool_decide (0 < length (deref h l))
      | None => false
      end in
    let* (structure_text, linkage_text) :=
      (if interface_structure_exists then ret (structure_text, linkage_text)
       else
         let impl_comp_str := get_impl_comp_from_logic_iface h iface all_needs in
         match impl_comp_str with
         | c :: _ =>
             match all_needs !! c with
             | Some impl_comp =>
                 let structure_text :=
                   structure_text ++ [Hierarchy 2 c; Hierarchy 0 c;
                                      Hierarchy 1 c; Hierarchy 3 c] in
                 structure_text ←'
                   (if bool_decide (iface ∈ local_impl_interfaces)
                    then ret structure_text
                    else
                      registry_set ProcImpl iface [c] ;;'
                      ret (structure_text ++ [Interface iface]));
                 iface_need ←' item all_needs iface;
                 ret (structure_text,
                      linkage_text
                        ++ [Link (id impl_comp) "-u->" (id iface_need) "implements"])
             | None =>
                 info (NoImplementer iface) ;;'
                 registry_set ProcImpl iface [] ;;'
                 ret (structure_text ++ [Interface iface], linkage_text)
             end
         | [] =>
             info (NoImplementer iface) ;;'
             registry_set ProcImpl iface [] ;;'
             ret (structure_text ++ [Interface iface], linkage_text)
         end) in
    users ←' read comps;
    linkage_text ←'
      for_each users (λ linkage_text comp,
        comp_need ←' item all_needs comp;
        iface_need ←' item all_needs iface;
        ret (linkage_text
               ++ [Link (id comp_need) "-d[#green]->" (id iface_need) "uses"]))
        linkage_text;
    ret (structure_text, linkage_text)) (structure_text, linkage_text).

(** [draw_module] *)
Definition draw_module (fuel : nat) (need : Need) (all_needs : gmap string Need)
    : M world (text * text) :=
  let linkage_text : text := [] in
  let structure_text : text := [] in
  local_impl_interfaces ←' draw_impl_interface fuel need all_needs ∅;
  structure_text ←' _process_impl_interfaces fuel need all_needs structure_text;
  let structure_text := structure_text ++ [StructOpen "package" (id need)] in
  h ←' gets heap;
  let* (structure_text, linkage_text) :=
    for_each (field h (includes need)) (λ '(structure_text, linkage_text) need_inc,
      match all_needs !! need_inc with
      | None =>
          info (NotFound (id need) "include" need_inc) ;;'
          ret (structure_text, linkage_text)
      | Some curr_need =>
          if bool_decide (type curr_need ∈ ["comp"; "mod"]) then
            h ←' gets heap;
            let is_container :=
              negb (bool_decide (field h (consists_of curr_need) = [])) in
            let* (sub_structure, sub_linkage) :=
              draw_comp_incl_impl_int fuel curr_need all_needs is_container in
            ret (structure_text ++ sub_structure, linkage_text ++ sub_linkage)
          else ret (structure_text, linkage_text)
      end) (structure_text, linkage_text) in
  let structure_text := structure_text ++ [StructClose (title need)] in
  let* (structure_text, linkage_text) :=
    _process_used_interfaces need all_needs (elements local_impl_interfaces)
      structure_text linkage_text in
  ret (structure_text, dedup_lines linkage_text).


(** *** draw_full_feature *)

(** The local variables of the [while interfaces_to_process] loop of
    [_collect_interfaces_and_modules]. *)
Record closure := mkClosure {
  interfaces_to_process : list string;
  visited_interfaces : gset string;
  secondary_components : gset string;
  all_related_interfaces : gset string;
}.

Section secondary.
Variable h : gmap loc (list string).
Variable all_needs : gmap string Need.
Variable primary_components primary_interfaces : gset string.

(** The body of [for used_iface in used_ifaces]. *)
Definition enqueue_used (st : closure) (used_iface : string) : closure :=
  if bool_decide ((used_iface ∉ visited_interfaces st)
                  ∧ (used_iface ∉ primary_interfaces))
  then mkClosure (interfaces_to_process st ++ [used_iface])
         (visited_interfaces st) (secondary_components st)
         ({[used_iface]} ∪ all_related_interfaces st)
  else st.

(** The body of [for comp_id in impl_comps]. *)
Definition visit_implementer (st : closure) (comp_id : string) : closure :=
  match all_needs !! comp_id with
  | Some comp =>
      if bool_decide (comp_id ∉ primary_components) then
        let st := mkClosure (interfaces_to_process st) (visited_interfaces st)
                    ({[comp_id]} ∪ secondary_components st)
                    (all_related_interfaces st) in
        if is_external_baselib comp_id then st
        else foldl enqueue_used st
               (get_interface_from_component h comp "uses" all_needs)
      else st
  | None => st
  end.

(** One turn of the [while] loop; [None] when the queue is empty. *)
Definition secondary_step (st : closure) : option closure :=
  match interfaces_to_process st with
  | [] => None
  | iface :: rest =>
      let st := mkClosure rest (visited_interfaces st)
                  (secondary_components st) (all_related_interfaces st) in
      if bool_decide (iface ∈ visited_interfaces st ∨ all_needs !! iface = None)
      then Some st
      else
        let st := mkClosure rest ({[iface]} ∪ visited_interfaces st)
                    (secondary_components st) (all_related_interfaces st) in
        Some (foldl visit_implementer st
                (get_impl_comp_from_logic_iface h iface all_needs))
  end.

Fixpoint secondary_loop (fuel : nat) (st : closure) : option closure :=
  match secondary_step st with
  | None => Some st
  | Some st' =>
      match fuel with
      | O => None
      | S fuel => secondary_loop fuel st'
      end
  end.

(** [primary_interface_implementers] *)
Definition collect_primary_interface_implementers : gset string :=
  foldl (λ acc iface,
    match all_needs !! iface with
    | Some _ =>
        foldl (λ acc comp_id,
          if bool_decide (comp_id ∉ primary_components)
             && negb (is_external_baselib comp_id)
          then {[comp_id]} ∪ acc else acc)
          acc (get_impl_comp_from_logic_iface h iface all_needs)
    | None => acc
    end) ∅ (elements primary_interfaces).

(** [secondary_interfaces], the interfaces the primary components use. *)
Definition collect_secondary_interfaces : gset string :=
  foldl (λ acc comp_id,
    match all_needs !! comp_id with
    | Some comp =>
        acc ∪ list_to_set (get_interface_from_component h comp "uses" all_needs)
    | None => acc
    end) ∅ (elements primary_components).

(** [modules_to_draw] *)
Definition collect_modules_to_draw (all_related_components : gset string)
    : gset string :=
  foldl (λ acc comp_id,
    if is_external_baselib comp_id then acc
    else
      let module := get_module h comp_id all_needs in
      if bool_decide (module = "") then acc else {[module]} ∪ acc)
    ∅ (elements all_related_components).

(** [components_in_modules_only] *)
Definition collect_components_in_modules_only (modules_to_draw : gset string)
    : gset string :=
  foldl (λ acc module,
    match all_needs !! module with
    | Some m =>
        foldl (λ acc comp_id,
          if bool_decide (comp_id ∉ primary_components)
          then {[comp_id]} ∪ acc else acc)
          acc (field h (includes m))
    | None => acc
    end) ∅ (elements modules_to_draw).
End secondary.

(** [draw_full_feature._collect_interfaces_and_modules]. The registries are
    those of the world; [proc_modules] is the list object of the caller. *)
Definition _collect_interfaces_and_modules (fuel : nat) (need : Need)
    (all_needs : gmap string Need) (interfacelist : list string)
    (impl_comp : list (string * list string)) (proc_modules : loc)
    (structure_text link_text : text)
    : M world (text * text * list (string * list string)) :=
  h ←' gets heap;
  let primary_components : gset string := list_to_set (field h (consists_of need)) in
  let primary_interfaces : gset string := list_to_set interfacelist in
  let primary_interface_implementers :=
    collect_primary_interface_implementers h all_needs
      primary_components primary_interfaces in
  let secondary_interfaces :=
    collect_secondary_interfaces h all_needs primary_components in
  match secondary_loop h all_needs primary_components primary_interfaces fuel
          (mkClosure (elements secondary_interfaces) ∅ ∅
             (list_to_set interfacelist ∪ secondary_interfaces)) with
  | None => diverge
  | Some st =>
      let all_related_components :=
        primary_components ∪ secondary_components st
          ∪ primary_interface_implementers in
      let modules_to_draw :=
        collect_modules_to_draw h all_needs all_related_components in
      let components_in_modules_only :=
        collect_components_in_modules_only h all_needs primary_components
          modules_to_draw in
      let* (structure_text, link_text) :=
        for_each (elements modules_to_draw) (λ '(structure_text, link_text) module,
          drawn ←' read proc_modules;
          if bool_decide (module ∈ drawn) then ret (structure_text, link_text)
          else
            module_need ←' item all_needs module;
            let* (tmp, link_text) := draw_module fuel module_need all_needs in
            append proc_modules module ;;'
            ret (structure_text ++ tmp, link_text))
          (structure_text, link_text) in
      impl_comp ←'
        for_each (elements (all_related_interfaces st)) (λ impl_comp iface,
          match all_needs !! iface with
          | Some _ =>
              h ←' gets heap;
              let comps := get_impl_comp_from_logic_iface h iface all_needs in
              let filtered_comps :=
                filter (λ c, c ∈ all_related_components
                             ∧ c ∉ components_in_modules_only) comps in
              if bool_decide (filtered_comps = []) then ret impl_comp
              else ret (dict_set iface filtered_comps impl_comp)
          | None =>
              info (NotFound (id need) "interface" iface) ;;' ret impl_comp
          end) impl_comp;
      ret (structure_text, link_text, impl_comp)
  end.

(** [draw_full_feature._build_links] *)
Definition _build_links (need : Need) (all_needs : gmap string Need)
    (original_feature_interfaces all_interfaces : list string)
    (impl_comp : list (string * list string)) (link_text : text) : M world text :=
  for_each all_interfaces (λ link_text iface,
    match dict_get iface impl_comp with
    | Some ((_ :: _) as impl_comps) =>
        link_text ←'
          (if bool_decide (iface ∈ original_feature_interfaces) then
             iface_need ←' item all_needs iface;
             ret (link_text ++ [Link "Feature_User" "-d->" (id iface_need) "use"])
           else ret link_text);
        for_each impl_comps (λ link_text imcomp,
          match all_needs !! imcomp with
          | Some comp_need =>
              iface_need ←' item all_needs iface;
              ret (link_text
                     ++ [Link (id comp_need) "-u->" (id iface_need) "implements"])
          | None => info (ComponentNotFound imcomp) ;;' ret link_text
          end) link_text
    | _ => info (NotFound (id need) "interface" iface) ;;' ret link_text
    end) link_text.

(** Every request starts with registries of its own ([dict()]). *)
Definition new_registries : M world unit :=
  modify (λ w, mkWorld (heap w) [] [] (logged w)).

(** The loop of [draw_full_feature.__call__] over the includes of the
    feature, which makes [interfacelist]. *)
Definition feature_interfaces (h : gmap loc (list string)) (need : Need)
    (all_needs : gmap string Need) : list string :=
  foldl (λ interfacelist need_inc,
    let iface := get_interface_from_int h need_inc all_needs in
    if bool_decide (iface ∈ interfacelist) then interfacelist
    else interfacelist ++ [iface]) [] (field h (includes need)).

(** [draw_full_feature.__call__] *)
Definition draw_full_feature (fuel : nat) (need : Need)
    (all_needs : gmap string Need) : M world text :=
  new_registries ;;'
  proc_modules ←' alloc [];
  let link_text : text := [] in
  let structure_text := [Actor] in
  h ←' gets heap;
  let interfacelist := feature_interfaces h need all_needs in
  let* (structure_text, link_text, impl_comp) :=
    _collect_interfaces_and_modules fuel need all_needs interfacelist []
      proc_modules structure_text link_text in
  let all_interfaces := dict_keys impl_comp in
  link_text ←' _build_links need all_needs interfacelist all_interfaces
                 impl_comp link_text;
  ret ([Header] ++ structure_text ++ dedup_lines link_text).

(** [draw_full_module.__call__] *)
Definition draw_full_module (fuel : nat) (need : Need)
    (all_needs : gmap string Need) : M world text :=
  new_registries ;;'
  let* (structure_text, linkage_text) := draw_module fuel need all_needs in
  ret ([Header] ++ structure_text ++ linkage_text).

(** [draw_full_component.__call__] *)
Definition draw_full_component (fuel : nat) (need : Need)
    (all_needs : gmap string Need) : M world text :=
  new_registries ;;'
  let* (structure_text, linkage_text) :=
    draw_comp_incl_impl_int fuel need all_needs true in
  local_impl_interfaces ←' draw_impl_interface fuel need all_needs ∅;
  structure_text ←'
    for_each (elements local_impl_interfaces) (λ structure_text iface,
      match all_needs !! iface with
      | None => info (NotFound (id need) "implements" iface) ;;' ret structure_text
      | Some _ => ret (structure_text ++ [Interface iface])
      end) structure_text;
  ret ([Header] ++ structure_text ++ linkage_text).

(** [draw_full_interface.__call__] *)
Definition draw_full_interface (need : Need) (all_needs : gmap string Need)
    : M world text :=
  ret ([Interface (id need)] ++ [Newline]).

End drawing.

(** ** draw_full_feature._collect_recursive_components *)

Section recursive_components.
Variable get_interface_from_component :
  gmap loc (list string) → Need → string → gmap string Need → list string.
Variable get_impl_comp_from_logic_iface :
  gmap loc (list string) → string → gmap string Need → list string.

(** [draw_full_feature._collect_recursive_components]. The state is the set
    [visited_components], which every call of the recursion adds to; the list
    objects [h] of the graph are read only. [all_needs.items()] is taken in
    the order of [map_to_list]. [fuel] bounds the depth of the recursion. *)
Fixpoint _collect_recursive_components (fuel : nat) (h : gmap loc (list string))
    (component_id : string) (all_needs : gmap string Need)
    : M (gset string) (gset string) :=
  match fuel with
  | O => diverge
  | S fuel =>
      visited_components ←' get;
      match all_needs !! component_id with
      | Some component =>
          if bool_decide (component_id ∈ visited_components)
          then ret visited_components
          else
            modify (λ visited_components, {[component_id]} ∪ visited_components) ;;'
            let impl_interfaces :=
              get_interface_from_component h component "implements" all_needs in
            let used_interfaces :=
              get_interface_from_component h component "uses" all_needs in
            for_each impl_interfaces (λ _ iface,
              if bool_decide (is_Some (all_needs !! iface)) then
                for_each (map_to_list all_needs) (λ _ '(need_id, need),
                  if bool_decide (type need ∈ ["comp"; "comp_arc_sta"]) then
                    let comp_used_ifaces :=
                      get_interface_from_component h need "uses" all_needs in
                    visited_components ←' get;
                    if bool_decide (iface ∈ comp_used_ifaces
                                    ∧ need_id ∉ visited_components)
                    then _collect_recursive_components fuel h need_id all_needs ;;'
                         ret tt
                    else ret tt
                  else ret tt) tt
              else ret tt) tt ;;'
            for_each used_interfaces (λ _ iface,
              if bool_decide (is_Some (all_needs !! iface)) then
                let impl_comps := get_impl_comp_from_logic_iface h iface all_needs in
                for_each impl_comps (λ _ impl_comp_id,
                  visited_components ←' get;
                  if bool_decide (impl_comp_id ∉ visited_components)
                  then _collect_recursive_components fuel h impl_comp_id all_needs ;;'
                       ret tt
                  else ret tt) tt
              else ret tt) tt ;;'
            for_each (field h (includes component)) (λ _ sub_comp_id,
              match all_needs !! sub_comp_id with
              | Some sub_comp =>
                  if bool_decide (type sub_comp ∈ ["comp"; "comp_arc_sta"])
                  then _collect_recursive_components fuel h sub_comp_id all_needs ;;'
                       ret tt
                  else ret tt
              | None => ret tt
              end) tt ;;'
            for_each (field h (consists_of component)) (λ _ sub_comp_id,
              match all_needs !! sub_comp_id with
              | Some sub_comp =>
                  if bool_decide (type sub_comp ∈ ["comp"; "comp_arc_sta"])
                  then _collect_recursive_components fuel h sub_comp_id all_needs ;;'
                       ret tt
                  else ret tt
              | None => ret tt
              end) tt ;;'
            get
      | None => ret visited_components
      end
  end.

(** The components that a call for [c] goes on to: the components that use
    an interface that [c] implements, the implementers of an interface that
    [c] uses, and the sub-components of [c]; all of them needs of the
    graph. *)
Definition related (h : gmap loc (list string)) (all_needs : gmap string Need)
    (c t : string) : Prop :=
  ∃ comp target, all_needs !! c = Some comp ∧ all_needs !! t = Some target
    ∧ ((∃ iface, iface ∈ get_interface_from_component h comp "implements" all_needs
                 ∧ is_Some (all_needs !! iface)
                 ∧ type target ∈ ["comp"; "comp_arc_sta"]
                 ∧ iface ∈ get_interface_from_component h target "uses" all_needs)
       ∨ (∃ iface, iface ∈ get_interface_from_component h comp "uses" all_needs
                   ∧ is_Some (all_needs !! iface)
                   ∧ t ∈ get_impl_comp_from_logic_iface h iface all_needs)
       ∨ (t ∈ field h (includes comp) ++ field h (consists_of comp)
          ∧ type target ∈ ["comp"; "comp_arc_sta"])).
End recursive_components.

(** ** Helpers and graphs for concrete runs *)

(** Modelled from the spec: get_interface_from_component of
    score_draw_uml_funcs.helpers is missing. Spec 4.1: for a relation in
    implements, uses it yields the interface ids of the component in order,
    filtering out identifiers absent from the graph. The part on immediate
    sub-elements is left out: the graphs below have none. *)
Definition spec_get_interface_from_component (h : gmap loc (list string))
    (need : Need) (relation : string) (all_needs : gmap string Need) : list string :=
  let ids := if bool_decide (relation = "implements") then field h (implements need)
             else if bool_decide (relation = "uses") then field h (uses need)
             else [] in
  remove_dups (filter (λ i, is_Some (all_needs !! i)) ids).

(** Modelled from the spec: get_impl_comp_from_logic_iface of
    score_draw_uml_funcs.helpers is missing. Spec 4.3: the components
    implementing the interface. *)
Definition spec_get_impl_comp_from_logic_iface (h : gmap loc (list string))
    (iface : string) (all_needs : gmap string Need) : list string :=
  (filter (λ kv, iface ∈ field h (implements kv.2)) (map_to_list all_needs)).*1.

(** Modelled from the spec: get_module of score_draw_uml_funcs.helpers is
    missing. Spec 4.1: the first module found that includes the component, or
    empty. *)
Definition spec_get_module (h : gmap loc (list string)) (comp_id : string)
    (all_needs : gmap string Need) : string :=
  match filter (λ kv, type kv.2 = "mod" ∧ comp_id ∈ field h (includes kv.2))
          (map_to_list all_needs) with
  | kv :: _ => kv.1
  | [] => ""
  end.

(** Modelled from the spec: get_interface_from_int of
    score_draw_uml_funcs.helpers is missing. Spec 4.3: an interface id is kept;
    an interface-operation id resolves to its owning interface, which the
    graphs below never need. *)
Definition spec_get_interface_from_int (h : gmap loc (list string))
    (need_inc : string) (all_needs : gmap string Need) : string := need_inc.

(** A need as it is written down: id, type, and the four relation lists. *)
Record entry := mkEntry {
  e_id : string;
  e_type : string;
  e_includes : list string;
  e_consists_of : list string;
  e_implements : list string;
  e_uses : list string;
}.

(** The graph of a list of entries: the [i]-th need gets the list objects
    [4i .. 4i+3]; its title is its id. *)
Fixpoint graph_from (i : nat) (es : list entry)
    : gmap loc (list string) * gmap string Need :=
  match es with
  | [] => (∅, ∅)
  | e :: es' =>
      let '(h, needs) := graph_from (S i) es' in
      (<[4 * i := e_includes e]> (<[4 * i + 1 := e_consists_of e]>
         (<[4 * i + 2 := e_implements e]> (<[4 * i + 3 := e_uses e]> h))),
       <[e_id e := mkNeed (e_id e) (e_type e) (e_id e)
                     (Some (4 * i)) (Some (4 * i + 1))
                     (Some (4 * i + 2)) (Some (4 * i + 3))]> needs)
  end.
Definition graph (es : list entry) : gmap loc (list string) * gmap string Need :=
  graph_from 0 es.

Definition need_of (es : list entry) (key : string) : Need :=
  default (mkNeed "" "" "" None None None None) ((graph es).2 !! key).

(** A and B consist of each other. *)
Definition cyclic : list entry :=
  [ mkEntry "A" "comp" [] ["B"] [] [];
    mkEntry "B" "comp" [] ["A"] [] [] ].

(** A container with two leaves. *)
Definition nested : list entry :=
  [ mkEntry "A" "comp" [] ["B"; "C"] [] [];
    mkEntry "B" "comp" [] [] ["I"] [];
    mkEntry "C" "comp" [] [] [] ["I"];
    mkEntry "I" "logic_arc_int" [] [] [] [] ].

(** Two modules; the component of the first uses an interface that nothing
    implements. *)
Definition orphan_interface : list entry :=
  [ mkEntry "M1" "mod" ["C1"] [] [] [];
    mkEntry "M2" "mod" ["C2"] [] [] [];
    mkEntry "C1" "comp" [] [] [] ["I"];
    mkEntry "C2" "comp" [] [] [] [];
    mkEntry "I" "logic_arc_int" [] [] [] [] ].

(** Three levels of containment. *)
Definition deep : list entry :=
  [ mkEntry "A" "comp" [] ["B"] [] [];
    mkEntry "B" "comp" ["C"] ["C"; "X"] ["I"] [];
    mkEntry "C" "comp" [] [] ["I"] ["J"];
    mkEntry "I" "logic_arc_int" [] [] [] [] ].

(** The rank of the needs of [deep]. *)
Definition deep_rank (n : Need) : nat :=
  if bool_decide (id n = "A") then 2
  else if bool_decide (id n = "B") then 1 else 0.

(** The feature scenario of the spec: C1 is primary, implements I1 and uses
    I2; C2 implements I2. *)
Definition scenario : list entry :=
  [ mkEntry "F" "feat" ["I1"] ["C1"] [] [];
    mkEntry "C1" "comp" [] [] ["I1"] ["I2"];
    mkEntry "C2" "comp" [] [] ["I2"] [];
    mkEntry "I1" "logic_arc_int" [] [] [] [];
    mkEntry "I2" "logic_arc_int" [] [] [] [] ].

(** A feature whose interface nothing implements. *)
Definition unimplemented : list entry :=
  [ mkEntry "F" "feat" ["I1"] [] [] [];
    mkEntry "I1" "logic_arc_int" [] [] [] [] ].

(** A primary component uses I2, which an external component implements; the
    external component uses I3, which C3 implements. *)
Definition external_chain : list entry :=
  [ mkEntry "F" "feat" [] ["C1"] [] [];
    mkEntry "C1" "comp" [] [] [] ["I2"];
    mkEntry "comp__os_x" "comp" [] [] ["I2"] ["I3"];
    mkEntry "C3" "comp" [] [] ["I3"] [];
    mkEntry "I2" "logic_arc_int" [] [] [] [];
    mkEntry "I3" "logic_arc_int" [] [] [] [] ].

(** A run with the helpers above, from fresh registries over the graph. *)
Definition run {A} (es : list entry)
    (f : (gmap loc (list string) → Need → string → gmap string Need → list string) →
         (gmap loc (list string) → string → gmap string Need → list string) →
         (gmap loc (list string) → string → gmap string Need → string) →
         (gmap loc (list string) → string → gmap string Need → string) →
         gmap string Need → M world A) : outcome A * world :=
  f spec_get_interface_from_component spec_get_impl_comp_from_logic_iface
    spec_get_module spec_get_interface_from_int (graph es).2
    (empty_world (graph es).1).

(** ** Vocabulary of the statements about the drawing functions *)

(** The list objects a need refers to, and those of a whole graph. *)
Definition need_locs (n : Need) : gset loc :=
  list_to_set (omap (λ f, f) [includes n; consists_of n; implements n; uses n]).

Definition graph_locs (all_needs : gmap string Need) : gset loc :=
  ⋃ (need_locs <$> (map_to_list all_needs).*2).

(** The list objects [G] exist and none of them is held by a registry. *)
Definition separate (G : gset loc) (w : world) : Prop :=
  G ⊆ dom (heap w)
  ∧ Forall (λ kl, kl.2 ∉ G) (proc_impl_interfaces w)
  ∧ Forall (λ kl, kl.2 ∉ G) (proc_used_interfaces w).

(** The list objects [G] have in [h'] the content they have in [h]. *)
Definition unchanged_on (G : gset loc) (h h' : gmap loc (list string)) : Prop :=
  ∀ l, l ∈ G → h' !! l = h !! l.

(** The invariant of a run: the list objects [G] are apart from the
    registries and have the content they have in [h0]. *)
Definition inv (G : gset loc) (h0 : gmap loc (list string)) (w : world) : Prop :=
  separate G w ∧ unchanged_on G h0 (heap w).

(** A postcondition on outcomes: [P] for a value, [R] for a raise, [D] for a
    run that was cut off. *)
Definition post {A} (P : A → Prop) (R D : Prop) (r : outcome A) : Prop :=
  match r with
  | Val a => P a
  | Raise _ => R
  | Diverge => D
  end.

(** From a world that satisfies [I] the computation ends in one that does,
    with an outcome that satisfies [Q]. *)
Definition triple {A} (I : world → Prop) (m : M world A) (Q : outcome A → Prop) : Prop :=
  ∀ w, I w → Q (m w).1 ∧ I (m w).2.

(** A component that is drawn with its sub-components. *)
Definition container (h : gmap loc (list string)) (n : Need) : Prop :=
  type n ∈ ["comp"; "comp_arc_sta"] ∧ field h (consists_of n) ≠ [].

(** The needs a traversal from [root] can meet: the root and the needs of
    the graph. *)
Definition known (all_needs : gmap string Need) (root n : Need) : Prop :=
  n = root ∨ ∃ k, all_needs !! k = Some n.

(** The containment among containers has no cycle: the lists of the known
    needs are among [G], and [rank] falls from a need to each container among
    its sub-components, as the lists of [h0] give them. *)
Definition ranked (G : gset loc) (h0 : gmap loc (list string))
    (all_needs : gmap string Need) (root : Need) (rank : Need → nat) : Prop :=
  (∀ n, known all_needs root n → need_locs n ⊆ G)
  ∧ ∀ n sub c, known all_needs root n →
      sub ∈ field h0 (includes n) ++ field h0 (consists_of n) →
      all_needs !! sub = Some c → container h0 c → rank c < rank n.

(** The rank falls from [n] to its sub-component [sub], if that is a
    container of the graph. *)
Definition rank_falls (h0 : gmap loc (list string)) (all_needs : gmap string Need)
    (rank : Need → nat) (n : Need) (sub : string) : Prop :=
  match all_needs !! sub with
  | Some c => container h0 c → rank c < rank n
  | None => True
  end.

(** The depth of recursion that a need of the given rank can take. *)
Definition depth (rank : Need → nat) (n : Need) (white_box_view : bool) : nat :=
  if white_box_view then rank n + 2 else 1.

(** The variables of the secondary-component loop after [n] turns, or when
    the loop has ended before. *)
Fixpoint secondary_run
    (get_interface_from_component :
       gmap loc (list string) → Need → string → gmap string Need → list string)
    (get_impl_comp_from_logic_iface :
       gmap loc (list string) → string → gmap string Need → list string)
    (h : gmap loc (list string)) (all_needs : gmap string Need)
    (primary_components primary_interfaces : gset string)
    (n : nat) (st : closure) : closure :=
  match n with
  | O => st
  | S n =>
      match secondary_step get_interface_from_component
              get_impl_comp_from_logic_iface h all_needs
              primary_components primary_interfaces st with
      | Some st' =>
          secondary_run get_interface_from_component
            get_impl_comp_from_logic_iface h all_needs
            primary_components primary_interfaces n st'
      | None => st
      end
  end.

(** What holds of the variables of the secondary-component loop at every
    turn. A secondary component is in the graph, is not primary and implements
    a visited interface; an interface in the queue or visited is one of the
    [initial] ones or is used by a secondary component that is not external;
    and every implementer of a visited interface that is in the graph and not
    primary is a secondary component. *)
Definition closure_ok
    (get_interface_from_component :
       gmap loc (list string) → Need → string → gmap string Need → list string)
    (get_impl_comp_from_logic_iface :
       gmap loc (list string) → string → gmap string Need → list string)
    (h : gmap loc (list string)) (all_needs : gmap string Need)
    (primary_components initial : gset string) (st : closure) : Prop :=
  (∀ c, c ∈ secondary_components st →
     (c ∉ primary_components) ∧ is_Some (all_needs !! c)
     ∧ ∃ iface, iface ∈ visited_interfaces st
                ∧ c ∈ get_impl_comp_from_logic_iface h iface all_needs)
  ∧ (∀ iface, iface ∈ interfaces_to_process st ∨ iface ∈ visited_interfaces st →
       iface ∈ initial
       ∨ ∃ comp_id comp, comp_id ∈ secondary_components st
           ∧ is_external_baselib comp_id = false
           ∧ all_needs !! comp_id = Some comp
           ∧ iface ∈ get_interface_from_component h comp "uses" all_needs)
  ∧ (∀ iface c, iface ∈ visited_interfaces st →
       c ∈ get_impl_comp_from_logic_iface h iface all_needs →
       c ∉ primary_components → is_Some (all_needs !! c) →
       c ∈ secondary_components st).

(** The feature-user edge to an interface. *)
Definition actor_edge (iface_id : string) : piece :=
  Link "Feature_User" "-d->" iface_id "use".

(** A text without a feature-user edge. *)
Definition clean (t : text) : Prop := ∀ x, actor_edge x ∉ t.

(** How often a piece was put into a text. *)
Definition occurrences (p : piece) (t : text) : nat :=
  length (filter (λ q, q = p) t).

(** The graph holds each need under its id. *)
Definition id_keyed (all_needs : gmap string Need) : Prop :=
  map_Forall (λ k n, id n = k) all_needs.

(** Every used interface that is registered is a need of the graph and its
    list of users exists and holds needs of the graph. With [fixed] the
    registry of the used interfaces is the given one. *)
Definition users_known (all_needs : gmap string Need)
    (fixed : option (list (string * loc))) (w : world) : Prop :=
  Forall (λ kl, is_Some (all_needs !! kl.1) ∧ kl.2 ∈ dom (heap w)
                ∧ Forall (λ c, is_Some (all_needs !! c)) (deref (heap w) kl.2))
    (proc_used_interfaces w)
  ∧ match fixed with
    | Some items => proc_used_interfaces w = items
    | None => True
    end.

(** The module that [get_module] finds for a component, if it finds one, is a
    need of the graph. *)
Definition modules_known
    (get_module : gmap loc (list string) → string → gmap string Need → string)
    (all_needs : gmap string Need) : Prop :=
  ∀ h comp_id, get_module h comp_id all_needs = ""
               ∨ is_Some (all_needs !! get_module h comp_id all_needs).

(** The registry holds for the interface a list with the need in it. *)
Definition credited (r : registry) (need_id iface : string) (w : world) : Prop :=
  ∃ l, dict_get iface (registry_of r w) = Some l ∧ need_id ∈ deref (heap w) l.
(** What a call of [_collect_recursive_components] makes of the set [v] of
    visited components: it adds needs of the graph, and with each component
    it adds all that the component is related to. *)
Definition collected
    (get_interface_from_component :
       gmap loc (list string) → Need → string → gmap string Need → list string)
    (get_impl_comp_from_logic_iface :
       gmap loc (list string) → string → gmap string Need → list string)
    (h : gmap loc (list string)) (all_needs : gmap string Need)
    (v v' : gset string) : Prop :=
  v ⊆ v' ∧ v' ⊆ v ∪ dom all_needs
  ∧ ∀ c t, c ∈ v' → c ∉ v →
      related get_interface_from_component get_impl_comp_from_logic_iface
        h all_needs c t →
      t ∈ v'.

(** The depth of nesting after a text, from depth [d]: an element that is
    opened goes one level down and a closing line one level up; [None] when a
    closing line has no element to close. *)
Fixpoint level (t : text) (d : nat) : option nat :=
  match t with
  | [] => Some d
  | StructOpen _ _ :: t' => level t' (S d)
  | StructClose _ :: t' =>
      match d with
      | O => None
      | S d' => level t' d'
      end
  | _ :: t' => level t' d
  end.

(** Every element of the text is closed, and nothing else is. *)
Definition well_nested (t : text) : Prop := level t 0 = Some 0.

End Draw.

(** * draw_metamodel.py: the class diagram of the need types *)

Module Metamodel.
Import Diagram.

Local Open Scope py_scope.

(** ** The configuration *)

(** A target of a link of a need type: the name of a directive, or a need
    type, of which the directive is read. *)
Inductive link_target :=
  | TargetName (name : string)
  | TargetType (directive : string).

Global Instance link_target_eq_dec : EqDecision link_target.
Proof. solve_decision. Defined.

(** A need type of the configuration, a dict ([ScoreNeedType], of
    metamodel_types, which is not among the sources). [directive] is always
    there and [title] may be missing; a missing dict of options or of links is
    read as the empty one, and is kept as such here. The dicts are in
    insertion order. *)
Record ScoreNeedType := mkScoreNeedType {
  directive : string;
  title : option string;
  mandatory_options : list (string * string);
  optional_options : list (string * string);
  mandatory_links : list (string * list link_target);
  optional_links : list (string * list link_target);
}.

(** An argument that is a [str] or a list of them: [types], and [links],
    which the code compares with the string ["all"]. *)
Inductive str_or_list :=
  | Str (s : string)
  | List (l : list string).

(** ** DrawMetamodel *)

(** [types = [types]] for a [str]. *)
Definition as_list (types : str_or_list) : list string :=
  match types with
  | Str s => [s]
  | List l => l
  end.

(** [DrawMetamodel._get_need_types], over [self._config.needs_types]. The
    message ends in the list, which is empty when the error is raised. *)
Definition _get_need_types (needs_types : list ScoreNeedType) (types : str_or_list)
    : outcome (list ScoreNeedType) :=
  let types := as_list types in
  if bool_decide (length types = 0)
  then Raise (ValueError "No need types found for directives: []")
  else Val (filter (λ nt, directive nt ∈ types) needs_types).

(** [DrawMetamodel._add_attributes_to_class] *)
Definition _add_attributes_to_class (class_name : string) (nt : ScoreNeedType)
    (attributes : list string) : M ClassDiagram unit :=
  for_each (mandatory_options nt) (λ _ '(opt, allowed_values),
    if bool_decide (opt ∈ attributes)
    then add_member class_name opt PUBLIC (Some allowed_values)
    else ret tt) tt ;;'
  for_each (optional_options nt) (λ _ '(opt, allowed_values),
    if bool_decide (opt ∈ attributes)
    then add_member class_name opt PRIVATE (Some allowed_values)
    else ret tt) tt.

(** [a | b] on dicts: the entries of [b] are set in [a], one after the
    other. *)
Definition dict_union {V} (a b : list (string * V)) : list (string * V) :=
  foldl (λ acc kv, dict_set kv.1 kv.2 acc) a b.

(** [sub in s] on strings. *)
Fixpoint str_in (sub s : string) : bool :=
  String.prefix sub s
  || match s with
     | EmptyString => false
     | String _ s' => str_in sub s'
     end.

(** [links == "all" or k in links] *)
Definition selected (links : str_or_list) (k : string) : bool :=
  match links with
  | Str s => bool_decide (s = "all") || str_in k s
  | List l => bool_decide (k ∈ l)
  end.

(** [target if isinstance(target, str) else target["directive"]] *)
Definition target_name (target : link_target) : string :=
  match target with
  | TargetName name => name
  | TargetType directive => directive
  end.

(** [DrawMetamodel._add_links_to_class] *)
Definition _add_links_to_class (class_name : string) (nt : ScoreNeedType)
    (links : str_or_list) : M ClassDiagram unit :=
  let all_links := dict_union (mandatory_links nt) (optional_links nt) in
  let selected_links := filter (λ kv, selected links kv.1 = true) all_links in
  for_each selected_links (λ _ '(link_name, link_targets),
    for_each link_targets (λ _ target,
      relate class_name (target_name target) ASSOCIATION (Some link_name)) tt) tt.

(** [if attributes:] and [if links:] *)
Definition nonempty (a : option str_or_list) : bool :=
  match a with
  | None => false
  | Some (Str s) => negb (falsy s)
  | Some (List l) => negb (bool_decide (l = []))
  end.

(** The loop of [DrawMetamodel.__call__] over the need types. *)
Definition draw_types (need_type_objects : list ScoreNeedType)
    (attributes : option (list string)) (links : option str_or_list)
    : M ClassDiagram unit :=
  for_each need_type_objects (λ _ nt,
    let class_name := directive nt in
    add_class class_name (title nt) ;;'
    match attributes with
    | Some ((_ :: _) as attributes) =>
        _add_attributes_to_class class_name nt attributes
    | _ => ret tt
    end ;;'
    match links with
    | Some l => if nonempty links then _add_links_to_class class_name nt l else ret tt
    | None => ret tt
    end) tt.

(** [DrawMetamodel.__call__] *)
Definition __call__ (needs_types : list ScoreNeedType) (types : str_or_list)
    (attributes : option (list string)) (links : option str_or_list)
    : outcome string :=
  match _get_need_types needs_types types with
  | Val need_type_objects =>
      match draw_types need_type_objects attributes links empty_diagram with
      | (Val _, diagram) => render diagram
      | (Raise e, _) => Raise e
      | (Diverge, _) => Diverge
      end
  | Raise e => Raise e
  | Diverge => Diverge
  end.

(** ** Vocabulary of the statements about draw_metamodel.py *)

(** The member stands for an option of a requested need type [k]: its name
    is among the attributes that were asked for, its type hint is the allowed
    values, and it is public for a mandatory option and private for an
    optional one. *)
Definition member_from (nts : list ScoreNeedType) (attributes : option (list string))
    (k : string) (mem : Member) : Prop :=
  ∃ nt attrs hint,
    nt ∈ nts ∧ directive nt = k ∧ attributes = Some attrs
    ∧ m_name mem ∈ attrs ∧ m_type_hint mem = Some hint
    ∧ ((m_visibility mem = PUBLIC ∧ (m_name mem, hint) ∈ mandatory_options nt)
       ∨ (m_visibility mem = PRIVATE ∧ (m_name mem, hint) ∈ optional_options nt)).

(** The dicts of links of a need type hold each key once, as Python dicts
    do. *)
Definition links_ok (nt : ScoreNeedType) : Prop :=
  NoDup (dict_keys (mandatory_links nt)) ∧ NoDup (dict_keys (optional_links nt)).

(** The relation stands for a selected link of a requested need type: an
    association from the need type to a target of the link, with the name of
    the link as its label. The targets are those of the optional link of
    that name, and those of the mandatory link if there is no such optional
    link. *)
Definition relation_from (nts : list ScoreNeedType) (links : option str_or_list)
    (r : Relation) : Prop :=
  ∃ nt l link_name targets target,
    nt ∈ nts ∧ links = Some l ∧ nonempty links = true
    ∧ selected l link_name = true
    ∧ (dict_get link_name (optional_links nt) = Some targets
       ∨ (dict_get link_name (optional_links nt) = None
          ∧ dict_get link_name (mandatory_links nt) = Some targets))
    ∧ target ∈ targets
    ∧ r = mkRelation (directive nt) (target_name target) ASSOCIATION (Some link_name).

(** A computation keeps a property of the diagram, whatever its outcome. *)
Definition keeps {A} (I : ClassDiagram → Prop) (m : M ClassDiagram A) : Prop :=
  ∀ d r d', m d = (r, d') → I d → I d'.

(** Every member of every class satisfies [Q], and every relation [Q]. *)
Definition members_ok (Q : string → Member → Prop) (d : ClassDiagram) : Prop :=
  ∀ k node mem, dict_get k (classes d) = Some node → mem ∈ c_members node → Q k mem.

Definition relations_ok (Q : Relation → Prop) (d : ClassDiagram) : Prop :=
  ∀ r, r ∈ relations d → Q r.

(** A computation is never cut off. *)
Definition ends {A} (m : M ClassDiagram A) : Prop := ∀ d, (m d).1 ≠ Diverge.

(** A computation only adds to the diagram, whatever its outcome. *)
Definition grows {A} (m : M ClassDiagram A) : Prop := ∀ d, diagram_kept d (m d).2.

(** The class [k] has the member. *)
Definition has_member (k : string) (mem : Member) (d : ClassDiagram) : Prop :=
  ∃ node, dict_get k (classes d) = Some node ∧ mem ∈ c_members node.

(** A configuration for concrete runs: a requirement that is satisfied by
    other requirements and a test that verifies requirements. *)
Definition req_type : ScoreNeedType :=
  mkScoreNeedType "req" (Some "Requirement")
    [("id", "^req__.*$"); ("status", "^(valid|invalid)$")]
    [("rationale", "^.*$")]
    [("satisfies", [TargetName "req"])]
    [("satisfies", [TargetType "feat"]); ("tested_by", [TargetName "test"])].

Definition test_type : ScoreNeedType :=
  mkScoreNeedType "test" None [("id", "^test__.*$")] []
    [("verifies", [TargetName "req"])] [].

Definition example_types : list ScoreNeedType := [req_type; test_type].

End Metamodel.

(** * Facts about the monad, Python dicts and strings *)

Lemma bind_val {S A B} (m : M S A) (k : A → M S B) s a s' :
  m s = (Val a, s') → bind m k s = k a s'.
Proof. unfold bind. by intros ->. Qed.

Lemma bind_raise {S A B} (m : M S A) (k : A → M S B) s e s' :
  m s = (Raise e, s') → bind m k s = (Raise e, s').
Proof. unfold bind. by intros ->. Qed.

Lemma bind_diverge {S A B} (m : M S A) (k : A → M S B) s s' :
  m s = (Diverge, s') → bind m k s = (Diverge, s').
Proof. unfold bind. by intros ->. Qed.

Section dict_facts.
Context {V : Type}.
Implicit Types (d : list (string * V)) (k : string) (v : V).

Lemma dict_get_Some d k v : dict_get k d = Some v → (k, v) ∈ d.
Proof.
  induction d as [|[k' v'] d IH]; simpl; [done|].
  case_decide; subst.
  - intros [= ->]. left.
  - intros ?. right. auto.
Qed.

Lemma dict_get_is_Some d k : is_Some (dict_get k d) ↔ k ∈ dict_keys d.
Proof.
  unfold dict_keys. induction d as [|[k' v'] d IH]; simpl.
  - split; [intros [? [=]] | intros ?%elem_of_nil; done].
  - case_decide; subst.
    + split; [intros _; left | eauto].
    + rewrite IH. split; [intros ?; by right|].
      intros [?|?]%elem_of_cons; done.
Qed.

Lemma dict_get_None d k : dict_get k d = None ↔ k ∉ dict_keys d.
Proof. rewrite <-dict_get_is_Some, eq_None_not_Some. done. Qed.

Lemma dict_get_set_eq d k v : dict_get k (dict_set k v d) = Some v.
Proof.
  induction d as [|[k' v'] d IH]; simpl.
  - by rewrite decide_True.
  - case_decide; subst; simpl.
    + by rewrite decide_True.
    + by rewrite decide_False.
Qed.

Lemma dict_get_set_ne d k k' v : k ≠ k' → dict_get k' (dict_set k v d) = dict_get k' d.
Proof.
  intros Hne. induction d as [|[k1 v1] d IH]; simpl.
  - by rewrite decide_False.
  - case_decide; subst; simpl.
    + by rewrite !decide_False.
    + case_decide; done.
Qed.

Lemma dict_get_set d k k' v :
  dict_get k' (dict_set k v d) = if decide (k = k') then Some v else dict_get k' d.
Proof.
  case_decide; subst; [apply dict_get_set_eq | by apply dict_get_set_ne].
Qed.

Lemma dict_set_is_Some d k k' v :
  is_Some (dict_get k' d) → is_Some (dict_get k' (dict_set k v d)).
Proof. rewrite dict_get_set. case_decide; eauto. Qed.

(** A key that is there keeps its place. *)
Lemma dict_keys_set_in d k v :
  k ∈ dict_keys d → dict_keys (dict_set k v d) = dict_keys d.
Proof.
  unfold dict_keys. induction d as [|[k1 v1] d IH]; simpl.
  - intros ?%elem_of_nil; done.
  - case_decide; subst; simpl; [done|].
    intros [?|?]%elem_of_cons; [done|]. f_equal; auto.
Qed.

(** A new key goes last. *)
Lemma dict_set_notin d k v :
  k ∉ dict_keys d → dict_set k v d = d ++ [(k, v)].
Proof.
  unfold dict_keys. induction d as [|[k1 v1] d IH]; simpl; [done|].
  intros Hn. rewrite not_elem_of_cons in Hn. destruct Hn as [? ?].
  rewrite decide_False by done. f_equal; auto.
Qed.

Lemma dict_set_NoDup d k v :
  NoDup (dict_keys d) → NoDup (dict_keys (dict_set k v d)).
Proof.
  intros Hnd. destruct (decide (k ∈ dict_keys d)).
  - by rewrite dict_keys_set_in.
  - rewrite dict_set_notin by done. unfold dict_keys in *.
    rewrite fmap_app. simpl. apply NoDup_app. split_and!; [done| |apply NoDup_singleton].
    intros x ? ->%list_elem_of_singleton. done.
Qed.

(** Setting a key leaves the entries of the other keys as they are. *)
Lemma dict_set_Forall (P : string * V → Prop) d k v :
  Forall P d → P (k, v) → Forall P (dict_set k v d).
Proof.
  intros Hd Hk. induction Hd as [|[k1 v1] d ? ? IH]; simpl.
  - by constructor.
  - case_decide; subst; constructor; auto.
Qed.
End dict_facts.

(** [strip] *)
Lemma lstrip_nil c l : lstrip c l = [] ↔ Forall (λ x, x = c) l.
Proof.
  induction l as [|x l IH]; simpl; [done|].
  case_decide; subst.
  - rewrite IH. split; [by constructor | by inversion 1].
  - split; [done | by inversion 1].
Qed.

Lemma lstrip_Forall c l : Forall (λ x, x = c) (lstrip c l) → Forall (λ x, x = c) l.
Proof.
  induction l as [|x l IH]; simpl; [done|].
  case_decide; subst; [constructor; auto | done].
Qed.

Lemma strip_nil c l : strip c l = [] ↔ Forall (λ x, x = c) l.
Proof.
  unfold strip, rstrip. split.
  - intros H. apply (f_equal reverse) in H. rewrite reverse_involutive in H.
    apply lstrip_nil in H. apply lstrip_Forall.
    apply Forall_reverse in H. by rewrite reverse_involutive in H.
  - intros H. apply lstrip_nil in H. rewrite H. done.
Qed.

(** What [lstrip] takes away is a run of [c], and what it leaves does not
    start with [c]. *)
Lemma lstrip_spec c l :
  ∃ n, l = replicate n c ++ lstrip c l ∧ head (lstrip c l) ≠ Some c.
Proof.
  induction l as [|x l (n & IH1 & IH2)]; simpl.
  - by exists 0.
  - case_decide; subst.
    + exists (S n). simpl. by rewrite <-IH1.
    + exists 0. simpl. split; [done|]. by intros [=].
Qed.

Lemma string_of_list_ascii_nil l : string_of_list_ascii l = "" ↔ l = [].
Proof. destruct l; simpl; split; done. Qed.

(** * Facts about diagram.py *)

Module DiagramSpec.
Import Diagram.

Lemma falsy_spec s : falsy s = true ↔ s = "".
Proof. unfold falsy. apply bool_decide_eq_true. Qed.

Lemma falsy_false s : s ≠ "" → falsy s = false.
Proof. intros. by apply bool_decide_eq_false. Qed.

(** ** _ensure_class *)

(** With a non-empty name [_ensure_class] returns the node that the dict then
    holds under the name; no key is lost and the relations stay. *)
Lemma ensure_class_returns name stereotype d :
  name ≠ "" →
  ∃ node d', _ensure_class name stereotype d = (Val node, d')
    ∧ dict_get name (classes d') = Some node
    ∧ relations d' = relations d
    ∧ (∀ k, is_Some (dict_get k (classes d)) → is_Some (dict_get k (classes d')))
    ∧ (well_keyed d → well_keyed d').
Proof.
  intros Hne. unfold _ensure_class. rewrite falsy_false by done.
  unfold bind, gets, modify, ret, set_classes. simpl.
  destruct (dict_get name (classes d)) as [node|] eqn:Hget.
  - case_bool_decide as Hst.
    + eexists _, _. split; [done|]. simpl. split_and!; [apply dict_get_set_eq|done| |].
      * intros k. apply dict_set_is_Some.
      * intros [Hnd Hall]. split; simpl; [by apply dict_set_NoDup|].
        apply dict_set_Forall; [done|]. simpl.
        apply dict_get_Some in Hget. rewrite Forall_forall in Hall.
        by apply (Hall _ Hget).
    + eexists _, _. split; [done|]. split_and!; done.
  - eexists _, _. split; [done|]. simpl. split_and!; [apply dict_get_set_eq|done| |].
    + intros k. apply dict_set_is_Some.
    + intros [Hnd Hall]. split; simpl; [by apply dict_set_NoDup|].
      by apply dict_set_Forall.
Qed.

Lemma ensure_class_empty stereotype d :
  _ensure_class "" stereotype d = (Raise (ValueError "class name must not be empty"), d).
Proof. done. Qed.

(** ** add_member *)

Lemma add_member_returns c m vis hint d :
  c ≠ "" → m ≠ "" →
  ∃ node d', add_member c m vis hint d = (Val tt, d')
    ∧ dict_get c (classes d') = Some node
    ∧ mkMember m vis hint ∈ c_members node
    ∧ relations d' = relations d
    ∧ (∀ k, is_Some (dict_get k (classes d)) → is_Some (dict_get k (classes d')))
    ∧ (well_keyed d → well_keyed d').
Proof.
  intros Hc Hm. unfold add_member. rewrite falsy_false by done.
  destruct (ensure_class_returns c None d Hc) as (node & d1 & Hrun & Hget & Hrel & Hkeys & Hwk).
  rewrite (bind_val _ _ _ _ _ Hrun). unfold modify, set_classes. simpl.
  eexists _, _. split; [done|]. simpl.
  split_and!; [apply dict_get_set_eq| |done| |].
  - simpl. apply elem_of_app. right. left.
  - intros k Hk. by apply dict_set_is_Some, Hkeys.
  - intros Hd. destruct (Hwk Hd) as [Hnd Hall]. split; simpl; [by apply dict_set_NoDup|].
    apply dict_set_Forall; [done|]. simpl.
    apply dict_get_Some in Hget. rewrite Forall_forall in Hall.
    by apply (Hall _ Hget).
Qed.

(** ** relate *)

Lemma relate_returns a b kind label d :
  a ≠ "" → b ≠ "" →
  ∃ d', relate a b kind label d = (Val tt, d')
    ∧ is_Some (dict_get a (classes d'))
    ∧ is_Some (dict_get b (classes d'))
    ∧ relations d' = relations d ++ [mkRelation a b kind label]
    ∧ (∀ k, is_Some (dict_get k (classes d)) → is_Some (dict_get k (classes d')))
    ∧ (well_keyed d → well_keyed d').
Proof.
  intros Ha Hb. unfold relate. rewrite !falsy_false by done. simpl.
  destruct (ensure_class_returns a None d Ha) as (na & d1 & Hrun1 & Hget1 & Hrel1 & Hkeys1 & Hwk1).
  destruct (ensure_class_returns b None d1 Hb) as (nb & d2 & Hrun2 & Hget2 & Hrel2 & Hkeys2 & Hwk2).
  rewrite (bind_val _ _ _ _ _ Hrun1), (bind_val _ _ _ _ _ Hrun2).
  unfold modify, set_relations. simpl.
  eexists. split; [done|]. simpl. split_and!.
  - apply Hkeys2. by rewrite Hget1.
  - by rewrite Hget2.
  - by rewrite Hrel2, Hrel1.
  - auto.
  - auto.
Qed.

(** The three operations keep the ends of all relations among the classes. *)
Lemma ensure_class_keeps_keys name stereotype d r d' k :
  _ensure_class name stereotype d = (r, d') →
  is_Some (dict_get k (classes d)) → is_Some (dict_get k (classes d')).
Proof.
  destruct (decide (name = "")) as [->|Hne].
  - rewrite ensure_class_empty. by intros [= _ <-].
  - destruct (ensure_class_returns name stereotype d Hne) as (? & ? & -> & _ & _ & Hk & _).
    intros [= _ <-]. apply Hk.
Qed.

Lemma keys_keep_vivified d d' :
  relations d' = relations d →
  (∀ k, is_Some (dict_get k (classes d)) → is_Some (dict_get k (classes d'))) →
  vivified d → vivified d'.
Proof.
  intros Hrel Hkeys Hv r Hr. rewrite Hrel in Hr. destruct (Hv r Hr). split; auto.
Qed.

Lemma add_member_raises c m vis hint d :
  c = "" ∨ m = "" → ∃ e, add_member c m vis hint d = (Raise (ValueError e), d).
Proof.
  intros Hcm. unfold add_member. destruct (decide (m = "")) as [->|Hm].
  - simpl. eauto.
  - rewrite falsy_false by done. destruct Hcm as [->|]; [|done]. 
    rewrite (bind_raise _ _ _ _ _ (ensure_class_empty None d)). eauto.
Qed.

Lemma relate_raises a b kind label d :
  a = "" ∨ b = "" → ∃ e, relate a b kind label d = (Raise (ValueError e), d).
Proof.
  intros Hab. unfold relate.
  assert (falsy a || falsy b = true) as ->; [|simpl; eauto].
  apply orb_true_iff. rewrite !falsy_spec. done.
Qed.


(** ** _AliasMap *)

Lemma string_app_nil_r (s : string) : s +:+ "" = s.
Proof.
  induction s as [|a s IH]; [done|].
  unfold String.append. fold String.append. by rewrite IH.
Qed.

Lemma suffixed_inj base j k : suffixed base j = suffixed base k → j = k.
Proof.
  unfold suffixed. intros H. apply (inj (String.app base)) in H.
  apply (inj (String.app "_")) in H. by apply (inj pretty) in H.
Qed.

Lemma suffixed_neq base k : suffixed base k ≠ base.
Proof.
  unfold suffixed. intros H. rewrite <-(string_app_nil_r base) in H at 2.
  apply (inj (String.app base)) in H. done.
Qed.

(** The loop ends before its fuel does: each turn finds one more used
    identifier, and the candidates are all different. *)
Lemma alias_loop_enough fuel used base alias counter (tried : gset string) :
  tried ⊆ used → alias ∉ tried →
  (∀ k, counter ≤ k → (suffixed base k ∉ tried) ∧ suffixed base k ≠ alias) →
  size used < fuel + size tried + 1 →
  is_Some (alias_loop fuel used base alias counter).
Proof.
  revert alias counter tried.
  induction fuel as [|fuel IH]; intros alias counter tried Hsub Hnew Hfresh Hsize; simpl.
  - case_decide as Hin; [|eauto]. exfalso.
    assert (size ({[alias]} ∪ tried) ≤ size used) as Hle.
    { apply subseteq_size. set_solver. }
    rewrite size_union, size_singleton in Hle by set_solver. lia.
  - case_decide as Hin; [|eauto].
    apply (IH _ _ ({[alias]} ∪ tried)).
    + set_solver.
    + destruct (Hfresh counter) as [? ?]; [lia|]. set_solver.
    + intros k Hk. destruct (Hfresh k) as [? ?]; [lia|]. split; [set_solver|].
      intros ?%suffixed_inj. lia.
    + rewrite size_union, size_singleton by set_solver. lia.
Qed.

(** What the loop returns is free, and it is the first free candidate. *)
Lemma alias_loop_spec fuel used base alias counter a :
  alias_loop fuel used base alias counter = Some a →
  (a ∉ used)
  ∧ ((a = alias)
     ∨ (alias ∈ used
        ∧ ∃ k, counter ≤ k ∧ a = suffixed base k
               ∧ ∀ j, counter ≤ j < k → suffixed base j ∈ used)).
Proof.
  revert alias counter. induction fuel as [|fuel IH]; intros alias counter; simpl.
  - case_decide; [done|]. intros [= <-]. auto.
  - case_decide as Hin; [|intros [= <-]; auto].
    intros [Hfree Hcase]%IH. split; [done|]. right. split; [done|].
    destruct Hcase as [->|(Hin' & k & Hk & -> & Hbelow)].
    + exists counter. split_and!; [lia|done|intros; lia].
    + exists k. split_and!; [lia|done|].
      intros j Hj. destruct (decide (j = counter)) as [->|]; [done|]. apply Hbelow. lia.
Qed.

Lemma create_alias_returns name am base :
  _sanitize name = Val base →
  ∃ alias, _create_alias name am
             = (Val alias, mkAliasMap (_map am) ({[alias]} ∪ _used am))
    ∧ (alias ∉ _used am)
    ∧ ((alias = base)
       ∨ (base ∈ _used am
          ∧ ∃ k, 2 ≤ k ∧ alias = suffixed base k
                 ∧ ∀ j, 2 ≤ j < k → suffixed base j ∈ _used am)).
Proof.
  intros Hs. unfold _create_alias. rewrite Hs.
  destruct (alias_loop_enough (S (size (_used am))) (_used am) base base 2 ∅)
    as [alias Hloop].
  - set_solver.
  - set_solver.
  - intros k _. split; [set_solver | apply suffixed_neq].
  - rewrite size_empty. lia.
  - rewrite Hloop. exists alias. split; [done|]. by apply alias_loop_spec in Hloop.
Qed.

Lemma create_alias_raises name am e :
  _sanitize name = Raise e → _create_alias name am = (Raise e, am).
Proof. intros Hs. unfold _create_alias. by rewrite Hs. Qed.

Lemma sanitize_not_diverge name : _sanitize name ≠ Diverge.
Proof. unfold _sanitize. by case_match. Qed.

(** [_sanitize] raises when nothing but underscores is left, that is when
    the name has no letter and no digit. *)
Lemma sanitize_raises name :
  (∃ e, _sanitize name = Raise e)
  ↔ Forall (λ ch, alnum ch = false) (list_ascii_of_string name).
Proof.
  unfold _sanitize. 
  assert (falsy (string_of_list_ascii (strip underscore (sanitize_chars name))) = true
          ↔ Forall (λ ch, alnum ch = false) (list_ascii_of_string name)) as Hiff.
  { rewrite falsy_spec, string_of_list_ascii_nil, strip_nil.
    unfold sanitize_chars. rewrite Forall_fmap. apply Forall_iff. intros ch. simpl.
    unfold alnum. destruct (VALID_CHARS ch) eqn:Hv; simpl.
    - rewrite negb_false_iff, bool_decide_eq_true. done.
    - done. }
  destruct (falsy _) eqn:Hf.
  - split; [intros _; by apply Hiff | eauto].
  - split; [by intros [? [=]] | intros ?%Hiff; done].
Qed.

Lemma getitem_hit name am alias :
  _map am !! name = Some alias → getitem name am = (Val alias, am).
Proof. intros H. unfold getitem, bind, gets. simpl. by rewrite H. Qed.

Lemma getitem_miss name am base :
  _map am !! name = None → _sanitize name = Val base →
  ∃ alias, getitem name am
             = (Val alias, mkAliasMap (<[name := alias]> (_map am)) ({[alias]} ∪ _used am))
    ∧ (alias ∉ _used am)
    ∧ ((alias = base)
       ∨ (base ∈ _used am
          ∧ ∃ k, 2 ≤ k ∧ alias = suffixed base k
                 ∧ ∀ j, 2 ≤ j < k → suffixed base j ∈ _used am)).
Proof.
  intros Hm Hs. destruct (create_alias_returns name am base Hs) as (alias & Hrun & Hspec).
  exists alias. split; [|done].
  unfold getitem, bind, gets. simpl. rewrite Hm, Hrun. done.
Qed.

Lemma getitem_miss_raises name am e :
  _map am !! name = None → _sanitize name = Raise e →
  getitem name am = (Raise e, am).
Proof.
  intros Hm Hs. unfold getitem, bind, gets. simpl.
  by rewrite Hm, (create_alias_raises _ _ _ Hs).
Qed.

(** A request gives a value or raises, and never loses an entry. *)
Lemma getitem_cases name am :
  (∃ alias, getitem name am = (Val alias, am) ∧ _map am !! name = Some alias)
  ∨ (∃ alias, getitem name am
                = (Val alias, mkAliasMap (<[name := alias]> (_map am)) ({[alias]} ∪ _used am))
       ∧ _map am !! name = None ∧ alias ∉ _used am)
  ∨ (∃ e, getitem name am = (Raise e, am)).
Proof.
  destruct (_map am !! name) as [alias|] eqn:Hm.
  - left. exists alias. split; [by apply getitem_hit | done].
  - destruct (_sanitize name) as [base|e|] eqn:Hs.
    + right. left. destruct (getitem_miss name am base Hm Hs) as (alias & ? & ? & _). eauto.
    + right. right. exists e. by apply getitem_miss_raises.
    + by apply sanitize_not_diverge in Hs.
Qed.

Lemma getitem_keeps name am r am' other alias :
  getitem name am = (r, am') → _map am !! other = Some alias →
  _map am' !! other = Some alias.
Proof.
  intros Hrun Ho.
  destruct (getitem_cases name am) as [(a & Hr & _)|[(a & Hr & Hnone & _)|(e & Hr)]];
    rewrite Hr in Hrun; injection Hrun as <- <-; simpl; [done| |done].
  rewrite lookup_insert_ne; [done|]. intros ->. congruence.
Qed.

Lemma getitem_consistent name am r am' :
  getitem name am = (r, am') → alias_consistent am → alias_consistent am'.
Proof.
  intros Hrun Hc.
  destruct (getitem_cases name am) as [(a & Hr & _)|[(a & Hr & Hnone & Hfree)|(e & Hr)]];
    rewrite Hr in Hrun; injection Hrun as <- <-; [done| |done].
  intros alias. simpl. rewrite elem_of_union, elem_of_singleton, (Hc alias). split.
  - intros [->|(n & Hn)].
    + exists name. by rewrite lookup_insert_eq.
    + exists n. rewrite lookup_insert_ne; [done|]. intros ->. congruence.
  - intros (n & Hn). destruct (decide (name = n)) as [->|Hne].
    + rewrite lookup_insert_eq in Hn. left. congruence.
    + rewrite lookup_insert_ne in Hn by done. eauto.
Qed.

Lemma requests_keeps names : ∀ acc am r am' other alias,
  for_each names (λ acc name, alias ←' getitem name; ret (acc ++ [alias]))%py acc am
    = (r, am') →
  _map am !! other = Some alias → _map am' !! other = Some alias.
Proof.
  induction names as [|n names IH]; intros acc am r am' other alias; simpl.
  - by intros [= _ <-].
  - unfold bind at 1. unfold bind at 1.
    destruct (getitem n am) as [[a| |] am1] eqn:Hg; simpl.
    + intros Hrest Ho. eapply IH; [done|]. by eapply getitem_keeps.
    + intros [= _ <-] Ho. by eapply getitem_keeps.
    + intros [= _ <-] Ho. by eapply getitem_keeps.
Qed.

(** ** Sorting *)

Section lex_facts.
Context {A B : Type} (RA : relation A) (RB : relation B).
Context `{!EqDecision A, !PartialOrder RA, !Total RA, !PartialOrder RB, !Total RB}.

Global Instance lex_le_po : PartialOrder (lex_le RA RB).
Proof.
  split; [split|].
  - intros p. right. done.
  - intros p q r [[Hpq Hne]|[Heq Hpq]] [[Hqr Hne']|[Heq' Hqr]].
    + left. split; [by etrans|]. intros Hpr. rewrite Hpr in Hpq.
      apply Hne'. by apply (anti_symm RA).
    + left. rewrite <-Heq'. done.
    + left. rewrite Heq. done.
    + right. split; [congruence | by etrans].
  - intros [a b] [a' b'] [[Hpq Hne]|[Heq Hpq]] [[Hqp Hne']|[Heq' Hqp]];
      simpl in *; subst; try done.
    + exfalso. apply Hne. by apply (anti_symm RA).
    + f_equal. by apply (anti_symm RB).
Qed.

Global Instance lex_le_total : Total (lex_le RA RB).
Proof.
  intros [a b] [a' b']. unfold lex_le. simpl.
  destruct (decide (a = a')) as [->|Hne].
  - destruct (total RB b b'); [left|right]; right; done.
  - destruct (total RA a a'); [left|right]; left; split; done.
Qed.
End lex_facts.

Section sorted_facts.
Context {A K : Type} (le : relation K) `{!RelDecision le} (key : A → K).
Context `{!PartialOrder le, !Total le}.

Lemma sorted_insert_perm x l : sorted_insert le key x l ≡ₚ x :: l.
Proof.
  induction l as [|y l IH]; simpl; [done|].
  case_decide; [done|]. rewrite IH. apply Permutation_swap.
Qed.

Lemma sorted_perm l : sorted le key l ≡ₚ l.
Proof.
  induction l as [|x l IH]; simpl; [done|].
  by rewrite sorted_insert_perm, IH.
Qed.

Let by_key : relation A := λ a b, le (key a) (key b).

Lemma sorted_insert_Sorted x l : Sorted by_key l → Sorted by_key (sorted_insert le key x l).
Proof.
  induction 1 as [|y l Hl IH Hhd]; simpl.
  - by repeat constructor.
  - case_decide as Hxy.
    + constructor; [by constructor|]. by constructor.
    + constructor; [done|].
      assert (by_key y x) as Hyx by (destruct (total le (key y) (key x)); done).
      destruct Hhd as [|z l Hyz]; simpl.
      * by constructor.
      * case_decide; by constructor.
Qed.

Lemma sorted_Sorted l : Sorted by_key (sorted le key l).
Proof.
  induction l as [|x l IH]; simpl; [constructor|]. by apply sorted_insert_Sorted.
Qed.

(** The keys of the sorted list depend on the elements only, not on their
    order. *)
Lemma sorted_keys_perm l1 l2 :
  l1 ≡ₚ l2 → key <$> sorted le key l1 = key <$> sorted le key l2.
Proof.
  intros Hp. apply (Sorted_unique le).
  - eapply Sorted_fmap; [|apply sorted_Sorted]. done.
  - eapply Sorted_fmap; [|apply sorted_Sorted]. done.
  - by rewrite !sorted_perm, Hp.
Qed.

Lemma fmap_perm_inj (l l' : list A) :
  l ≡ₚ l' → key <$> l = key <$> l' → NoDup (key <$> l) → l = l'.
Proof.
  revert l'. induction l as [|x l IH]; intros [|y l'] Hp Hk Hnd; simplify_eq/=; [done|].
  apply NoDup_cons in Hnd as [Hx Hnd].
  assert (x = y) as ->.
  { assert (x ∈ y :: l') as [->|Hin]%elem_of_cons by (rewrite <-Hp; left); [done|].
    exfalso. apply Hx. rewrite H0. by apply list_elem_of_fmap_2. }
  f_equal. apply IH; [|done|done]. by apply (inj (y ::.)).
Qed.

(** When no two elements have the same key the sorted list itself is
    determined. *)
Lemma sorted_perm_unique l1 l2 :
  l1 ≡ₚ l2 → NoDup (key <$> l1) → sorted le key l1 = sorted le key l2.
Proof.
  intros Hp Hnd. apply fmap_perm_inj.
  - by rewrite !sorted_perm.
  - by apply sorted_keys_perm.
  - by rewrite sorted_perm.
Qed.
End sorted_facts.

(** ** render *)

Global Instance key_le_po : PartialOrder key_le.
Proof. unfold key_le. apply _. Qed.
Global Instance key_le_total : Total key_le.
Proof. unfold key_le. apply _. Qed.

Lemma RelationKind_value_inj k1 k2 :
  RelationKind_value k1 = RelationKind_value k2 → k1 = k2.
Proof. destruct k1, k2; simpl; intros [=]; done. Qed.

(** The line of a relation and the aliases it asks for are fixed by its sort
    key: a missing label and an empty one are drawn alike. *)
Lemma render_relation_key lines r1 r2 :
  relation_key r1 = relation_key r2 →
  render_relation lines r1 = render_relation lines r2.
Proof.
  unfold relation_key. intros [= Hsrc Hdst Hkind%RelationKind_value_inj Hlabel].
  unfold render_relation. rewrite Hsrc, Hdst, Hkind, Hlabel.
  assert (truthy (r_label r1) = truthy (r_label r2)) as ->; [|done].
  unfold truthy. destruct (r_label r1), (r_label r2); simpl in *; subst; done.
Qed.

Lemma render_relations_keys l1 : ∀ l2 lines am,
  relation_key <$> l1 = relation_key <$> l2 →
  for_each l1 render_relation lines am = for_each l2 render_relation lines am.
Proof.
  induction l1 as [|r1 l1 IH]; intros [|r2 l2] lines am Hk; try done.
  assert (relation_key r1 = relation_key r2
          ∧ relation_key <$> l1 = relation_key <$> l2) as [Hr Hl].
  { rewrite !fmap_cons in Hk. split; congruence. }
  simpl. rewrite (render_relation_key lines r1 r2) by done.
  unfold bind. destruct (render_relation lines r2 am) as [[lines'| |] am']; auto.
Qed.

(** In a well-keyed dict an entry is what a lookup finds. *)
Lemma dict_get_elem_of {V} (d : list (string * V)) k v :
  NoDup (dict_keys d) → (k, v) ∈ d ↔ dict_get k d = Some v.
Proof.
  intros Hnd. split; [|apply dict_get_Some].
  unfold dict_keys in Hnd. induction d as [|[k1 v1] d IH]; simpl.
  - by intros ?%elem_of_nil.
  - simpl in Hnd. apply NoDup_cons in Hnd as [Hk1 Hnd].
    intros [[= -> ->]|Hin]%elem_of_cons.
    + by rewrite decide_True.
    + rewrite decide_False; [auto|]. intros ->. apply Hk1.
      by apply (list_elem_of_fmap_2 fst) in Hin.
Qed.

Lemma same_lookups_perm {V} (d1 d2 : list (string * V)) :
  NoDup (dict_keys d1) → NoDup (dict_keys d2) →
  (∀ k, dict_get k d1 = dict_get k d2) → d1 ≡ₚ d2.
Proof.
  intros Hnd1 Hnd2 Hsame. apply NoDup_Permutation.
  - by eapply NoDup_fmap_1.
  - by eapply NoDup_fmap_1.
  - intros [k v]. by rewrite !dict_get_elem_of, Hsame.
Qed.

Lemma well_keyed_names d :
  well_keyed d → c_name <$> dict_values (classes d) = dict_keys (classes d).
Proof.
  intros [_ Hall]. unfold dict_values, dict_keys.
  induction Hall as [|[k c] l Hkc _ IH]; [done|].
  rewrite !fmap_cons. simpl in *. by f_equal.
Qed.

(** The renderer sees the classes of a well-keyed diagram in one order,
    whatever the order of insertion. *)
Lemma sorted_classes_same d1 d2 :
  well_keyed d1 → well_keyed d2 →
  (∀ k, dict_get k (classes d1) = dict_get k (classes d2)) →
  sorted String.le c_name (dict_values (classes d1))
  = sorted String.le c_name (dict_values (classes d2)).
Proof.
  intros Hw1 Hw2 Hsame. apply sorted_perm_unique; try apply _.
  - unfold dict_values. apply fmap_Permutation.
    apply same_lookups_perm; [apply Hw1|apply Hw2|done].
  - rewrite well_keyed_names by done. apply Hw1.
Qed.

Lemma render_same d1 d2 :
  well_keyed d1 → well_keyed d2 →
  (∀ k, dict_get k (classes d1) = dict_get k (classes d2)) →
  relations d1 ≡ₚ relations d2 →
  render d1 = render d2.
Proof.
  intros Hw1 Hw2 Hsame Hrel. unfold render, render_lines.
  rewrite (sorted_classes_same d1 d2) by done.
  unfold bind.
  destruct (for_each _ render_class [] empty_alias_map) as [[lines| |] am]; [|done|done].
  rewrite (render_relations_keys _ (sorted key_le relation_key (relations d2))); [done|].
  apply sorted_keys_perm; [apply _|apply _|done].
Qed.

(** The operations of the class diagram keep it well-keyed. *)
Lemma operations_keep_well_keyed d :
  well_keyed d →
  (∀ name st r d', add_class name st d = (r, d') → well_keyed d')
  ∧ (∀ c m vis hint r d', add_member c m vis hint d = (r, d') → well_keyed d')
  ∧ (∀ a b kind label r d', relate a b kind label d = (r, d') → well_keyed d').
Proof.
  intros Hw. split_and!.
  - intros name st r d'. unfold add_class. destruct (decide (name = "")) as [->|Hne].
    + rewrite ensure_class_empty. by intros [= _ <-].
    + destruct (ensure_class_returns name st d Hne) as (? & ? & -> & _ & _ & _ & Hwk).
      intros [= _ <-]. auto.
  - intros c m vis hint r d'.
    destruct (decide (c = "" ∨ m = "")) as [Hcm|Hcm].
    + destruct (add_member_raises c m vis hint d Hcm) as [e ->]. by intros [= _ <-].
    + assert (c ≠ "" ∧ m ≠ "") as [Hc Hm] by (split; intros ->; apply Hcm; auto).
      destruct (add_member_returns c m vis hint d Hc Hm) as (? & ? & -> & _ & _ & _ & _ & Hwk).
      intros [= _ <-]. auto.
  - intros a b kind label r d'.
    destruct (decide (a = "" ∨ b = "")) as [Hab|Hab].
    + destruct (relate_raises a b kind label d Hab) as [e ->]. by intros [= _ <-].
    + assert (a ≠ "" ∧ b ≠ "") as [Ha Hb] by (split; intros ->; apply Hab; auto).
      destruct (relate_returns a b kind label d Ha Hb) as (? & -> & _ & _ & _ & _ & Hwk).
      intros [= _ <-]. auto.
Qed.

Lemma strip_spec c l :
  ∃ n m, l = replicate n c ++ strip c l ++ replicate m c
    ∧ head (strip c l) ≠ Some c ∧ last (strip c l) ≠ Some c.
Proof.
  destruct (lstrip_spec c l) as (n & Hl & Hhd).
  destruct (lstrip_spec c (reverse (lstrip c l))) as (m & Hr & Hhd').
  unfold strip, rstrip. set (l1 := lstrip c l) in *.
  set (l2 := lstrip c (reverse l1)) in *.
  assert (l1 = reverse l2 ++ replicate m c) as Hl1.
  { rewrite <-(reverse_involutive l1), Hr, reverse_app, reverse_replicate. done. }
  exists n, m. split_and!.
  - by rewrite <-Hl1.
  - intros Hh. apply Hhd. rewrite Hl1, head_app. by rewrite Hh.
  - by rewrite last_reverse.
Qed.

(** ** The snapshots of tests/test_diagram.py *)

Example test_simple_class_diagram_snapshot :
  render test_simple
  = Val (join nl [ "class A as " +:+ dquote +:+ "A" +:+ dquote +:+ " {";
                   "  + id";
                   "}";
                   "class B as " +:+ dquote +:+ "B" +:+ dquote +:+ " {";
                   "}";
                   "A --> B : uses" ] +:+ nl).
Proof. by vm_compute. Qed.

Example test_stereotype_and_private_member :
  render test_stereotype
  = Val (join nl [ "class User as " +:+ dquote +:+ "User" +:+ dquote +:+ " <<Entity>> {";
                   "  - password";
                   "}" ] +:+ nl).
Proof. by vm_compute. Qed.

Example test_inheritance_relation :
  render test_inheritance
  = Val (join nl [ "class Base as " +:+ dquote +:+ "Base" +:+ dquote +:+ " {";
                   "}";
                   "class Derived as " +:+ dquote +:+ "Derived" +:+ dquote +:+ " {";
                   "}";
                   "Base <|-- Derived" ] +:+ nl).
Proof. by vm_compute. Qed.

(** ** The claims on diagram.py *)

(** C4. Alias allocation is memoized: once a display name has its identifier,
    every later request for it in the same map returns that identifier and
    changes nothing. The first request for a name replaces every character
    that is not a letter, digit or underscore by an underscore and trims the
    underscores at both ends; it returns the result when it is free, and
    otherwise the first free one of base_2, base_3, ... A used identifier
    belongs to another display name. Requests for "A B" and then "A.B" give
    A_B and A_B_2. *)
Theorem alias_allocation :
  (∀ am name alias am1 names r am2,
     getitem name am = (Val alias, am1) → requests names am1 = (r, am2) →
     getitem name am2 = (Val alias, am2))
  ∧ (∀ am name base,
       _map am !! name = None → _sanitize name = Val base →
       sanitize_chars name
         = (λ ch, if VALID_CHARS ch then ch else underscore) <$> list_ascii_of_string name
       ∧ (∃ n m, sanitize_chars name
                   = replicate n underscore ++ list_ascii_of_string base
                       ++ replicate m underscore
            ∧ head (list_ascii_of_string base) ≠ Some underscore
            ∧ last (list_ascii_of_string base) ≠ Some underscore)
       ∧ ∃ alias,
           getitem name am
             = (Val alias,
                mkAliasMap (<[name := alias]> (_map am)) ({[alias]} ∪ _used am))
           ∧ (alias ∉ _used am)
           ∧ ((alias = base)
              ∨ (base ∈ _used am
                 ∧ ∃ k, 2 ≤ k ∧ alias = suffixed base k
                        ∧ ∀ j, 2 ≤ j < k → suffixed base j ∈ _used am)))
  ∧ (∀ am name base,
       alias_consistent am → _map am !! name = None → base ∈ _used am →
       ∃ other, other ≠ name ∧ _map am !! other = Some base)
  ∧ (requests ["A B"; "A.B"] empty_alias_map).1 = Val ["A_B"; "A_B_2"].
Proof.
  split_and!.
  - intros am name alias am1 names r am2 Hget Hreq.
    apply getitem_hit. eapply requests_keeps; [exact Hreq|].
    destruct (getitem_cases name am) as [(a & Hr & Hm)|[(a & Hr & _)|(e & Hr)]];
      rewrite Hr in Hget; simplify_eq; [done|].
    simpl. apply lookup_insert_eq.
  - intros am name base Hm Hs. split; [done|]. split; [|by apply getitem_miss].
    unfold _sanitize in Hs. case_match; [done|]. injection Hs as <-.
    rewrite list_ascii_of_string_of_list_ascii. apply strip_spec.
  - intros am name base Hc Hm [other Ho]%Hc. exists other. split; [|done].
    intros ->. congruence.
  - by vm_compute.
Qed.



(** C7. After relate(a, b) with non-empty names both a and b are classes of
    the diagram, and after add_member(c, m) with non-empty names c is a class
    that holds the member; add_class, add_member and relate all keep both ends
    of every relation among the classes. *)
Theorem auto_vivification (d : ClassDiagram) (a b c m : string)
    (kind : RelationKind) (label : option string)
    (vis : Visibility) (hint : option string) :
  a ≠ "" → b ≠ "" → c ≠ "" → m ≠ "" →
  (∃ d', relate a b kind label d = (Val tt, d')
     ∧ is_Some (dict_get a (classes d')) ∧ is_Some (dict_get b (classes d'))
     ∧ (vivified d → vivified d'))
  ∧ (∃ node d', add_member c m vis hint d = (Val tt, d')
       ∧ dict_get c (classes d') = Some node
       ∧ mkMember m vis hint ∈ c_members node
       ∧ (vivified d → vivified d'))
  ∧ (∀ st, ∃ node d', add_class c st d = (Val node, d')
       ∧ dict_get c (classes d') = Some node
       ∧ (vivified d → vivified d')).
Proof.
  intros Ha Hb Hc Hm. split_and!.
  - destruct (relate_returns a b kind label d Ha Hb)
      as (d' & Hrun & Hsa & Hsb & Hrel & Hkeys & _).
    exists d'. split_and!; try done.
    intros Hv r Hr. rewrite Hrel in Hr. apply elem_of_app in Hr as [Hr|Hr].
    + destruct (Hv r Hr). split; auto.
    + apply list_elem_of_singleton in Hr as ->. done.
  - destruct (add_member_returns c m vis hint d Hc Hm)
      as (node & d' & Hrun & Hget & Hmem & Hrel & Hkeys & _).
    exists node, d'. split_and!; try done. by apply keys_keep_vivified.
  - intros st. unfold add_class.
    destruct (ensure_class_returns c st d Hc) as (node & d' & Hrun & Hget & Hrel & Hkeys & _).
    exists node, d'. split_and!; try done. by apply keys_keep_vivified.
Qed.

Lemma auto_vivification_witness :
  "A" ≠ "" ∧ "B" ≠ "" ∧ "C" ≠ "" ∧ "id" ≠ ""
  ∧ ∃ d', relate "A" "B" ASSOCIATION (Some "uses") test_stereotype = (Val tt, d')
      ∧ is_Some (dict_get "B" (classes d')).
Proof.
  split_and!; try done.
  destruct (auto_vivification test_stereotype "A" "B" "C" "id" ASSOCIATION
              (Some "uses") PUBLIC None) as [(d' & Hrun & _ & Hb & _) _]; try done.
  exists d'. done.
Defined.

(** C8, as amended. add_class raises exactly for an empty name, add_member
    exactly for an empty class or member name, relate exactly for an empty
    endpoint, and the creation of an alias exactly when the sanitized name is
    empty, which is when the display name has no letter and no digit; in all
    other cases they return. *)
Theorem validation_errors :
  (∀ d name st,
     (raises (add_class name st) d ↔ name = "")
     ∧ (name ≠ "" → returns (add_class name st) d))
  ∧ (∀ d c m vis hint,
       (raises (add_member c m vis hint) d ↔ c = "" ∨ m = "")
       ∧ (¬ (c = "" ∨ m = "") → returns (add_member c m vis hint) d))
  ∧ (∀ d a b kind label,
       (raises (relate a b kind label) d ↔ a = "" ∨ b = "")
       ∧ (¬ (a = "" ∨ b = "") → returns (relate a b kind label) d))
  ∧ (∀ am name,
       (raises (_create_alias name) am
        ↔ string_of_list_ascii (strip underscore (sanitize_chars name)) = "")
       ∧ (raises (_create_alias name) am
          ↔ Forall (λ ch, alnum ch = false) (list_ascii_of_string name))
       ∧ (¬ Forall (λ ch, alnum ch = false) (list_ascii_of_string name) →
          returns (_create_alias name) am)).
Proof.
  split_and!.
  - intros d name st. unfold raises, returns, add_class.
    destruct (decide (name = "")) as [->|Hne].
    + rewrite ensure_class_empty. simpl. split; [split; eauto|done].
    + destruct (ensure_class_returns name st d Hne) as (node & d' & -> & _).
      simpl. split; [split; [by intros [? [=]]|done]|eauto].
  - intros d c m vis hint. unfold raises, returns.
    destruct (decide (c = "" ∨ m = "")) as [Hcm|Hcm].
    + destruct (add_member_raises c m vis hint d Hcm) as [e ->]. simpl.
      split; [split; eauto|done].
    + assert (c ≠ "" ∧ m ≠ "") as [Hc Hm] by (split; intros ->; apply Hcm; auto).
      destruct (add_member_returns c m vis hint d Hc Hm) as (? & ? & -> & _). simpl.
      split; [split; [by intros [? [=]]|done]|eauto].
  - intros d a b kind label. unfold raises, returns.
    destruct (decide (a = "" ∨ b = "")) as [Hab|Hab].
    + destruct (relate_raises a b kind label d Hab) as [e ->]. simpl.
      split; [split; eauto|done].
    + assert (a ≠ "" ∧ b ≠ "") as [Ha Hb] by (split; intros ->; apply Hab; auto).
      destruct (relate_returns a b kind label d Ha Hb) as (? & -> & _). simpl.
      split; [split; [by intros [? [=]]|done]|eauto].
  - intros am name.
    assert (raises (_create_alias name) am ↔ ∃ e, _sanitize name = Raise e) as Hr.
    { unfold raises. destruct (_sanitize name) as [base|e|] eqn:Hs.
      - destruct (create_alias_returns name am base Hs) as (alias & -> & _). simpl.
        split; by intros [? [=]].
      - rewrite (create_alias_raises name am e Hs). simpl. split; eauto.
      - by apply sanitize_not_diverge in Hs. }
    split_and!.
    + rewrite Hr. unfold _sanitize. rewrite <-falsy_spec.
      destruct (falsy _); split; eauto; try done. by intros [? [=]].
    + by rewrite Hr, sanitize_raises.
    + intros Hn. unfold returns. destruct (_sanitize name) as [base|e|] eqn:Hs.
      * destruct (create_alias_returns name am base Hs) as (alias & -> & _). eauto.
      * exfalso. apply Hn, sanitize_raises. eauto.
      * by apply sanitize_not_diverge in Hs.
Qed.

(** C8, as stated, fails for the display name "_": it holds an underscore,
    and still no alias can be made for it. *)
Lemma underscore_name_raises :
  ¬ (raises (_create_alias "_") empty_alias_map
     ↔ Forall (λ ch, VALID_CHARS ch = false) (list_ascii_of_string "_")).
Proof.
  intros [Hlr _]. 
  assert (raises (_create_alias "_") empty_alias_map) as Hr by (eexists; by vm_compute).
  apply Hlr in Hr. apply Forall_cons in Hr as [Hv _]. by vm_compute in Hv.
Qed.

(** C10. A failed add_member or relate leaves the diagram as it was. *)
Theorem error_atomicity (d : ClassDiagram) :
  (∀ c m vis hint e d', add_member c m vis hint d = (Raise e, d') → d' = d)
  ∧ (∀ a b kind label e d', relate a b kind label d = (Raise e, d') → d' = d).
Proof.
  split.
  - intros c m vis hint e d' Hrun.
    destruct (decide (c = "" ∨ m = "")) as [Hcm|Hcm].
    + destruct (add_member_raises c m vis hint d Hcm) as [e' Hr]. congruence.
    + assert (c ≠ "" ∧ m ≠ "") as [Hc Hm] by (split; intros ->; apply Hcm; auto).
      destruct (add_member_returns c m vis hint d Hc Hm) as (? & ? & Hr & _). congruence.
  - intros a b kind label e d' Hrun.
    destruct (decide (a = "" ∨ b = "")) as [Hab|Hab].
    + destruct (relate_raises a b kind label d Hab) as [e' Hr]. congruence.
    + assert (a ≠ "" ∧ b ≠ "") as [Ha Hb] by (split; intros ->; apply Hab; auto).
      destruct (relate_returns a b kind label d Ha Hb) as (? & Hr & _). congruence.
Qed.

(** A failed add_member with a good member name, and a failed relate with a
    good source: neither has made a class. *)
Lemma error_atomicity_witness :
  (add_member "" "id" PUBLIC None test_simple).2 = test_simple
  ∧ (relate "A" "" ASSOCIATION None test_inheritance).2 = test_inheritance.
Proof.
  destruct (error_atomicity test_simple) as [Hm _].
  destruct (error_atomicity test_inheritance) as [_ Hr].
  split.
  - apply (Hm "" "id" PUBLIC None (ValueError "class name must not be empty")).
    by vm_compute.
  - apply (Hr "A" "" ASSOCIATION None
             (ValueError "relation endpoints must not be empty")).
    by vm_compute.
Defined.

End DiagramSpec.

(** * Facts about the drawing functions *)

Module DrawSpec.
Import Draw.

(** ** Rules for [triple] *)

Section triple_rules.
Context (I : world → Prop) (R D : Prop).

Lemma triple_ret {A} (P : A → Prop) a : P a → triple I (ret a) (post P R D).
Proof. intros HP w Hw. done. Qed.

Lemma triple_raise {A} (P : A → Prop) e : R → triple I (raise e) (post P R D).
Proof. intros HR w Hw. done. Qed.

Lemma triple_diverge {A} (P : A → Prop) : D → triple I diverge (post P R D).
Proof. intros HD w Hw. done. Qed.

Lemma triple_bind {A B} (m : M world A) (k : A → M world B)
    (P1 : A → Prop) (P2 : B → Prop) :
  triple I m (post P1 R D) →
  (∀ a, P1 a → triple I (k a) (post P2 R D)) →
  triple I (bind m k) (post P2 R D).
Proof.
  intros Hm Hk w Hw. unfold bind. destruct (Hm w Hw) as [HQ HI].
  destruct (m w) as [[a|e|] w1]; simpl in *; [|done|done].
  by apply Hk.
Qed.

Lemma triple_weaken {A} (m : M world A) (P1 P2 : A → Prop) :
  triple I m (post P1 R D) → (∀ a, P1 a → P2 a) → triple I m (post P2 R D).
Proof.
  intros Hm HP w Hw. destruct (Hm w Hw) as [HQ HI]. split; [|done].
  destruct (m w).1; simpl in *; auto.
Qed.

Lemma triple_gets {A} (f : world → A) (P : A → Prop) :
  (∀ w, I w → P (f w)) → triple I (gets f) (post P R D).
Proof. intros Hf w Hw. split; [by apply Hf|done]. Qed.

Lemma triple_for_each {A B} (P : B → Prop) (l : list A)
    (body : B → A → M world B) :
  (∀ acc x, x ∈ l → P acc → triple I (body acc x) (post P R D)) →
  ∀ acc, P acc → triple I (for_each l body acc) (post P R D).
Proof.
  induction l as [|x l IH]; intros Hbody acc Hacc; simpl.
  - by apply triple_ret.
  - eapply triple_bind.
    + apply Hbody; [left|done].
    + intros acc' Hacc'. apply IH; [|done].
      intros acc'' y Hy. apply Hbody. by right.
Qed.
End triple_rules.

(** ** The graph is read and not written *)

Section frame.
Context (G : gset loc) (h0 : gmap loc (list string)).

Local Abbreviation inv := (inv G h0).

Lemma inv_info R D e : triple inv (info e) (post (λ _, True) R D).
Proof. intros w Hw. done. Qed.

Lemma inv_heap R D : triple inv (gets heap) (post (unchanged_on G h0) R D).
Proof. apply triple_gets. by intros w [_ ?]. Qed.

Lemma inv_read R D l : triple inv (read l) (post (λ _, True) R D).
Proof. by apply triple_gets. Qed.

Lemma inv_registry_get R D r k : triple inv (registry_get r k) (post (λ _, True) R D).
Proof. by apply triple_gets. Qed.

Lemma inv_alloc R D v : triple inv (alloc v) (post (λ l, l ∉ G) R D).
Proof.
  intros w [(Hdom & Himpl & Hused) Hsame]. unfold alloc. simpl.
  pose proof (is_fresh (dom (heap w))) as Hfresh.
  assert (fresh (dom (heap w)) ∉ G) as HnG by set_solver.
  split; [done|]. split; [split_and!|]; simpl; try done.
  - rewrite dom_insert. set_solver.
  - intros l Hl. rewrite lookup_insert_ne; [auto|]. intros <-. done.
Qed.

Lemma inv_append R D l x : l ∉ G → triple inv (append l x) (post (λ _, True) R D).
Proof.
  intros HnG w [(Hdom & Himpl & Hused) Hsame]. unfold append, modify. simpl.
  split; [done|]. split; [split_and!|]; simpl; try done.
  - rewrite dom_insert. set_solver.
  - intros l' Hl'. rewrite lookup_insert_ne; [auto|]. intros <-. done.
Qed.

Lemma inv_set_registry r k l w :
  l ∉ G → inv w → inv (set_registry r (dict_set k l) w).
Proof.
  intros HnG [(Hdom & Himpl & Hused) Hsame].
  destruct r; (split; [split_and!|]); simpl; try done;
    by apply dict_set_Forall.
Qed.

Lemma inv_registry_set R D r k v : triple inv (registry_set r k v) (post (λ _, True) R D).
Proof.
  unfold registry_set. eapply triple_bind; [apply inv_alloc|].
  intros l Hl w Hw. split; [done|]. by apply inv_set_registry.
Qed.

(** A list object that a registry holds is none of [G]. *)
Lemma inv_registry_entry r k l w :
  inv w → dict_get k (registry_of r w) = Some l → l ∉ G.
Proof.
  intros [(Hdom & Himpl & Hused) _] Hget%dict_get_Some.
  destruct r; simpl in *.
  - rewrite Forall_forall in Himpl. apply (Himpl _ Hget).
  - rewrite Forall_forall in Hused. apply (Hused _ Hget).
Qed.

Lemma inv_new_registries R D : triple inv new_registries (post (λ _, True) R D).
Proof.
  intros w [(Hdom & Himpl & Hused) Hsame]. split; [done|].
  split; [split_and!|]; simpl; try done.
Qed.

Lemma registry_of_set r f w :
  registry_of r (set_registry r f w) = f (registry_of r w).
Proof. by destruct r. Qed.

Lemma registry_set_eq r k v w :
  registry_set r k v w
  = (Val tt, set_registry r (dict_set k (fresh (dom (heap w))))
               (set_heap (insert (fresh (dom (heap w))) v) w)).
Proof. done. Qed.

Lemma registry_item_eq r k w l :
  dict_get k (registry_of r w) = Some l → registry_item r k w = (Val l, w).
Proof. intros H. unfold registry_item, bind, gets. simpl. by rewrite H. Qed.

(** After [proc_dict.get(iface, [])] was found empty and the entry was set,
    or was found non-empty, [proc_dict[iface]] is there. *)
Lemma ensure_entry_eq r iface v w :
  ∃ l w',
    (cur ←' registry_get r iface;
     (if bool_decide (cur = []) then registry_set r iface v else ret tt) ;;'
     registry_item r iface)%py w = (Val l, w')
    ∧ ((w' = w ∧ dict_get iface (registry_of r w) = Some l)
       ∨ (w' = set_registry r (dict_set iface l) (set_heap (insert l v) w)
          ∧ l = fresh (dom (heap w)))).
Proof.
  unfold bind at 1. unfold registry_get at 1, gets at 1.
  set (cur := match dict_get iface (registry_of r w) with
              | Some l => deref (heap w) l | None => [] end).
  assert (∀ w1 : world, w1 = set_registry r (dict_set iface (fresh (dom (heap w))))
                  (set_heap (insert (fresh (dom (heap w))) v) w) →
          registry_item r iface w1 = (Val (fresh (dom (heap w))), w1)) as Hnew.
  { intros w1 ->. apply registry_item_eq. rewrite registry_of_set.
    apply dict_get_set_eq. }
  case_bool_decide as Hcur.
  - eexists _, _. split.
    + erewrite bind_val; [|apply registry_set_eq]. by apply Hnew.
    + right. done.
  - destruct (dict_get iface (registry_of r w)) as [l0|] eqn:Hget; [|done].
    exists l0, w. split; [|by left].
    erewrite bind_val; [|done]. by apply registry_item_eq.
Qed.

Lemma inv_ensure_entry R D r iface v :
  triple inv
    (cur ←' registry_get r iface;
     (if bool_decide (cur = []) then registry_set r iface v else ret tt) ;;'
     registry_item r iface)%py
    (post (λ l, l ∉ G) R D).
Proof.
  intros w Hw. destruct (ensure_entry_eq r iface v w) as (l & w' & -> & Hcase).
  simpl. destruct Hcase as [[-> Hget]|[-> ->]].
  - split; [|done]. by eapply inv_registry_entry.
  - destruct (inv_alloc False False v w Hw) as [HnG Hw1]. simpl in *.
    split; [done|]. by apply inv_set_registry.
Qed.

Lemma bind_assoc {S A B C} (m : M S A) (k : A → M S B) (k2 : B → M S C) s :
  bind (bind m k) k2 s = bind m (λ a, bind (k a) k2) s.
Proof. unfold bind. by destruct (m s) as [[a|e|] s']. Qed.

Lemma triple_ext {A} (I : world → Prop) (m m' : M world A) Q :
  (∀ w, m w = m' w) → triple I m Q → triple I m' Q.
Proof. intros Heq Hm w Hw. rewrite <-Heq. by apply Hm. Qed.

(** The body of [_process_interfaces] for an interface that is there. *)
Lemma inv_credit_implementer R D r need iface iface_id (linkage_text : text) :
  triple inv
    (cur ←' registry_get r iface;
     (if bool_decide (cur = []) then registry_set r iface [] else ret tt) ;;'
     l ←' registry_item r iface;
     credited ←' read l;
     if bool_decide (id need ∈ credited) then ret linkage_text
     else
       append l (id need) ;;'
       ret (linkage_text ++ [Link (id need) "-u->" iface_id "implements"]))%py
    (post (λ _, True) R D).
Proof.
  eapply (triple_ext _ (bind (cur ←' registry_get r iface;
     (if bool_decide (cur = []) then registry_set r iface [] else ret tt) ;;'
     registry_item r iface)%py _)).
  { intros w. unfold bind.
    destruct (registry_get r iface w) as [[cur|e|] w1]; [|done|done].
    case_bool_decide; [|done].
    by destruct (registry_set r iface [] w1) as [[[]|e|] w2]. }
  eapply triple_bind; [apply inv_ensure_entry|].
  intros l Hl. eapply triple_bind; [apply inv_read|].
  intros credited _. case_bool_decide; [by apply triple_ret|].
  eapply triple_bind; [by apply inv_append|]. intros _ _. by apply triple_ret.
Qed.

Lemma inv_credit_user R D r need iface (linkage_text : text) :
  triple inv
    (cur ←' registry_get r iface;
     (if bool_decide (cur = []) then registry_set r iface [id need]
      else l ←' registry_item r iface; append l (id need)) ;;'
     ret linkage_text)%py
    (post (λ _, True) R D).
Proof.
  intros w Hw.
  set (cur := match dict_get iface (registry_of r w) with
              | Some l => deref (heap w) l | None => [] end).
  pose proof (eq_refl :
    (cur ←' registry_get r iface;
     (if bool_decide (cur = []) then registry_set r iface [id need]
      else l ←' registry_item r iface; append l (id need)) ;;'
     ret linkage_text)%py w
    = ((if bool_decide (cur = []) then registry_set r iface [id need]
        else l ←' registry_item r iface; append l (id need)) ;;'
       ret linkage_text)%py w) as ->.
  case_bool_decide as Hcur.
  - apply (triple_bind inv R D _ _ (λ _, True) (λ _, True)); [|by intros; apply triple_ret|done].
    apply inv_registry_set.
  - subst cur. destruct (dict_get iface (registry_of r w)) as [l0|] eqn:Hget; [|done].
    pose proof (inv_registry_entry _ _ _ _ Hw Hget) as HnG.
    rewrite bind_assoc. erewrite bind_val; [|by apply registry_item_eq].
    apply (triple_bind inv R D _ _ (λ _, True) (λ _, True)); [|by intros; apply triple_ret|done].
    by apply inv_append.
Qed.

Lemma inv_process_interfaces R D iface_list relation need all_needs r linkage_text :
  triple inv
    (_process_interfaces iface_list relation need all_needs r linkage_text)
    (post (λ _, True) R D).
Proof.
  unfold _process_interfaces.
  apply triple_for_each; [|done]. intros acc iface _ _.
  destruct (all_needs !! iface) as [iface_need|].
  - case_bool_decide as Hrel.
    + apply inv_credit_implementer.
    + apply inv_credit_user.
  - eapply triple_bind; [apply inv_info|]. intros _ _. by apply triple_ret.
Qed.

Lemma need_locs_elem n l :
  l ∈ need_locs n
  ↔ includes n = Some l ∨ consists_of n = Some l
    ∨ implements n = Some l ∨ uses n = Some l.
Proof.
  unfold need_locs. rewrite elem_of_list_to_set, list_elem_of_omap. split.
  - intros (f & Hf & Hl). simpl in Hl. subst f.
    repeat (apply elem_of_cons in Hf as [Hf|Hf]; [auto|]). by apply elem_of_nil in Hf.
  - intros Hcase. exists (Some l). split; [|done].
    destruct Hcase as [<-|[<-|[<-|<-]]]; set_solver.
Qed.

(** A list of the graph reads as it did at the start. *)
Lemma field_unchanged h f :
  unchanged_on G h0 h → (∀ l, f = Some l → l ∈ G) → field h f = field h0 f.
Proof.
  intros Hsame Hf. destruct f as [l|]; [|done]. simpl. unfold deref.
  by rewrite (Hsame l) by auto.
Qed.

Context (get_interface_from_component :
           gmap loc (list string) → Need → string → gmap string Need → list string).
Context (all_needs : gmap string Need) (root : Need) (rank : Need → nat).

Local Abbreviation known := (known all_needs root).
Local Abbreviation ranked := (ranked G h0 all_needs root rank).
Local Abbreviation depth := (depth rank).

(** [draw_comp_incl_impl_int] keeps the invariant and never raises; with
    enough fuel for the rank it is not cut off. *)
Lemma inv_draw_comp R D fuel : ∀ need white_box_view,
  D ∨ (ranked ∧ known need ∧ depth need white_box_view ≤ fuel) →
  triple inv
    (draw_comp_incl_impl_int get_interface_from_component fuel need all_needs
       white_box_view)
    (post (λ _, True) R D).
Proof.
  induction fuel as [|fuel IH]; intros need wb Hfuel; simpl.
  - apply triple_diverge. destruct Hfuel as [HD|(_ & _ & Hd)]; [done|].
    exfalso. unfold depth in Hd. destruct wb; lia.
  - eapply triple_bind with (P1 := λ _, True).
    + destruct wb; [|by apply triple_ret].
      eapply triple_bind; [apply inv_heap|]. intros h Hh.
      apply triple_for_each; [|done].
      intros [structure_text linkage_text] need_inc Hin _.
      destruct (all_needs !! need_inc) as [curr_need|] eqn:Hcurr.
      * case_bool_decide as Htype; [|by apply triple_ret].
        eapply triple_bind; [apply inv_heap|]. intros h' Hh'.
        eapply triple_bind with (P1 := λ _, True).
        -- apply IH. destruct Hfuel as [HD|((Hcov & Hrank) & Hknown & Hd)]; [by left|].
           right. split; [done|]. split; [right; eauto|].
           unfold depth in *. case_bool_decide as Hcont; simpl; [lia|].
           assert (rank curr_need < rank need); [|lia].
           assert (known curr_need) as Hkc by (right; eauto).
           apply (Hrank need need_inc curr_need); [done| |done|].
           ++ rewrite <-!(field_unchanged h) by
                (try done; intros l Hl; apply (Hcov need Hknown), need_locs_elem; auto).
              done.
           ++ split; [done|].
              rewrite <-(field_unchanged h') by
                (try done; intros l Hl; apply (Hcov curr_need Hkc), need_locs_elem; auto).
              done.
        -- intros [sub_structure sub_linkage] _. by apply triple_ret.
      * eapply triple_bind; [apply inv_info|]. intros _ _. by apply triple_ret.
    + intros [structure_text linkage_text] _.
      eapply triple_bind; [apply inv_heap|]. intros h Hh.
      eapply triple_bind; [apply inv_process_interfaces|]. intros lt1 _.
      eapply triple_bind; [apply inv_process_interfaces|]. intros lt2 _.
      by apply triple_ret.
Qed.

(** *** The frame of the other drawing functions

    Here nothing is said on how a run ends, only that it keeps the
    invariant. *)

Local Abbreviation frames m := (triple inv m (post (λ _, True) True True)).

Lemma frames_heap : frames (gets heap).
Proof. by apply triple_gets. Qed.

Lemma frames_gets {A} (f : world → A) : frames (gets f).
Proof. by apply triple_gets. Qed.

Lemma frames_item key : frames (item all_needs key).
Proof. unfold item. destruct (all_needs !! key); by intros w Hw. Qed.

Ltac frames_go :=
  cbv beta zeta;
  lazymatch goal with
  | |- triple _ (ret _) _ => by apply triple_ret
  | |- triple _ (raise _) _ => by apply triple_raise
  | |- triple _ diverge _ => by apply triple_diverge
  | |- triple _ (bind _ _) _ =>
      eapply (triple_bind _ _ _ _ _ (λ _, True)); [frames_go | intros; frames_go]
  | |- triple _ (info _) _ => apply inv_info
  | |- triple _ (gets _) _ => apply frames_gets
  | |- triple _ (read _) _ => apply inv_read
  | |- triple _ (append _ _) _ => apply inv_append; assumption
  | |- triple _ (registry_get _ _) _ => apply inv_registry_get
  | |- triple _ (registry_set _ _ _) _ => apply inv_registry_set
  | |- triple _ new_registries _ => apply inv_new_registries
  | |- triple _ (item _ _) _ => apply frames_item
  | |- triple _ (_process_interfaces _ _ _ _ _ _) _ => apply inv_process_interfaces
  | |- triple _ (for_each _ _ _) _ =>
      apply triple_for_each; [intros; frames_go | done]
  | |- triple _ (match ?x with _ => _ end) _ => destruct x eqn:?; frames_go
  | |- triple _ (if ?b then _ else _) _ => destruct b eqn:?; frames_go
  | |- triple _ (match ?x with _ => _ end _) _ => destruct x eqn:?; frames_go
  | _ => idtac
  end.

Lemma frames_draw_comp fuel need white_box_view :
  frames (draw_comp_incl_impl_int get_interface_from_component fuel need
            all_needs white_box_view).
Proof. apply inv_draw_comp. by left. Qed.

Lemma frames_draw_impl_interface fuel : ∀ need local_impl_interfaces,
  frames (draw_impl_interface get_interface_from_component fuel need all_needs
            local_impl_interfaces).
Proof.
  induction fuel as [|fuel IH]; intros need local_impl_interfaces; simpl.
  - by apply triple_diverge.
  - frames_go. apply IH.
Qed.

Lemma frames_process_impl_interfaces fuel need structure_text :
  frames (_process_impl_interfaces get_interface_from_component fuel need
            all_needs structure_text).
Proof.
  unfold _process_impl_interfaces. frames_go. apply frames_draw_impl_interface.
Qed.

Context (get_impl_comp_from_logic_iface :
           gmap loc (list string) → string → gmap string Need → list string).

Lemma frames_process_used_interfaces need local_impl_interfaces
    structure_text linkage_text :
  frames (_process_used_interfaces get_impl_comp_from_logic_iface need all_needs
            local_impl_interfaces structure_text linkage_text).
Proof. unfold _process_used_interfaces. frames_go. Qed.

Lemma frames_draw_module fuel need :
  frames (draw_module get_interface_from_component get_impl_comp_from_logic_iface
            fuel need all_needs).
Proof.
  unfold draw_module. frames_go.
  - apply frames_draw_impl_interface.
  - apply frames_process_impl_interfaces.
  - apply frames_draw_comp.
  - apply frames_process_used_interfaces.
Qed.

Context (get_module get_interface_from_int :
           gmap loc (list string) → string → gmap string Need → string).

Lemma frames_collect fuel need interfacelist impl_comp proc_modules
    structure_text link_text :
  proc_modules ∉ G →
  frames (_collect_interfaces_and_modules get_interface_from_component
            get_impl_comp_from_logic_iface get_module fuel need all_needs
            interfacelist impl_comp proc_modules structure_text link_text).
Proof.
  intros Hpm. unfold _collect_interfaces_and_modules. frames_go.
  apply frames_draw_module.
Qed.

Lemma frames_build_links need original_feature_interfaces all_interfaces
    impl_comp link_text :
  frames (_build_links need all_needs original_feature_interfaces all_interfaces
            impl_comp link_text).
Proof. unfold _build_links. frames_go. Qed.

(** What a request does after it has taken registries of its own. *)
Lemma frames_feature_body fuel need :
  frames (proc_modules ←' alloc [];
          h ←' gets heap;
          let interfacelist :=
            feature_interfaces get_interface_from_int h need all_needs in
          let* (structure_text, link_text, impl_comp) :=
            _collect_interfaces_and_modules get_interface_from_component
              get_impl_comp_from_logic_iface get_module fuel need all_needs
              interfacelist [] proc_modules [Actor] [] in
          link_text ←' _build_links need all_needs interfacelist
                         (dict_keys impl_comp) impl_comp link_text;
          ret ([Header] ++ structure_text ++ dedup_lines link_text))%py.
Proof.
  eapply triple_bind; [apply inv_alloc|]. intros proc_modules Hpm.
  frames_go.
  - by apply frames_collect.
  - apply frames_build_links.
Qed.

Lemma frames_module_body fuel need :
  frames (let* (structure_text, linkage_text) :=
            draw_module get_interface_from_component
              get_impl_comp_from_logic_iface fuel need all_needs in
          ret ([Header] ++ structure_text ++ linkage_text))%py.
Proof. frames_go. apply frames_draw_module. Qed.

Lemma frames_component_body fuel need :
  frames (let* (structure_text, linkage_text) :=
            draw_comp_incl_impl_int get_interface_from_component fuel need
              all_needs true in
          local_impl_interfaces ←'
            draw_impl_interface get_interface_from_component fuel need all_needs ∅;
          structure_text ←'
            for_each (elements local_impl_interfaces) (λ structure_text iface,
              match all_needs !! iface with
              | None =>
                  info (NotFound (id need) "implements" iface) ;;' ret structure_text
              | Some _ => ret (structure_text ++ [Interface iface])
              end) structure_text;
          ret ([Header] ++ structure_text ++ linkage_text))%py.
Proof.
  frames_go.
  - apply frames_draw_comp.
  - apply frames_draw_impl_interface.
Qed.
End frame.

(** A request takes registries of its own, so the list objects that exist
    when it starts are all apart from them. *)
Lemma new_registries_inv w :
  inv (dom (heap w)) (heap w) (new_registries w).2.
Proof. split; [split_and!|]; simpl; done. Qed.

Lemma request_unchanged {A} (body : M world A) w :
  triple (inv (dom (heap w)) (heap w)) body (post (λ _, True) True True) →
  unchanged_on (dom (heap w)) (heap w) (heap ((new_registries ;;' body)%py w).2).
Proof.
  intros Hbody. unfold bind. simpl.
  destruct (Hbody _ (new_registries_inv w)) as [_ [_ Hsame]].
  destruct (body _) as [[a|e|] w']; done.
Qed.

(** ** The claims on the drawing functions *)

Lemma inv_start G w : separate G w → inv G (heap w) w.
Proof. intros Hsep. split; [done|]. by intros l _. Qed.

(** C9. No drawing operation changes the need graph. The dict all_needs and
    its need records are values the functions read; the lists the needs hold
    are list objects of the heap. A request (draw_full_feature,
    draw_full_module, draw_full_component, draw_full_interface) leaves every
    list object that exists when it starts as it is. The helpers they call
    (draw_module, draw_comp_incl_impl_int, _collect_interfaces_and_modules,
    _build_links) leave every set [G] of list objects as it is, and apart from
    the registries, when the registries and proc_modules they are given hold
    no list of [G]: what they write are the registries, the lists the
    registries hold, proc_modules and the log. *)
Theorem graph_unchanged
    (get_interface_from_component :
       gmap loc (list string) → Need → string → gmap string Need → list string)
    (get_impl_comp_from_logic_iface :
       gmap loc (list string) → string → gmap string Need → list string)
    (get_module get_interface_from_int :
       gmap loc (list string) → string → gmap string Need → string)
    (fuel : nat) (need : Need) (all_needs : gmap string Need) (w : world)
    (G : gset loc) (white_box_view : bool) (interfacelist all_interfaces : list string)
    (impl_comp : list (string * list string)) (proc_modules : loc)
    (structure_text link_text : text) :
  separate G w → proc_modules ∉ G →
  unchanged_on (dom (heap w)) (heap w)
    (heap (draw_full_feature get_interface_from_component
             get_impl_comp_from_logic_iface get_module get_interface_from_int
             fuel need all_needs w).2)
  ∧ unchanged_on (dom (heap w)) (heap w)
      (heap (draw_full_module get_interface_from_component
               get_impl_comp_from_logic_iface fuel need all_needs w).2)
  ∧ unchanged_on (dom (heap w)) (heap w)
      (heap (draw_full_component get_interface_from_component
               fuel need all_needs w).2)
  ∧ unchanged_on (dom (heap w)) (heap w)
      (heap (draw_full_interface need all_needs w).2)
  ∧ inv G (heap w)
      (draw_module get_interface_from_component get_impl_comp_from_logic_iface
         fuel need all_needs w).2
  ∧ inv G (heap w)
      (draw_comp_incl_impl_int get_interface_from_component fuel need all_needs
         white_box_view w).2
  ∧ inv G (heap w)
      (_collect_interfaces_and_modules get_interface_from_component
         get_impl_comp_from_logic_iface get_module fuel need all_needs
         interfacelist impl_comp proc_modules structure_text link_text w).2
  ∧ inv G (heap w)
      (_build_links need all_needs interfacelist all_interfaces impl_comp
         link_text w).2.
Proof.
  intros Hsep Hpm. pose proof (inv_start G w Hsep) as Hinv. split_and!.
  - apply request_unchanged. apply frames_feature_body with (root := need) (rank := λ _, 0).
  - apply request_unchanged. apply frames_module_body with (root := need) (rank := λ _, 0).
  - apply request_unchanged. apply frames_component_body with (root := need) (rank := λ _, 0).
  - by intros l _.
  - by apply (frames_draw_module G (heap w) get_interface_from_component
                all_needs need (λ _, 0)).
  - by apply (frames_draw_comp G (heap w) get_interface_from_component
                all_needs need (λ _, 0)).
  - by apply (frames_collect G (heap w) get_interface_from_component
                all_needs need (λ _, 0)).
  - by apply (frames_build_links G (heap w) all_needs).
Qed.

(** The feature scenario, with the lists of its graph as [G]. *)
Lemma graph_unchanged_witness :
  separate (graph_locs (graph scenario).2) (empty_world (graph scenario).1)
  ∧ (100 ∉ graph_locs (graph scenario).2)
  ∧ unchanged_on (dom (graph scenario).1) (graph scenario).1
      (heap (run scenario (λ gifc gic gm gi all_needs,
               draw_full_feature gifc gic gm gi 10 (need_of scenario "F") all_needs)).2).
Proof.
  assert (separate (graph_locs (graph scenario).2) (empty_world (graph scenario).1))
    as Hsep.
  { split_and!; [|done|done]. by apply (bool_decide_unpack _). }
  assert (100 ∉ graph_locs (graph scenario).2) as Hpm.
  { by apply (bool_decide_unpack _). }
  split_and!; [done|done|].
  apply (graph_unchanged spec_get_interface_from_component
           spec_get_impl_comp_from_logic_iface spec_get_module
           spec_get_interface_from_int 10 (need_of scenario "F") (graph scenario).2
           (empty_world (graph scenario).1) (graph_locs (graph scenario).2)
           true [] [] [] 100 [] [] Hsep Hpm).
Defined.

(** C1, as amended. draw_comp_incl_impl_int returns when the containment among
    containers has no cycle: with a rank that falls from every need to each
    container among its sub-components, a recursion depth of the rank of the
    root plus two is enough. *)
Theorem nesting_returns_when_ranked
    (get_interface_from_component :
       gmap loc (list string) → Need → string → gmap string Need → list string)
    (rank : Need → nat) (fuel : nat) (need : Need) (all_needs : gmap string Need)
    (white_box_view : bool) (G : gset loc) (w : world) :
  separate G w →
  ranked G (heap w) all_needs need rank →
  depth rank need white_box_view ≤ fuel →
  ∃ texts w',
    draw_comp_incl_impl_int get_interface_from_component fuel need all_needs
      white_box_view w = (Val texts, w').
Proof.
  intros Hsep Hranked Hfuel.
  destruct (inv_draw_comp G (heap w) get_interface_from_component all_needs need rank
              False False fuel need white_box_view) with (w := w) as [Hpost _].
  - right. split_and!; [done|by left|done].
  - by apply inv_start.
  - destruct (draw_comp_incl_impl_int _ _ _ _ _ w) as [[texts|e|] w']; [eauto|done|done].
Qed.

Lemma need_locs_graph all_needs k n :
  all_needs !! k = Some n → need_locs n ⊆ graph_locs all_needs.
Proof.
  intros Hk l Hl. unfold graph_locs. apply elem_of_union_list.
  exists (need_locs n). split; [|done].
  apply list_elem_of_fmap. exists n. split; [done|].
  apply list_elem_of_fmap. exists (k, n). split; [done|].
  by apply elem_of_map_to_list.
Qed.

Global Instance container_dec h n : Decision (container h n).
Proof. unfold container. apply _. Defined.

Global Instance rank_falls_dec h0 all_needs rank n sub :
  Decision (rank_falls h0 all_needs rank n sub).
Proof. unfold rank_falls. destruct (all_needs !! sub); apply _. Defined.

(** [ranked] for a root of the graph, as a check over the list of its
    needs. *)
Lemma ranked_by_list G h0 all_needs root rank :
  (∃ k, all_needs !! k = Some root) →
  graph_locs all_needs ⊆ G →
  Forall (λ kn,
    Forall (rank_falls h0 all_needs rank kn.2)
      (field h0 (includes kn.2) ++ field h0 (consists_of kn.2)))
    (map_to_list all_needs) →
  ranked G h0 all_needs root rank.
Proof.
  intros [k0 Hroot] HG Hall.
  assert (∀ n, known all_needs root n → ∃ k, all_needs !! k = Some n) as Hknown.
  { intros n [->|?]; eauto. }
  split.
  - intros n [k Hk]%Hknown. etrans; [by eapply need_locs_graph|done].
  - intros n sub c [k Hk]%Hknown Hsub Hc Hcont.
    rewrite Forall_forall in Hall.
    specialize (Hall (k, n)). rewrite elem_of_map_to_list in Hall.
    specialize (Hall Hk). rewrite Forall_forall in Hall.
    specialize (Hall sub Hsub). unfold rank_falls in Hall. rewrite Hc in Hall. auto.
Qed.

Lemma nesting_returns_when_ranked_witness :
  separate (graph_locs (graph deep).2) (empty_world (graph deep).1)
  ∧ ranked (graph_locs (graph deep).2) (graph deep).1 (graph deep).2
      (need_of deep "A") deep_rank
  ∧ depth deep_rank (need_of deep "A") true ≤ 4
  ∧ ∃ texts w',
      run deep (λ gifc _ _ _ all_needs,
        draw_comp_incl_impl_int gifc 4 (need_of deep "A") all_needs true)
      = (Val texts, w').
Proof.
  assert (separate (graph_locs (graph deep).2) (empty_world (graph deep).1)) as Hsep.
  { split_and!; [|done|done]. by apply (bool_decide_unpack _). }
  assert (ranked (graph_locs (graph deep).2) (graph deep).1 (graph deep).2
            (need_of deep "A") deep_rank) as Hranked.
  { apply ranked_by_list; [by exists "A"|done|]. by apply (bool_decide_unpack _). }
  assert (depth deep_rank (need_of deep "A") true ≤ 4) as Hdepth.
  { by apply (bool_decide_unpack _). }
  split_and!; [done|done|done|].
  apply (nesting_returns_when_ranked spec_get_interface_from_component deep_rank 4
           (need_of deep "A") (graph deep).2 true (graph_locs (graph deep).2)
           (empty_world (graph deep).1) Hsep Hranked Hdepth).
Defined.

(** One more level of a recursion that is cut off below is cut off, too:
    the world is as it was when the sub-component is reached. *)
Lemma draw_comp_cut_off gifc fuel need all_needs w sub rest c :
  field (heap w) (includes need) ++ field (heap w) (consists_of need) = sub :: rest →
  all_needs !! sub = Some c →
  container (heap w) c →
  draw_comp_incl_impl_int gifc fuel c all_needs true w = (Diverge, w) →
  draw_comp_incl_impl_int gifc (S fuel) need all_needs true w = (Diverge, w).
Proof.
  intros Hsubs Hc [Htype Hcons] Hrec. simpl.
  unfold bind at 1. unfold bind at 1. unfold gets at 1. simpl.
  rewrite Hsubs. simpl. unfold bind at 1. rewrite Hc.
  rewrite bool_decide_eq_true_2 by done.
  unfold bind at 1. unfold gets at 1. simpl.
  rewrite bool_decide_eq_false_2 by done. simpl.
  unfold bind at 1. by rewrite Hrec.
Qed.

(** C1, as stated, fails: for A and B that consist of each other the
    recursion of draw_comp_incl_impl_int is cut off at every depth; nothing
    is skipped and nothing is logged. *)
Lemma nesting_cycle_diverges :
  ¬ ∃ fuel,
      (run cyclic (λ gifc _ _ _ all_needs,
         draw_comp_incl_impl_int gifc fuel (need_of cyclic "A") all_needs true)).1
      ≠ Diverge.
Proof.
  intros [fuel Hfuel]. apply Hfuel. unfold run.
  set (w := empty_world (graph cyclic).1).
  cut (draw_comp_incl_impl_int spec_get_interface_from_component fuel
         (need_of cyclic "A") (graph cyclic).2 true w = (Diverge, w)
       ∧ draw_comp_incl_impl_int spec_get_interface_from_component fuel
           (need_of cyclic "B") (graph cyclic).2 true w = (Diverge, w)).
  { by intros [-> _]. }
  clear Hfuel. induction fuel as [|fuel [IHA IHB]]; [done|]. split.
  - apply (draw_comp_cut_off _ _ _ _ _ "B" [] (need_of cyclic "B")); try done.
    split; by apply (bool_decide_unpack _).
  - apply (draw_comp_cut_off _ _ _ _ _ "A" [] (need_of cyclic "A")); try done.
    split; by apply (bool_decide_unpack _).
Qed.

(** ** The secondary-component loop *)

Section secondary_facts.
Context (get_interface_from_component :
           gmap loc (list string) → Need → string → gmap string Need → list string).
Context (get_impl_comp_from_logic_iface :
           gmap loc (list string) → string → gmap string Need → list string).
Context (h : gmap loc (list string)) (all_needs : gmap string Need).
Context (primary_components primary_interfaces initial : gset string).

Local Abbreviation enqueue := (enqueue_used primary_interfaces).
Local Abbreviation visit :=
  (visit_implementer get_interface_from_component h all_needs
     primary_components primary_interfaces).
Local Abbreviation step :=
  (secondary_step get_interface_from_component get_impl_comp_from_logic_iface
     h all_needs primary_components primary_interfaces).
Local Abbreviation ok :=
  (closure_ok get_interface_from_component get_impl_comp_from_logic_iface
     h all_needs primary_components initial).
Local Abbreviation uses_of comp :=
  (get_interface_from_component h comp "uses" all_needs).

Lemma enqueue_used_fold us : ∀ st,
  let st' := foldl enqueue st us in
  visited_interfaces st' = visited_interfaces st
  ∧ secondary_components st' = secondary_components st
  ∧ ∀ i, i ∈ interfaces_to_process st' →
      i ∈ interfaces_to_process st ∨ i ∈ us.
Proof.
  induction us as [|u us IH]; intros st; simpl.
  - split_and!; [done|done|]. intros i Hi. by left.
  - destruct (IH (enqueue st u)) as (Hv & Hs & Hq). simpl in *.
    unfold enqueue_used in *. case_bool_decide; simpl in *.
    + rewrite Hv, Hs. split_and!; [done|done|].
      intros i [Hi|Hi]%Hq; [|by right; right].
      apply elem_of_app in Hi as [Hi|Hi]; [by left|].
      apply list_elem_of_singleton in Hi as ->. right. left.
    + rewrite Hv, Hs. split_and!; [done|done|].
      intros i [Hi|Hi]%Hq; [by left|by right; right].
Qed.

(** The components a turn adds, and the interfaces it puts into the queue
    for them. *)
Local Abbreviation added c :=
  ((c ∉ primary_components) ∧ is_Some (all_needs !! c)).
Local Abbreviation enqueued_for c i :=
  (∃ comp, (c%string ∉ primary_components) ∧ all_needs !! c%string = Some comp
     ∧ is_external_baselib c%string = false ∧ i ∈ uses_of comp).

Lemma visit_implementer_fold cs : ∀ st,
  let st' := foldl visit st cs in
  visited_interfaces st' = visited_interfaces st
  ∧ (∀ c, c ∈ secondary_components st'
          ↔ c ∈ secondary_components st ∨ (c ∈ cs ∧ added c))
  ∧ ∀ i, i ∈ interfaces_to_process st' →
      i ∈ interfaces_to_process st ∨ ∃ c, c ∈ cs ∧ enqueued_for c i.
Proof.
  induction cs as [|c0 cs IH]; intros st; simpl.
  - split_and!; [done| |].
    + intros c. split; [by left|]. intros [?|[[]%elem_of_nil _]]. done.
    + intros i Hi. by left.
  - destruct (IH (visit st c0)) as (Hv & Hs & Hq). simpl in *.
    assert (visited_interfaces (visit st c0) = visited_interfaces st
            ∧ (∀ c, c ∈ secondary_components (visit st c0)
                    ↔ c ∈ secondary_components st ∨ (c = c0 ∧ added c))
            ∧ ∀ i, i ∈ interfaces_to_process (visit st c0) →
                i ∈ interfaces_to_process st ∨ enqueued_for c0 i)
      as (Hv0 & Hs0 & Hq0).
    { unfold visit_implementer.
      destruct (all_needs !! c0) as [comp|] eqn:Hc0.
      - case_bool_decide as Hprim.
        + destruct (is_external_baselib c0) eqn:Hext; simpl.
          * split_and!; [done| |by left].
            intros c. rewrite elem_of_union, elem_of_singleton.
            split; [intros [->|?]; [right|left]; eauto|].
            intros [?|[-> _]]; eauto.
          * edestruct (enqueue_used_fold (uses_of comp)) as (Hv1 & Hs1 & Hq1).
            rewrite Hv1, Hs1. simpl. split_and!; [done| |].
            -- intros c. rewrite elem_of_union, elem_of_singleton.
               split; [intros [->|?]; [right|left]; eauto|].
               intros [?|[-> _]]; eauto.
            -- intros i [Hi|Hi]%Hq1; [by left|]. right. eauto.
        + split_and!; [done| |by left].
          intros c. naive_solver.
      - split_and!; [done| |by left].
        intros c. split; [by left|]. intros [?|[-> [_ [? ?]]]]; [done|congruence]. }
    split_and!.
    + by rewrite Hv, Hv0.
    + intros c. rewrite Hs, Hs0. rewrite elem_of_cons. naive_solver.
    + intros i [Hi|(c & Hc & Hfor)]%Hq.
      * apply Hq0 in Hi as [Hi|Hi]; [by left|]. right. exists c0. split; [left|done].
      * right. exists c. split; [by right|done].
Qed.

(** What a turn of the loop does. *)
Lemma secondary_step_cases st st' :
  step st = Some st' →
  ∃ iface rest, interfaces_to_process st = iface :: rest
    ∧ ((iface ∈ visited_interfaces st ∨ all_needs !! iface = None)
        ∧ st' = mkClosure rest (visited_interfaces st) (secondary_components st)
                  (all_related_interfaces st)
       ∨ (iface ∉ visited_interfaces st) ∧ is_Some (all_needs !! iface)
         ∧ st' = foldl visit
                   (mkClosure rest ({[iface]} ∪ visited_interfaces st)
                      (secondary_components st) (all_related_interfaces st))
                   (get_impl_comp_from_logic_iface h iface all_needs)).
Proof.
  unfold secondary_step. destruct (interfaces_to_process st) as [|iface rest]; [done|].
  simpl. case_bool_decide as Hskip; intros [= <-]; exists iface, rest.
  - split; [done|]. by left.
  - split; [done|]. right. split_and!; [naive_solver| |done].
    destruct (all_needs !! iface); [eauto|naive_solver].
Qed.

Lemma secondary_step_None st : step st = None ↔ interfaces_to_process st = [].
Proof.
  unfold secondary_step. destruct (interfaces_to_process st); [done|].
  simpl. case_bool_decide; done.
Qed.

Lemma secondary_step_ok st st' : step st = Some st' → ok st → ok st'.
Proof.
  intros (iface & rest & Hq & Hcase)%secondary_step_cases (H1 & H2 & H3).
  destruct Hcase as [[Hskip ->]|(Hnew & Hgraph & ->)].
  - split_and!; simpl; [done| |done].
    intros i [Hi|Hi]; apply H2; [left; rewrite Hq; by right|by right].
  - edestruct (visit_implementer_fold
                 (get_impl_comp_from_logic_iface h iface all_needs))
      as (Hv & Hs & Hqueue).
    split_and!.
    + intros c [Hc|[Hc [Hprim Hin]]]%Hs; simpl in Hc.
      * destruct (H1 c Hc) as (? & ? & i & Hi & ?). split_and!; [done|done|].
        exists i. rewrite Hv. simpl. split; [set_solver|done].
      * split_and!; [done|done|]. exists iface. rewrite Hv. simpl.
        split; [set_solver|done].
    + assert (∀ i, i ∈ initial
                   ∨ (∃ comp_id comp, comp_id ∈ secondary_components st
                        ∧ is_external_baselib comp_id = false
                        ∧ all_needs !! comp_id = Some comp ∧ i ∈ uses_of comp) →
              i ∈ initial
              ∨ ∃ comp_id comp, comp_id ∈ secondary_components
                      (foldl visit
                         (mkClosure rest ({[iface]} ∪ visited_interfaces st)
                            (secondary_components st) (all_related_interfaces st))
                         (get_impl_comp_from_logic_iface h iface all_needs))
                  ∧ is_external_baselib comp_id = false
                  ∧ all_needs !! comp_id = Some comp ∧ i ∈ uses_of comp) as Hmono.
      { intros i [?|(c & comp & Hc & ?)]; [by left|]. right. exists c, comp.
        split; [|done]. apply Hs. by left. }
      intros i [Hi|Hi].
      * apply Hqueue in Hi as [Hi|(c & Hc & comp & Hprim & Hcomp & Hext & Huse)];
          [simpl in Hi|].
        -- apply Hmono, H2. left. rewrite Hq. by right.
        -- right. exists c, comp. split_and!; [|done|done|done].
           apply Hs. right. split; [done|]. split; [done|eauto].
      * rewrite Hv in Hi. simpl in Hi. apply elem_of_union in Hi as [Hi|Hi].
        -- apply elem_of_singleton in Hi as ->. apply Hmono, H2. left.
           rewrite Hq. left.
        -- apply Hmono, H2. by right.
    + intros i c Hi Hc Hprim Hin. rewrite Hv in Hi. simpl in Hi.
      apply Hs. apply elem_of_union in Hi as [Hi|Hi].
      * apply elem_of_singleton in Hi as ->. right. done.
      * left. simpl. by apply (H3 i c).
Qed.

Local Abbreviation run_for :=
  (secondary_run get_interface_from_component get_impl_comp_from_logic_iface
     h all_needs primary_components primary_interfaces).
Local Abbreviation loop :=
  (secondary_loop get_interface_from_component get_impl_comp_from_logic_iface
     h all_needs primary_components primary_interfaces).

Lemma secondary_run_ok n : ∀ st, ok st → ok (run_for n st).
Proof.
  induction n as [|n IH]; intros st Hok; simpl; [done|].
  destruct (step st) as [st'|] eqn:Hstep; [|done].
  apply IH. by eapply secondary_step_ok.
Qed.

Lemma secondary_start_ok related :
  ok (mkClosure (elements initial) ∅ ∅ related).
Proof.
  split_and!; simpl.
  - intros c ?%not_elem_of_empty. done.
  - intros i [Hi|Hi]; [|by apply not_elem_of_empty in Hi].
    left. by apply elem_of_elements.
  - intros i c ?%not_elem_of_empty. done.
Qed.

(** The loop ends: a turn either visits an interface of the graph that was
    not visited before, or only takes one from the queue. *)
Lemma secondary_loop_ends n : ∀ st,
  size (dom all_needs ∖ visited_interfaces st) ≤ n →
  ∃ fuel st', loop fuel st = Some st' ∧ interfaces_to_process st' = []
              ∧ st' = run_for fuel st.
Proof.
  induction n as [|n IHn].
  - intros [queue visited secondary related]. simpl.
    revert secondary related. induction queue as [|iface rest IHq];
      intros secondary related Hsize.
    + exists 0, (mkClosure [] visited secondary related). done.
    + destruct (step (mkClosure (iface :: rest) visited secondary related))
        as [st'|] eqn:Hstep; [|by apply secondary_step_None in Hstep].
      pose proof Hstep as (i & r & Hq & Hcase)%secondary_step_cases.
      simpl in Hq. injection Hq as <- <-.
      destruct Hcase as [[_ ->]|(Hnew & Hgraph & _)]; simpl in *.
      * destruct (IHq secondary related Hsize) as (fuel & st2 & Hloop & Hempty & Hrun).
        exists (S fuel), st2. simpl. rewrite Hstep. done.
      * exfalso. assert (iface ∈ dom all_needs ∖ visited) as Hin.
        { apply elem_of_difference. split; [by apply elem_of_dom|done]. }
        assert (dom all_needs ∖ visited ≡ ∅) as Hempty.
        { apply size_empty_inv. lia. }
        set_solver.
  - intros [queue visited secondary related]. simpl.
    revert secondary related. induction queue as [|iface rest IHq];
      intros secondary related Hsize.
    + exists 0, (mkClosure [] visited secondary related). done.
    + destruct (step (mkClosure (iface :: rest) visited secondary related))
        as [st'|] eqn:Hstep; [|by apply secondary_step_None in Hstep].
      pose proof Hstep as (i & r & Hq & Hcase)%secondary_step_cases.
      simpl in Hq. injection Hq as <- <-.
      destruct Hcase as [[_ ->]|(Hnew & Hgraph & Hst')]; simpl in *.
      * destruct (IHq secondary related Hsize) as (fuel & st2 & Hloop & Hempty & Hrun).
        exists (S fuel), st2. simpl. rewrite Hstep. done.
      * destruct (IHn st') as (fuel & st2 & Hloop & Hempty & Hrun).
        { rewrite Hst'.
          edestruct (visit_implementer_fold
                       (get_impl_comp_from_logic_iface h iface all_needs))
            as (Hv & _ & _).
          rewrite Hv. simpl.
          assert (iface ∈ dom all_needs ∖ visited) as Hin.
          { apply elem_of_difference. split; [by apply elem_of_dom|done]. }
          assert (dom all_needs ∖ ({[iface]} ∪ visited)
                  = (dom all_needs ∖ visited) ∖ {[iface]}) as -> by set_solver.
          rewrite size_difference by set_solver. rewrite size_singleton.
          assert (size (dom all_needs ∖ visited) ≠ 0); [|lia].
          intros Hz. apply size_empty_inv in Hz. set_solver. }
        exists (S fuel), st2. simpl. rewrite Hstep. done.
Qed.
End secondary_facts.

(** C2, as amended. At every turn of the secondary-component loop, started
    as _collect_interfaces_and_modules starts it: a secondary component is in
    the graph, is not primary and implements a visited interface; every such
    implementer of a visited interface is a secondary component, external or
    not; and an interface in the queue or visited is used by a primary
    component (it is one of the initial secondary interfaces) or by a
    secondary component that is not external. The loop ends with an empty
    queue. *)
Theorem secondary_closure
    (get_interface_from_component :
       gmap loc (list string) → Need → string → gmap string Need → list string)
    (get_impl_comp_from_logic_iface :
       gmap loc (list string) → string → gmap string Need → list string)
    (h : gmap loc (list string)) (all_needs : gmap string Need)
    (primary_components primary_interfaces secondary_interfaces related : gset string) :
  (∀ n,
     closure_ok get_interface_from_component get_impl_comp_from_logic_iface
       h all_needs primary_components secondary_interfaces
       (secondary_run get_interface_from_component get_impl_comp_from_logic_iface
          h all_needs primary_components primary_interfaces n
          (mkClosure (elements secondary_interfaces) ∅ ∅ related)))
  ∧ ∃ fuel st,
      secondary_loop get_interface_from_component get_impl_comp_from_logic_iface
        h all_needs primary_components primary_interfaces fuel
        (mkClosure (elements secondary_interfaces) ∅ ∅ related) = Some st
      ∧ interfaces_to_process st = []
      ∧ st = secondary_run get_interface_from_component
               get_impl_comp_from_logic_iface h all_needs primary_components
               primary_interfaces fuel
               (mkClosure (elements secondary_interfaces) ∅ ∅ related).
Proof.
  split.
  - intros n. apply secondary_run_ok, secondary_start_ok.
  - by eapply secondary_loop_ends.
Qed.

(** C2, as stated, fails: the external component comp__os_x implements an
    interface that the primary component uses, and the loop makes it a
    secondary component. Its own interface I3 is not visited. *)
Lemma external_component_is_secondary :
  is_external_baselib "comp__os_x" = true
  ∧ ∃ st,
      secondary_loop spec_get_interface_from_component
        spec_get_impl_comp_from_logic_iface
        (graph external_chain).1 (graph external_chain).2
        (list_to_set (field (graph external_chain).1
                        (consists_of (need_of external_chain "F"))))
        ∅ 10
        (mkClosure
           (elements (collect_secondary_interfaces spec_get_interface_from_component
                        (graph external_chain).1 (graph external_chain).2
                        (list_to_set (field (graph external_chain).1
                                        (consists_of (need_of external_chain "F"))))))
           ∅ ∅ ∅) = Some st
      ∧ "comp__os_x" ∈ secondary_components st
      ∧ "I3" ∉ visited_interfaces st.
Proof.
  split; [done|]. eexists. split; [by vm_compute|].
  split; by apply (bool_decide_unpack _).
Qed.

(** ** The feature-user edges *)

Lemma clean_nil : clean [].
Proof. intros x ?%elem_of_nil. done. Qed.

Lemma clean_app t1 t2 : clean (t1 ++ t2) ↔ clean t1 ∧ clean t2.
Proof.
  unfold clean. split.
  - intros H. split; intros x Hx; apply (H x), elem_of_app; auto.
  - intros [H1 H2] x [?|?]%elem_of_app; [by apply (H1 x)|by apply (H2 x)].
Qed.

Lemma clean_cons p t : (∀ x, p ≠ actor_edge x) → clean t → clean (p :: t).
Proof. intros Hp Ht x [?|?]%elem_of_cons; [by eapply Hp|by eapply Ht]. Qed.

Lemma clean_dedup t : clean (dedup_lines t) ↔ clean t.
Proof.
  unfold clean, dedup_lines. split; intros H x Hx; apply (H x).
  - by apply elem_of_remove_dups.
  - by rewrite elem_of_remove_dups in Hx.
Qed.

Section clean_facts.
Local Abbreviation any := (λ _ : world, True).
Local Abbreviation cleans m := (triple any m (post clean True True)).
Local Abbreviation clean2 :=
  (λ p : text * text, clean p.1 ∧ clean p.2).
Local Abbreviation cleans2 m := (triple any m (post clean2 True True)).

Lemma triple_any {A} (m : M world A) : triple any m (post (λ _, True) True True).
Proof. intros w _. split; [|done]. by destruct (m w).1. Qed.

Ltac solve_clean :=
  repeat first
    [ done
    | apply clean_nil
    | match goal with
      | H : _ ∧ _ |- _ => destruct H
      | |- _ ∧ _ => split
      | |- clean (_ ++ _) => apply clean_app
      | |- clean (dedup_lines _) => apply clean_dedup
      | |- clean (_ :: _) => apply clean_cons; [by intros ?|]
      end
    | progress simpl in * ].

Ltac cleans_go :=
  cbv beta zeta;
  lazymatch goal with
  | |- triple _ (ret _) _ => apply triple_ret; solve_clean
  | |- triple _ (raise _) _ => by apply triple_raise
  | |- triple _ diverge _ => by apply triple_diverge
  | |- triple _ (@bind _ ?A _ ?m ?k) _ =>
      first
        [ unify A text;
          apply (triple_bind _ _ _ m k clean); [cleans_go | intros ? ?; cleans_go]
        | unify A (text * text)%type;
          apply (triple_bind _ _ _ m k clean2); [cleans_go | intros ? ?; cleans_go]
        | apply (triple_bind _ _ _ m k (λ _, True));
            [apply triple_any | intros ? ?; cleans_go] ]
  | |- triple _ (for_each _ _ _) _ =>
      apply triple_for_each; [intros ? ? ? ?; cleans_go | solve_clean]
  | |- triple _ (match ?x with _ => _ end _) _ => destruct x eqn:?; cleans_go
  | |- triple _ (match ?x with _ => _ end) _ => destruct x eqn:?; cleans_go
  | |- triple _ (if ?b then _ else _) _ => destruct b eqn:?; cleans_go
  | _ => idtac
  end.

Context (get_interface_from_component :
           gmap loc (list string) → Need → string → gmap string Need → list string).
Context (get_impl_comp_from_logic_iface :
           gmap loc (list string) → string → gmap string Need → list string).
Context (get_module :
           gmap loc (list string) → string → gmap string Need → string).
Context (all_needs : gmap string Need).

Lemma cleans_process_interfaces iface_list relation need r linkage_text :
  clean linkage_text →
  cleans (_process_interfaces iface_list relation need all_needs r linkage_text).
Proof. intros Hc. unfold _process_interfaces. cleans_go. Qed.

Lemma cleans_draw_comp fuel : ∀ need white_box_view,
  cleans2 (draw_comp_incl_impl_int get_interface_from_component fuel need
             all_needs white_box_view).
Proof.
  induction fuel as [|fuel IH]; intros need wb; simpl.
  - by apply triple_diverge.
  - cleans_go.
    + apply IH.
    + apply cleans_process_interfaces; solve_clean.
    + apply cleans_process_interfaces; solve_clean.
Qed.

Lemma cleans_process_impl_interfaces fuel need structure_text :
  clean structure_text →
  cleans (_process_impl_interfaces get_interface_from_component fuel need
            all_needs structure_text).
Proof. intros Hc. unfold _process_impl_interfaces. cleans_go. Qed.

Lemma cleans_process_used_interfaces need local_impl_interfaces
    structure_text linkage_text :
  clean structure_text → clean linkage_text →
  cleans2 (_process_used_interfaces get_impl_comp_from_logic_iface need
             all_needs local_impl_interfaces structure_text linkage_text).
Proof. intros Hs Hl. unfold _process_used_interfaces. cleans_go. Qed.

Lemma cleans_draw_module fuel need :
  cleans2 (draw_module get_interface_from_component
             get_impl_comp_from_logic_iface fuel need all_needs).
Proof.
  unfold draw_module. cleans_go.
  - apply cleans_process_impl_interfaces; solve_clean.
  - apply cleans_draw_comp.
  - apply cleans_process_used_interfaces; solve_clean.
Qed.

Lemma cleans_collect fuel need interfacelist impl_comp proc_modules
    structure_text link_text :
  clean structure_text → clean link_text →
  triple any
    (_collect_interfaces_and_modules get_interface_from_component
       get_impl_comp_from_logic_iface get_module fuel need all_needs
       interfacelist impl_comp proc_modules structure_text link_text)
    (post (λ p, clean p.1.1 ∧ clean p.1.2) True True).
Proof.
  intros Hs Hl. unfold _collect_interfaces_and_modules. cleans_go.
  apply cleans_draw_module.
Qed.
End clean_facts.

Lemma for_each_cons {S A B} (x : A) (l : list A) (body : B → A → M S B) acc s :
  for_each (x :: l) body acc s
  = match body acc x s with
    | (Val b, s') => for_each l body b s'
    | (Raise e, s') => (Raise e, s')
    | (Diverge, s') => (Diverge, s')
    end.
Proof. done. Qed.

(** A property of the values of a loop that returns, from its turns. *)
Lemma for_each_val_ind {S A B} (body : B → A → M S B) (P : list A → B → B → Prop) :
  (∀ acc, P [] acc acc) →
  (∀ x l acc b r s s', body acc x s = (Val b, s') → P l b r → P (x :: l) acc r) →
  ∀ l acc s r s', for_each l body acc s = (Val r, s') → P l acc r.
Proof.
  intros Hnil Hcons. induction l as [|x l IH]; intros acc s r s'.
  - intros [= <- _]. apply Hnil.
  - rewrite for_each_cons. destruct (body acc x s) as [[b| |] s1] eqn:Hbody; [|done|done].
    intros Hrest. eapply Hcons; [done|]. by eapply IH.
Qed.

Lemma bind_Val_inv {S A B} (m : M S A) (k : A → M S B) s r s' :
  bind m k s = (Val r, s') → ∃ a s1, m s = (Val a, s1) ∧ k a s1 = (Val r, s').
Proof. unfold bind. destruct (m s) as [[a| |] s1]; [eauto|done|done]. Qed.

Lemma item_Val_inv all_needs key w n w' :
  item all_needs key w = (Val n, w') → all_needs !! key = Some n ∧ w' = w.
Proof. unfold item. destruct (all_needs !! key); [|done]. by intros [= -> ->]. Qed.

(** The loop of [_build_links] over the implementers of one interface adds
    no feature-user edge. *)
Lemma build_links_implementers all_needs iface impl_comps link_text w r w' :
  for_each impl_comps (λ link_text imcomp,
    match all_needs !! imcomp with
    | Some comp_need =>
        iface_need ←' item all_needs iface;
        ret (link_text ++ [Link (id comp_need) "-u->" (id iface_need) "implements"])
    | None => info (ComponentNotFound imcomp) ;;' ret link_text
    end)%py link_text w = (Val r, w') →
  ∀ x, actor_edge x ∈ r ↔ actor_edge x ∈ link_text.
Proof.
  apply (for_each_val_ind _ (λ _ acc r, ∀ x, actor_edge x ∈ r ↔ actor_edge x ∈ acc)).
  - done.
  - intros imcomp l acc b r0 s s' Hbody Hrest x. rewrite (Hrest x). clear Hrest.
    destruct (all_needs !! imcomp) as [comp_need|].
    + unfold bind, item in Hbody. destruct (all_needs !! iface) as [iface_need|]; [|done].
      injection Hbody as <- _. rewrite elem_of_app, list_elem_of_singleton.
      split; [intros [?|?]; done|by left].
    + by injection Hbody as <- _.
Qed.

(** The feature-user edges that [_build_links] adds: one for each of the
    interfaces it is given that is an original feature interface with a
    non-empty entry in the implementer mapping. *)
Lemma build_links_actor need all_needs original impl_comp all_interfaces
    link_text w r w' :
  _build_links need all_needs original all_interfaces impl_comp link_text w
    = (Val r, w') →
  ∀ x, actor_edge x ∈ r
       ↔ actor_edge x ∈ link_text
         ∨ ∃ iface n c cs, iface ∈ all_interfaces ∧ iface ∈ original
             ∧ dict_get iface impl_comp = Some (c :: cs)
             ∧ all_needs !! iface = Some n ∧ id n = x.
Proof.
  unfold _build_links.
  apply (for_each_val_ind _ (λ l acc r, ∀ x, actor_edge x ∈ r
       ↔ actor_edge x ∈ acc
         ∨ ∃ iface n c cs, iface ∈ l ∧ iface ∈ original
             ∧ dict_get iface impl_comp = Some (c :: cs)
             ∧ all_needs !! iface = Some n ∧ id n = x)).
  - intros acc x. split; [by left|].
    intros [?|(? & ? & ? & ? & []%elem_of_nil & _)]. done.
  - intros iface l acc b r0 s s' Hbody Hrest x. rewrite (Hrest x). clear Hrest.
    assert (actor_edge x ∈ b
            ↔ actor_edge x ∈ acc
              ∨ ∃ n c cs, iface ∈ original
                  ∧ dict_get iface impl_comp = Some (c :: cs)
                  ∧ all_needs !! iface = Some n ∧ id n = x) as ->.
    { destruct (dict_get iface impl_comp) as [[|c cs]|] eqn:Hget.
      - injection Hbody as <- _. split; [by left|].
        intros [?|(? & ? & ? & _ & [=] & _)]. done.
      - apply bind_Val_inv in Hbody as (lt1 & s1 & Hactor & Himpl).
        rewrite (build_links_implementers _ _ _ _ _ _ _ Himpl x).
        case_bool_decide as Horig.
        + apply bind_Val_inv in Hactor as (iface_need & s2 & Hitem & Hret).
          apply item_Val_inv in Hitem as [Hn _]. injection Hret as <- _.
          rewrite elem_of_app, list_elem_of_singleton. split.
          * intros [?|Heq]; [by left|]. right. exists iface_need, c, cs.
            injection Heq as <-. done.
          * intros [?|(n & c' & cs' & _ & _ & Hn' & <-)]; [by left|].
            right. rewrite Hn in Hn'. by injection Hn' as <-.
        + injection Hactor as <- _.
          split; [by left|]. intros [?|(? & ? & ? & ? & _)]; done.
      - injection Hbody as <- _. split; [by left|].
        intros [?|(? & ? & ? & _ & [=] & _)]. done. }
    split.
    + intros [[?|(n & c & cs & ? & ? & ? & ?)]|(i & n & c & cs & ? & ?)].
      * by left.
      * right. exists iface, n, c, cs. split; [left|done].
      * right. exists i, n, c, cs. split; [by right|done].
    + intros [?|(i & n & c & cs & [->|?]%elem_of_cons & ? & ? & ? & ?)].
      * by left; left.
      * left. right. by exists n, c, cs.
      * right. by exists i, n, c, cs.
Qed.

(** C6, as amended. The text of draw_full_feature holds a Feature User edge
    to an interface exactly when the interface is a primary interface of the
    feature (one of the interfaces of its includes) and the implementer
    mapping that _collect_interfaces_and_modules returns has a non-empty entry
    for it; so no such edge goes to an interface that is not primary, and a
    primary interface without an eligible implementer gets none. In the
    scenario (primary C1 implements I1 and uses I2, C2 implements I2) the one
    Feature User edge goes to I1. *)
Theorem feature_user_edges :
  (∀ (get_interface_from_component :
        gmap loc (list string) → Need → string → gmap string Need → list string)
     (get_impl_comp_from_logic_iface :
        gmap loc (list string) → string → gmap string Need → list string)
     (get_module get_interface_from_int :
        gmap loc (list string) → string → gmap string Need → string)
     (fuel : nat) (need : Need) (all_needs : gmap string Need) (w w' : world)
     (t : text),
     draw_full_feature get_interface_from_component get_impl_comp_from_logic_iface
       get_module get_interface_from_int fuel need all_needs w = (Val t, w') →
     ∃ proc_modules w1 w2 structure_text link_text impl_comp,
       _collect_interfaces_and_modules get_interface_from_component
         get_impl_comp_from_logic_iface get_module fuel need all_needs
         (feature_interfaces get_interface_from_int (heap w1) need all_needs)
         [] proc_modules [Actor] [] w1
       = (Val (structure_text, link_text, impl_comp), w2)
       ∧ ∀ x, actor_edge x ∈ t
              ↔ ∃ iface n c cs,
                  iface ∈ feature_interfaces get_interface_from_int (heap w1)
                            need all_needs
                  ∧ dict_get iface impl_comp = Some (c :: cs)
                  ∧ all_needs !! iface = Some n ∧ id n = x)
  ∧ (run scenario (λ gifc gic gm gi all_needs,
       draw_full_feature gifc gic gm gi 10 (need_of scenario "F") all_needs)).1
    = Val [Header; Actor; actor_edge "I1";
           Link "C1" "-u->" "I1" "implements";
           Link "C2" "-u->" "I2" "implements"].
Proof.
  split; [|by vm_compute].
  intros gifc gic gm gi fuel need all_needs w w' t Hrun.
  unfold draw_full_feature in Hrun.
  apply bind_Val_inv in Hrun as ([] & w0 & _ & Hrun).
  apply bind_Val_inv in Hrun as (proc_modules & w1 & _ & Hrun).
  apply bind_Val_inv in Hrun as (h & w1' & [= <- <-] & Hrun).
  apply bind_Val_inv in Hrun as ([[structure_text link_text] impl_comp] & w2 & Hcollect & Hrun).
  apply bind_Val_inv in Hrun as (links & w3 & Hbuild & [= <- _]).
  exists proc_modules, w1, w2, structure_text, link_text, impl_comp.
  split; [done|]. intros x.
  destruct (cleans_collect gifc gic gm all_needs fuel need
              (feature_interfaces gi (heap w1) need all_needs) [] proc_modules
              [Actor] []) with (w := w1) as [Hclean _].
  { by apply clean_cons; [|apply clean_nil]. }
  { apply clean_nil. }
  { done. }
  rewrite Hcollect in Hclean. destruct Hclean as [Hs Hl]. simpl in Hs, Hl.
  rewrite elem_of_cons, elem_of_app.
  unfold dedup_lines. rewrite elem_of_remove_dups.
  rewrite (build_links_actor _ _ _ _ _ _ _ _ _ Hbuild x). split.
  - intros [Hh|[Hin|[Hin|(iface & n & c & cs & _ & ? & ?)]]].
    + done.
    + by apply Hs in Hin.
    + by apply Hl in Hin.
    + by exists iface, n, c, cs.
  - intros (iface & n & c & cs & ? & Hget & ? & ?). right. right. right.
    exists iface, n, c, cs. split_and!; try done.
    apply dict_get_is_Some. by rewrite Hget.
Qed.

(** C6, as stated, fails: the interface I1 of the feature is primary, but
    nothing implements it, and no Feature User edge goes to it. *)
Lemma primary_interface_without_edge :
  "I1" ∈ feature_interfaces spec_get_interface_from_int (graph unimplemented).1
           (need_of unimplemented "F") (graph unimplemented).2
  ∧ ∃ t,
      (run unimplemented (λ gifc gic gm gi all_needs,
         draw_full_feature gifc gic gm gi 10 (need_of unimplemented "F") all_needs)).1
      = Val t
      ∧ actor_edge "I1" ∉ t.
Proof.
  split; [by apply (bool_decide_unpack _)|].
  eexists. split; [by vm_compute|]. by apply (bool_decide_unpack _).
Qed.

(** C3 fails on the code. The component of module M1 uses the interface I,
    which nothing implements. Drawing M1 puts the block of I into the
    structure text and registers I, with an empty list; drawing M2 with the
    same registries takes the empty list for no registration and puts the
    block of I into the structure text again. *)
Lemma orphan_interface_block_twice :
  ∃ l,
    (run orphan_interface (λ gifc gic _ _ all_needs,
       first ←' draw_module gifc gic 5 (need_of orphan_interface "M1") all_needs;
       registered ←' gets (λ w, dict_get "I" (proc_impl_interfaces w));
       second ←' draw_module gifc gic 5 (need_of orphan_interface "M2") all_needs;
       ret (first.1, registered, second.1))%py).1
    = Val ([StructOpen "package" "M1"; StructOpen "component" "C1";
            StructClose "C1"; StructClose "M1"; Interface "I"],
           Some l,
           [StructOpen "package" "M2"; StructOpen "component" "C2";
            StructClose "C2"; StructClose "M2"; Interface "I"]).
Proof. eexists. by vm_compute. Qed.

End DrawSpec.

(** * Further facts about diagram.py *)

Module DiagramLaws.
Import Diagram DiagramSpec.
Local Open Scope py_scope.

(** ** The aliases of a rendering *)

Lemma getitem_injective name am r am' :
  getitem name am = (r, am') → alias_consistent am → alias_injective am →
  alias_injective am'.
Proof.
  intros Hrun Hc Hi.
  destruct (getitem_cases name am) as [(a & Hr & _)|[(a & Hr & Hnone & Hfree)|(e & Hr)]];
    rewrite Hr in Hrun; injection Hrun as <- <-; [done| |done].
  assert (∀ n, _map am !! n ≠ Some a) as Hnew.
  { intros n Hn. apply Hfree, Hc. eauto. }
  intros n1 n2 alias. simpl.
  destruct (decide (name = n1)) as [<-|H1], (decide (name = n2)) as [<-|H2];
    rewrite ?lookup_insert_eq, ?lookup_insert_ne by done.
  - done.
  - intros [= <-] ?. by destruct (Hnew n2).
  - intros ? [= <-]. by destruct (Hnew n1).
  - apply Hi.
Qed.

Lemma getitem_Val_lookup name am alias am' :
  getitem name am = (Val alias, am') → _map am' !! name = Some alias.
Proof.
  intros Hrun.
  destruct (getitem_cases name am) as [(a & Hr & ?)|[(a & Hr & _)|(e & Hr)]];
    rewrite Hr in Hrun; simplify_eq; [done|].
  simpl. apply lookup_insert_eq.
Qed.

(** The aliases a loop of requests returns are those the map then holds for
    the names, and the map stays consistent and injective. *)
Lemma requests_lookup names : ∀ acc am r am',
  for_each names (λ acc name, alias ←' getitem name; ret (acc ++ [alias])) acc am
    = (Val r, am') →
  alias_consistent am → alias_injective am →
  ∃ new, r = acc ++ new
    ∧ Forall2 (λ n a, _map am' !! n = Some a) names new
    ∧ alias_consistent am' ∧ alias_injective am'.
Proof.
  induction names as [|n names IH]; intros acc am r am'; simpl.
  - intros [= <- <-] ? ?. exists []. rewrite app_nil_r. split_and!; [done|constructor|done..].
  - unfold bind at 1. unfold bind at 1.
    destruct (getitem n am) as [[a| |] am1] eqn:Hg; simpl; [|done..].
    intros Hrest Hc Hi.
    destruct (IH _ _ _ _ Hrest) as (new & -> & Hall & Hc' & Hi').
    { by eapply getitem_consistent. }
    { by eapply getitem_injective. }
    exists (a :: new). rewrite <-app_assoc. split_and!; [done| |done..].
    constructor; [|done].
    eapply requests_keeps; [exact Hrest|]. by eapply getitem_Val_lookup.
Qed.

(** X1. In one rendering an identifier stands for one display name: of the
    aliases that a sequence of requests to a new alias map returns, two are
    equal exactly when the two names are. *)
Theorem aliases_tell_names_apart (names aliases : list string) (am : AliasMap) :
  requests names empty_alias_map = (Val aliases, am) →
  length aliases = length names
  ∧ ∀ i j n1 n2 a1 a2,
      names !! i = Some n1 → names !! j = Some n2 →
      aliases !! i = Some a1 → aliases !! j = Some a2 →
      (a1 = a2 ↔ n1 = n2).
Proof.
  intros Hrun. apply requests_lookup in Hrun as (new & -> & Hall & _ & Hi).
  - simpl. split; [symmetry; by eapply Forall2_length|].
    intros i j n1 n2 a1 a2 Hn1 Hn2 Ha1 Ha2.
    destruct (Forall2_lookup_l _ _ _ _ _ Hall Hn1) as (b1 & Hb1 & Hm1).
    destruct (Forall2_lookup_l _ _ _ _ _ Hall Hn2) as (b2 & Hb2 & Hm2).
    simplify_eq. split.
    + intros <-. by eapply Hi.
    + intros <-. congruence.
  - intros alias. simpl. split; [set_solver|]. intros (n & Hn). simpl in Hn. by rewrite lookup_empty in Hn.
  - intros n1 n2 alias Hn. simpl in Hn. by rewrite lookup_empty in Hn.
Qed.

Lemma aliases_tell_names_apart_witness :
  ∃ aliases am,
    requests ["A B"; "A.B"; "A B"; "A_B"] empty_alias_map = (Val aliases, am)
    ∧ length aliases = 4.
Proof.
  eexists _, _. split; [by vm_compute|].
  eapply (aliases_tell_names_apart ["A B"; "A.B"; "A B"; "A_B"]). by vm_compute.
Defined.

(** ** Identifiers *)

Lemma chars_app s1 s2 : chars (s1 +:+ s2) = chars s1 ++ chars s2.
Proof.
  unfold chars. induction s1 as [|c s1 IH]; [done|].
  unfold String.append. fold String.append. simpl. by rewrite IH.
Qed.

Lemma chars_of_list l : chars (string_of_list_ascii l) = l.
Proof. apply list_ascii_of_string_of_list_ascii. Qed.

Lemma of_chars s : string_of_list_ascii (chars s) = s.
Proof. apply string_of_list_ascii_of_string. Qed.

Lemma pretty_N_char_valid x : VALID_CHARS (pretty_N_char x) = true.
Proof. unfold pretty_N_char. by repeat case_match. Qed.

Lemma pretty_N_go_valid x : ∀ s,
  Forall (λ ch, VALID_CHARS ch = true) (chars s) →
  Forall (λ ch, VALID_CHARS ch = true) (chars (pretty_N_go x s)).
Proof.
  induction (N.lt_wf_0 x) as [x _ IH]; intros s Hs.
  assert (x = 0 ∨ 0 < x)%N as [->|?] by lia.
  - by rewrite pretty_N_go_0.
  - rewrite pretty_N_go_step by done. apply IH; [by apply N.div_lt|].
    constructor; [apply pretty_N_char_valid | done].
Qed.

(** The decimal numeral of a counter consists of digits. *)
Lemma pretty_nat_valid (n : nat) : Forall (λ ch, VALID_CHARS ch = true) (chars (pretty n)).
Proof.
  unfold pretty, pretty_nat, pretty, pretty_N. case_decide.
  - by repeat constructor.
  - by apply pretty_N_go_valid.
Qed.

Lemma sanitize_chars_valid name :
  Forall (λ ch, VALID_CHARS ch = true) (sanitize_chars name).
Proof.
  unfold sanitize_chars. apply Forall_fmap, Forall_true. intros ch. simpl.
  by destruct (VALID_CHARS ch) eqn:?.
Qed.

Lemma sanitize_Val name base :
  _sanitize name = Val base ↔
  chars base = strip underscore (sanitize_chars name) ∧ base ≠ "".
Proof.
  unfold _sanitize. destruct (falsy _) eqn:Hf.
  - apply falsy_spec in Hf. split; [done|]. intros [Hb Hne].
    destruct Hne. rewrite <-(of_chars base), Hb. done.
  - split.
    + intros [= <-]. rewrite chars_of_list. split; [done|].
      intros ?%falsy_spec. congruence.
    + intros [Hb _]. f_equal. by rewrite <-Hb, of_chars.
Qed.

Lemma lstrip_id c l : head l ≠ Some c → lstrip c l = l.
Proof. destruct l as [|x l]; simpl; [done|]. intros ?. rewrite decide_False; congruence. Qed.

Lemma strip_id c l : head l ≠ Some c → last l ≠ Some c → strip c l = l.
Proof.
  intros Hh Hl. unfold strip, rstrip. rewrite (lstrip_id c l) by done.
  rewrite lstrip_id, reverse_involutive; [done|]. by rewrite head_reverse.
Qed.

(** What [_sanitize] returns: an identifier that neither starts nor ends with
    an underscore. *)
Lemma sanitize_base name base :
  _sanitize name = Val base →
  Forall (λ ch, VALID_CHARS ch = true) (chars base)
  ∧ head (chars base) ≠ Some underscore ∧ last (chars base) ≠ Some underscore
  ∧ base ≠ "".
Proof.
  intros [Hb Hne]%sanitize_Val.
  destruct (strip_spec underscore (sanitize_chars name)) as (n & m & Hl & Hh & Ht).
  rewrite <-Hb in Hl, Hh, Ht. split_and!; [|done..].
  pose proof (sanitize_chars_valid name) as Hv. rewrite Hl in Hv.
  by apply Forall_app in Hv as [_ [? _]%Forall_app].
Qed.

Lemma sanitize_identifier name base : _sanitize name = Val base → identifier base.
Proof.
  intros (Hv & Hh & _ & Hne)%sanitize_base. split; [done|].
  destruct (chars base) as [|ch l] eqn:Hc.
  - destruct Hne. by rewrite <-(of_chars base), Hc.
  - exists ch. split; [done|]. unfold alnum. apply Forall_cons in Hv as [-> _]. simpl.
    apply negb_true_iff, bool_decide_eq_false. intros ->. done.
Qed.

Lemma suffixed_identifier base k : identifier base → identifier (suffixed base k).
Proof.
  intros [Hv (ch & Hh & Ha)]. unfold suffixed. split.
  - rewrite !chars_app. rewrite !Forall_app. split_and!; [done| |apply pretty_nat_valid].
    by repeat constructor.
  - exists ch. split; [|done]. rewrite chars_app, head_app. by rewrite Hh.
Qed.

Lemma getitem_identifiers name am r am' :
  getitem name am = (r, am') →
  (∀ n a, _map am !! n = Some a → identifier a) →
  ∀ n a, _map am' !! n = Some a → identifier a.
Proof.
  intros Hrun Hok. destruct (_map am !! name) as [alias|] eqn:Hm.
  - rewrite (getitem_hit _ _ _ Hm) in Hrun. by simplify_eq.
  - destruct (_sanitize name) as [base|e|] eqn:Hs.
    + destruct (getitem_miss name am base Hm Hs) as (alias & Hr & _ & Hcase).
      rewrite Hr in Hrun. simplify_eq. simpl. intros n a.
      destruct (decide (name = n)) as [<-|?];
        rewrite ?lookup_insert_eq, ?lookup_insert_ne by done; [|apply Hok].
      intros [= <-]. apply sanitize_identifier in Hs.
      destruct Hcase as [->|(_ & k & _ & -> & _)]; [done|]. by apply suffixed_identifier.
    + rewrite (getitem_miss_raises _ _ _ Hm Hs) in Hrun. by simplify_eq.
    + by apply sanitize_not_diverge in Hs.
Qed.

Lemma requests_identifiers names : ∀ acc am r am',
  for_each names (λ acc name, alias ←' getitem name; ret (acc ++ [alias])) acc am
    = (Val r, am') →
  (∀ n a, _map am !! n = Some a → identifier a) → Forall identifier acc →
  Forall identifier r.
Proof.
  induction names as [|n names IH]; intros acc am r am'; simpl.
  - by intros [= <- <-] ? ?.
  - unfold bind at 1. unfold bind at 1.
    destruct (getitem n am) as [[a| |] am1] eqn:Hg; simpl; [|done..].
    intros Hrest Hok Hacc. eapply IH; [exact Hrest| |].
    + by eapply getitem_identifiers.
    + apply Forall_app. split; [done|]. constructor; [|done].
      eapply getitem_identifiers; [exact Hg|done|]. by eapply getitem_Val_lookup.
Qed.

(** X2. Every alias of a rendering is an identifier: it consists of letters,
    digits and underscores and starts with a letter or a digit, also when a
    counter was put behind it. *)
Theorem aliases_are_identifiers (names aliases : list string) (am : AliasMap) :
  requests names empty_alias_map = (Val aliases, am) → Forall identifier aliases.
Proof.
  intros Hrun. eapply requests_identifiers; [exact Hrun| |done].
  intros n a Hn. simpl in Hn. by rewrite lookup_empty in Hn.
Qed.

Lemma aliases_are_identifiers_witness :
  Forall identifier ["A_B"; "A_B_2"; "x1"].
Proof.
  apply (aliases_are_identifiers ["A B"; "A.B"; "<x1>"] _
           (mkAliasMap {[ "A B" := "A_B"; "A.B" := "A_B_2"; "<x1>" := "x1" ]}
              {[ "A_B"; "A_B_2"; "x1" ]})).
  by vm_compute.
Defined.

(** X3. [_sanitize] is idempotent: what it returns is an identifier without
    an underscore at either end, and is returned as it is when it is
    sanitized again. So the alias of a name that is such an identifier is, in
    a new map, the name itself. *)
Theorem sanitize_idempotent (name base : string) :
  _sanitize name = Val base →
  identifier base ∧ last (chars base) ≠ Some underscore
  ∧ _sanitize base = Val base
  ∧ (getitem base empty_alias_map).1 = Val base.
Proof.
  intros Hs. pose proof (sanitize_base _ _ Hs) as (Hv & Hh & Ht & Hne).
  assert (_sanitize base = Val base) as Hs'.
  { apply sanitize_Val. split; [|done].
    assert (sanitize_chars base = chars base) as ->.
    { unfold sanitize_chars. fold (chars base). clear -Hv.
      induction (chars base) as [|ch l IH]; [done|].
      apply Forall_cons in Hv as [Hch Hv]. rewrite fmap_cons, Hch. f_equal. auto. }
    by rewrite strip_id. }
  split_and!; [by eapply sanitize_identifier|done..|].
  destruct (getitem_miss base empty_alias_map base) as (alias & -> & _ & [->|[Hin _]]);
    [done|done|done|]. simpl in Hin. set_solver.
Qed.

Lemma sanitize_idempotent_witness : _sanitize "My_Class" = Val "My_Class".
Proof.
  apply (sanitize_idempotent "  My Class?" "My_Class"). by vm_compute.
Defined.

(** ** The operations only add *)

Lemma dict_keys_set {V} (d : list (string * V)) k v :
  dict_keys (dict_set k v d)
  = if decide (k ∈ dict_keys d) then dict_keys d else dict_keys d ++ [k].
Proof.
  case_decide.
  - by apply dict_keys_set_in.
  - rewrite dict_set_notin by done. unfold dict_keys. by rewrite fmap_app.
Qed.

Lemma dict_keys_set_prefix {V} (d : list (string * V)) k v :
  dict_keys d `prefix_of` dict_keys (dict_set k v d).
Proof. rewrite dict_keys_set. case_decide; [done | by apply prefix_app_r]. Qed.

Lemma node_kept_refl n : node_kept n n.
Proof. by split_and!. Qed.

Lemma node_kept_trans n1 n2 n3 : node_kept n1 n2 → node_kept n2 n3 → node_kept n1 n3.
Proof.
  intros (? & ? & ?) (? & ? & ?). split_and!; [congruence|auto|by etrans].
Qed.

Lemma diagram_kept_refl d : diagram_kept d d.
Proof. split_and!; [done..|]. intros k n ?. exists n. split; [done | apply node_kept_refl]. Qed.

Lemma diagram_kept_trans d1 d2 d3 :
  diagram_kept d1 d2 → diagram_kept d2 d3 → diagram_kept d1 d3.
Proof.
  intros (? & ? & H1) (? & ? & H2). split_and!; [by etrans..|].
  intros k n (n2 & Hn2 & ?)%H1. destruct (H2 _ _ Hn2) as (n3 & ? & ?).
  exists n3. split; [done|]. by eapply node_kept_trans.
Qed.

(** Putting a kept node under its key keeps the diagram. *)
Lemma set_node_kept d name node' :
  (∀ n, dict_get name (classes d) = Some n → node_kept n node') →
  diagram_kept d (set_classes (dict_set name node') d).
Proof.
  intros Hn. split_and!; simpl; [apply dict_keys_set_prefix|done|].
  intros k n Hk. rewrite dict_get_set. case_decide as Heq.
  - subst. exists node'. split; [done|]. by apply Hn.
  - exists n. split; [done|]. apply node_kept_refl.
Qed.

(** What [_ensure_class] does with a name that is not empty. *)
Lemma ensure_class_effect name stereotype d :
  name ≠ "" →
  ∃ node d',
    _ensure_class name stereotype d = (Val node, d')
    ∧ node = match dict_get name (classes d) with
             | None => mkClassNode name stereotype []
             | Some n =>
                 match c_stereotype n with
                 | None => mkClassNode (c_name n) stereotype (c_members n)
                 | Some _ => n
                 end
             end
    ∧ ((d' = d ∧ dict_get name (classes d) = Some node)
       ∨ d' = set_classes (dict_set name node) d).
Proof.
  intros Hne. unfold _ensure_class. rewrite falsy_false by done.
  unfold bind, gets, modify, ret. simpl.
  destruct (dict_get name (classes d)) as [[cn cs cm]|] eqn:Hget.
  - case_bool_decide as Hb; simpl in *.
    + destruct Hb as [_ ->]. eexists _, _. split_and!; [done..|]. by right.
    + eexists _, _. split_and!; [done| |by left].
      destruct cs as [s|]; [done|]. destruct stereotype; [|done]. by destruct Hb.
  - eexists _, _. split_and!; [done..|]. by right.
Qed.

Lemma ensure_class_kept name stereotype d :
  diagram_kept d (_ensure_class name stereotype d).2.
Proof.
  destruct (decide (name = "")) as [->|Hne].
  - rewrite ensure_class_empty. apply diagram_kept_refl.
  - destruct (ensure_class_effect name stereotype d Hne)
      as (node & d' & -> & Hnode & [[-> _]| ->]); simpl; [apply diagram_kept_refl|].
    apply set_node_kept. intros n Hn. rewrite Hn in Hnode.
    destruct (c_stereotype n) eqn:Hs; subst; [apply node_kept_refl|].
    split_and!; simpl; [done| |done]. intros s. by rewrite Hs.
Qed.

Lemma ensure_class_lookup name stereotype d node d' :
  _ensure_class name stereotype d = (Val node, d') →
  dict_get name (classes d') = Some node
  ∧ (∀ k, k ≠ name → dict_get k (classes d') = dict_get k (classes d))
  ∧ relations d' = relations d.
Proof.
  destruct (decide (name = "")) as [->|Hne]; [by rewrite ensure_class_empty|].
  destruct (ensure_class_effect name stereotype d Hne)
    as (node' & d1 & -> & _ & [[-> ?]| ->]); intros [= <- <-]; [done|]. simpl.
  split_and!; [apply dict_get_set_eq| |done].
  intros k ?. by apply dict_get_set_ne.
Qed.

Lemma add_member_kept c m vis hint d :
  diagram_kept d (add_member c m vis hint d).2.
Proof.
  unfold add_member. destruct (falsy m); [apply diagram_kept_refl|].
  unfold bind. pose proof (ensure_class_kept c None d) as Hk.
  destruct (_ensure_class c None d) as [[node| |] d1] eqn:Hrun; simpl in *; [|done..].
  eapply diagram_kept_trans; [exact Hk|]. unfold modify. simpl.
  apply ensure_class_lookup in Hrun as (Hget & _).
  apply set_node_kept. intros n Hn. rewrite Hget in Hn. injection Hn as <-.
  split_and!; simpl; [done..|]. by apply prefix_app_r.
Qed.

Lemma relate_kept a b kind label d :
  diagram_kept d (relate a b kind label d).2.
Proof.
  unfold relate. destruct (falsy a || falsy b); [apply diagram_kept_refl|].
  unfold bind. pose proof (ensure_class_kept a None d) as Hk1.
  destruct (_ensure_class a None d) as [[na| |] d1]; simpl in *; [|done..].
  pose proof (ensure_class_kept b None d1) as Hk2.
  destruct (_ensure_class b None d1) as [[nb| |] d2]; simpl in *;
    [|by eapply diagram_kept_trans..].
  eapply diagram_kept_trans; [exact Hk1|]. eapply diagram_kept_trans; [exact Hk2|].
  split_and!; simpl; [done|by apply prefix_app_r|].
  intros k n ?. exists n. split; [done | apply node_kept_refl].
Qed.

(** X4. The three operations only add to a diagram, whatever their arguments
    and also when they raise: the classes and the relations that were there
    stay where they are in the order of insertion, and a class keeps its name,
    its stereotype if it had one, and its members in front of the new ones. *)
Theorem operations_only_add :
  ∀ d name stereotype c m vis hint a b kind label,
    diagram_kept d (add_class name stereotype d).2
    ∧ diagram_kept d (add_member c m vis hint d).2
    ∧ diagram_kept d (relate a b kind label d).2.
Proof.
  intros. split_and!;
    [apply ensure_class_kept | apply add_member_kept | apply relate_kept].
Qed.

(** X5. [add_member], given names that are not empty, puts the member last
    among the members of its class and changes nothing else: the class has
    the stereotype it had, every other class is as it was, and the relations
    are as they were. *)
Theorem add_member_appends (d : ClassDiagram) (c m : string)
    (vis : Visibility) (hint : option string) :
  c ≠ "" → m ≠ "" →
  ∃ d' node,
    add_member c m vis hint d = (Val tt, d')
    ∧ dict_get c (classes d') = Some node
    ∧ c_members node
      = default [] (c_members <$> dict_get c (classes d)) ++ [mkMember m vis hint]
    ∧ c_stereotype node = dict_get c (classes d) ≫= c_stereotype
    ∧ (∀ k, k ≠ c → dict_get k (classes d') = dict_get k (classes d))
    ∧ relations d' = relations d.
Proof.
  intros Hc Hm. unfold add_member. rewrite falsy_false by done.
  destruct (ensure_class_effect c None d Hc) as (node & d1 & Hrun & Hnode & _).
  pose proof (ensure_class_lookup _ _ _ _ _ Hrun) as (Hget & Hframe & Hrel).
  rewrite (bind_val _ _ _ _ _ Hrun). unfold modify. simpl.
  eexists _, _. split; [done|]. simpl. rewrite dict_get_set_eq.
  split_and!; [done| | | |done].
  - simpl. f_equal. rewrite Hnode. destruct (dict_get c (classes d)) as [n|]; [|done].
    simpl. by destruct (c_stereotype n).
  - simpl. rewrite Hnode. destruct (dict_get c (classes d)) as [n|]; [|done].
    simpl. by destruct (c_stereotype n) eqn:Hs.
  - intros k Hk. rewrite dict_get_set_ne by done. by apply Hframe.
Qed.

Lemma add_member_appends_witness :
  ∃ d' node,
    add_member "A" "id" PUBLIC None test_stereotype = (Val tt, d')
    ∧ dict_get "A" (classes d') = Some node.
Proof.
  destruct (add_member_appends test_stereotype "A" "id" PUBLIC None)
    as (d' & node & ? & ? & _); [done|done|].
  by exists d', node.
Defined.

(** X6. The first stereotype of a class wins: after [add_class] with a
    stereotype the class has the stereotype it had before, or the given one
    if it had none, and from then on [add_class] for that name returns the
    same node and changes nothing, whatever stereotype it is given. *)
Theorem stereotype_first_wins (d : ClassDiagram) (name s : string) :
  name ≠ "" →
  ∃ node d1,
    add_class name (Some s) d = (Val node, d1)
    ∧ dict_get name (classes d1) = Some node
    ∧ c_stereotype node
      = Some (default s (dict_get name (classes d) ≫= c_stereotype))
    ∧ ∀ stereotype, add_class name stereotype d1 = (Val node, d1).
Proof.
  intros Hne. unfold add_class.
  destruct (ensure_class_effect name (Some s) d Hne) as (node & d1 & Hrun & Hnode & _).
  pose proof (ensure_class_lookup _ _ _ _ _ Hrun) as (Hget & _).
  eexists _, _. split; [exact Hrun|].
  assert (c_stereotype node
          = Some (default s (dict_get name (classes d) ≫= c_stereotype))) as Hst.
  { rewrite Hnode. destruct (dict_get name (classes d)) as [n|]; [|done].
    simpl. by destruct (c_stereotype n) eqn:Hs. }
  split_and!; [done..|].
  intros stereotype.
  destruct (ensure_class_effect name stereotype d1 Hne)
    as (node' & d2 & -> & Hnode' & Hd2).
  rewrite Hget, Hst in Hnode'. subst node'.
  destruct Hd2 as [[-> _]| ->]; [done|]. f_equal.
  destruct d1 as [cs rs]. unfold set_classes. simpl in *. f_equal.
  clear -Hget. induction cs as [|[k v] cs IH]; simpl in *; [done|].
  case_decide; simplify_eq; [done|]. f_equal. auto.
Qed.

Lemma stereotype_first_wins_witness :
  ∃ node d1,
    add_class "User" (Some "Value") test_stereotype = (Val node, d1)
    ∧ c_stereotype node = Some "Entity".
Proof.
  destruct (stereotype_first_wins test_stereotype "User" "Value")
    as (node & d1 & ? & Hget & Hst & _); [done|].
  exists node, d1. split; [done|]. rewrite Hst. by vm_compute.
Defined.

(** ** When [render] returns *)

Lemma has_alnum_iff name :
  has_alnum name ↔ ¬ Forall (λ ch, alnum ch = false) (list_ascii_of_string name).
Proof.
  unfold has_alnum, chars. induction (list_ascii_of_string name) as [|ch l IH].
  - split; [by intros ?%Exists_nil | intros []; constructor].
  - rewrite Exists_cons, Forall_cons, IH. destruct (alnum ch); naive_solver.
Qed.

Lemma sanitize_outcome name : outcome_tells [name] (_sanitize name).
Proof.
  pose proof (sanitize_raises name) as Hr. pose proof (has_alnum_iff name) as Ha.
  unfold _sanitize in *. destruct (falsy _); simpl.
  - split; [eauto|]. rewrite Forall_singleton, Ha. intros Hn. apply Hn, Hr. eauto.
  - rewrite Forall_singleton, Ha. by intros [? [=]]%Hr.
Qed.

Lemma getitem_outcome name am r am' :
  getitem name am = (r, am') → alias_keys_ok am →
  alias_keys_ok am' ∧ outcome_tells [name] r.
Proof.
  intros Hrun Hok. destruct (_map am !! name) as [alias|] eqn:Hm.
  - rewrite (getitem_hit _ _ _ Hm) in Hrun. simplify_eq. split; [done|].
    simpl. constructor; [by eapply Hok | done].
  - pose proof (sanitize_outcome name) as Hs.
    destruct (_sanitize name) as [base|e|] eqn:Heq; [| |done].
    + destruct (getitem_miss name am base Hm Heq) as (alias & Hr & _).
      rewrite Hr in Hrun. simplify_eq. split; [|exact Hs].
      intros n a. simpl. destruct (decide (name = n)) as [<-|?];
        rewrite ?lookup_insert_eq, ?lookup_insert_ne by done; [|apply Hok].
      intros _. simpl in Hs. by rewrite Forall_singleton in Hs.
    + rewrite (getitem_miss_raises _ _ _ Hm Heq) in Hrun. simplify_eq. by split.
Qed.

(** A loop whose body asks for the aliases of the names of each element,
    and does nothing else that can fail. *)
Lemma for_each_outcome {A B} (names : A → list string) (body : B → A → M AliasMap B) :
  (∀ acc x am r am', body acc x am = (r, am') → alias_keys_ok am →
     alias_keys_ok am' ∧ outcome_tells (names x) r) →
  ∀ l acc am r am', for_each l body acc am = (r, am') → alias_keys_ok am →
    alias_keys_ok am' ∧ outcome_tells (l ≫= names) r.
Proof.
  intros Hbody. induction l as [|x l IH]; intros acc am r am'; simpl.
  - intros [= <- <-] ?. split; [done|]. constructor.
  - unfold bind at 1. destruct (body acc x am) as [[b|e|] am1] eqn:Hb.
    + intros Hrest Hok. destruct (Hbody _ _ _ _ _ Hb Hok) as [Hok1 Hx].
      destruct (IH _ _ _ _ Hrest Hok1) as [Hok' Hl]. split; [done|].
      simpl in Hx. destruct r as [b'|e'|]; simpl in *; [by apply Forall_app| |done].
      destruct Hl as [? Hl]. split; [done|]. by intros [_ ?]%Forall_app.
    + intros [= <- <-] Hok. destruct (Hbody _ _ _ _ _ Hb Hok) as [Hok1 [? Hx]].
      split; [done|]. simpl. split; [done|]. by intros [? _]%Forall_app.
    + intros _ Hok. by destruct (Hbody _ _ _ _ _ Hb Hok) as [_ []].
Qed.

Lemma render_class_outcome lines c am r am' :
  render_class lines c am = (r, am') → alias_keys_ok am →
  alias_keys_ok am' ∧ outcome_tells [c_name c] r.
Proof.
  unfold render_class, bind at 1.
  destruct (getitem (c_name c) am) as [[cid|e|] am1] eqn:Hg;
    intros [= <- <-] Hok; destruct (getitem_outcome _ _ _ _ Hg Hok) as [? Ht];
    (split; [done | exact Ht]).
Qed.

Lemma render_relation_outcome lines x am r am' :
  render_relation lines x am = (r, am') → alias_keys_ok am →
  alias_keys_ok am' ∧ outcome_tells [r_src x; r_dst x] r.
Proof.
  unfold render_relation, bind at 1. intros Hrun Hok.
  destruct (getitem (r_src x) am) as [[src|e|] am1] eqn:Hg1;
    destruct (getitem_outcome _ _ _ _ Hg1 Hok) as [Hok1 H1]; [| |done].
  - unfold bind at 1 in Hrun.
    destruct (getitem (r_dst x) am1) as [[dst|e|] am2] eqn:Hg2;
      destruct (getitem_outcome _ _ _ _ Hg2 Hok1) as [Hok2 H2]; [| |done].
    + assert (Forall has_alnum [r_src x; r_dst x]) as Hboth.
      { simpl in H1, H2. rewrite Forall_singleton in H1.
        apply Forall_cons. by split. }
      destruct (truthy _); injection Hrun as <- <-; (split; [done | exact Hboth]).
    + injection Hrun as <- <-. split; [done|]. destruct H2 as [? H2].
      split; [done|]. intros [_ ?]%Forall_cons. done.
  - injection Hrun as <- <-. split; [done|]. destruct H1 as [? H1].
    split; [done|]. intros [? _]%Forall_cons. apply H1. by apply Forall_singleton.
Qed.

Lemma outcome_tells_perm {A} l1 l2 (r : outcome A) :
  l1 ≡ₚ l2 → outcome_tells l1 r → outcome_tells l2 r.
Proof. intros Hp. destruct r; simpl; rewrite ?Hp; done. Qed.

(** [render] tells, for the display names of the diagram. *)
Lemma render_tells d : outcome_tells (diagram_names d) (render d).
Proof.
  unfold render, render_lines, diagram_names.
  set (cs := sorted String.le c_name (dict_values (classes d))).
  set (rs := sorted key_le relation_key (relations d)).
  eapply (outcome_tells_perm ((cs ≫= λ c, [c_name c]) ++ (rs ≫= λ r, [r_src r; r_dst r]))).
  { apply Permutation_app.
    - unfold cs. rewrite sorted_perm. clear. induction (dict_values _); simpl; [done|].
      by f_equal.
    - unfold rs. by rewrite sorted_perm. }
  assert (alias_keys_ok empty_alias_map) as Hok0.
  { intros n a Hn. simpl in Hn. by rewrite lookup_empty in Hn. }
  unfold bind at 1.
  destruct (for_each cs render_class [] empty_alias_map) as [r1 am1] eqn:H1.
  destruct (for_each_outcome (λ c, [c_name c]) render_class
              render_class_outcome _ _ _ _ _ H1 Hok0) as [Hok1 Hc].
  destruct r1 as [lines| |]; simpl in *; [| |done].
  - unfold bind at 1.
    destruct (for_each rs render_relation lines am1) as [r2 am2] eqn:H2.
    destruct (for_each_outcome (λ r, [r_src r; r_dst r]) render_relation
                render_relation_outcome _ _ _ _ _ H2 Hok1) as [Hok2 Hr].
    destruct r2 as [lines'| |]; simpl in *; [by apply Forall_app| |done].
    destruct Hr as [? Hr]. split; [done|]. by intros [_ ?]%Forall_app.
  - destruct Hc as [? Hc]. split; [done|]. by intros [? _]%Forall_app.
Qed.

(** X7. [render] returns for every diagram whose class names and relation
    ends each have a letter or a digit, raises a [ValueError] for every other
    diagram, and does nothing else: the loop that looks for a free identifier
    always ends. *)
Theorem render_returns_iff (d : ClassDiagram) :
  ((∃ text, render d = Val text) ↔ Forall has_alnum (diagram_names d))
  ∧ ((∃ msg, render d = Raise (ValueError msg)) ↔ ¬ Forall has_alnum (diagram_names d)).
Proof.
  pose proof (render_tells d) as Htells.
  destruct (render d) as [text|e|]; simpl in Htells; [| |done].
  - split; [split; eauto|]. split; [by intros [? [=]] | done].
  - destruct Htells as [[msg ->] Hn]. split; [|split; eauto].
    split; [by intros [? [=]] | done].
Qed.

(** ** Escaping *)

Lemma prefix_char c x s :
  String.prefix (String c "") (String x s) = bool_decide (c = x).
Proof.
  simpl. destruct (ascii_dec c x), s;
    rewrite ?bool_decide_true, ?bool_decide_false by done; reflexivity.
Qed.

(** [replace] of one character. *)
Lemma replace_char c new x s :
  replace (String c "") new (String x s)
  = if bool_decide (c = x) then new +:+ replace (String c "") new s
    else String x (replace (String c "") new s).
Proof. unfold replace. cbn [replace_go]. by rewrite prefix_char. Qed.

(** The characters of [s.replace(old, new)] are characters of [s] or of
    [new]. *)
Lemma replace_go_Forall (P : ascii → Prop) old new s :
  Forall P (chars new) → Forall P (chars s) →
  ∀ skip, Forall P (chars (replace_go old new skip s)).
Proof.
  intros Hnew. unfold chars. induction s as [|x s IH]; intros Hs skip; [done|].
  apply Forall_cons in Hs as [Hx Hs]. cbn [replace_go].
  destruct skip; [|by apply IH]. case_match.
  - fold (chars (new +:+ replace_go old new (String.length old - 1) s)).
    rewrite chars_app. apply Forall_app. split; [done | by apply IH].
  - simpl. constructor; [done | by apply IH].
Qed.

Lemma replace_Forall (P : ascii → Prop) old new s :
  Forall P (chars new) → Forall P (chars s) → Forall P (chars (replace old new s)).
Proof. intros. by apply replace_go_Forall. Qed.

(** A character that is replaced by a text without it is gone. *)
Lemma replace_char_gone c new s :
  Forall (λ ch, ch ≠ c) (chars new) →
  Forall (λ ch, ch ≠ c) (chars (replace (String c "") new s)).
Proof.
  intros Hnew. induction s as [|x s IH]; [done|].
  rewrite replace_char. case_bool_decide.
  - rewrite chars_app. by apply Forall_app.
  - unfold chars. simpl. constructor; [congruence | done].
Qed.

(** A character that is replaced by itself behind [b] stands behind [b]
    wherever it is. *)
Lemma replace_char_escaped c b s :
  b ≠ c → escaped c b (chars (replace (String c "") (String b (String c "")) s)).
Proof.
  intros Hbc. induction s as [|x s [IHh IHt]]; [by split|].
  rewrite replace_char. case_bool_decide as Hx.
  - split; [simpl; congruence|]. intros [|[|i]]; simpl; [done| |apply IHt].
    intros Hh. destruct IHh. by rewrite <-Hh, head_lookup.
  - split; [simpl; congruence|]. intros [|i]; simpl; [|apply IHt].
    intros Hh. destruct IHh. by rewrite <-Hh, head_lookup.
Qed.

(** X8. An escaped link label has no line break, and each of its colons
    stands behind a backslash; an escaped stereotype has no line break. *)
Theorem escaped_texts_are_one_line :
  ∀ text,
    one_line (_escape_label text)
    ∧ escaped ":" "092" (chars (_escape_label text))
    ∧ one_line (_escape_stereotype text).
Proof.
  intros text.
  assert (one_line (replace cr " " (replace nl " " text))) as Hline.
  { unfold one_line. apply Forall_and. split.
    - apply replace_Forall; [by repeat constructor|].
      apply (replace_char_gone "010" " "). by repeat constructor.
    - apply (replace_char_gone "013" " "). by repeat constructor. }
  split_and!.
  - unfold _escape_label. apply replace_Forall; [|done]. by repeat constructor.
  - unfold _escape_label. by apply (replace_char_escaped ":" "092").
  - unfold _escape_stereotype.
    apply replace_Forall; [by repeat constructor|].
    apply replace_Forall; [by repeat constructor|]. done.
Qed.

(** X9. A quoted display name is the name between two double quotes, where
    each double quote of the name stands behind a backslash. *)
Theorem quoted_name_is_closed :
  ∀ text, ∃ body,
    _quote text = dquote +:+ body +:+ dquote
    ∧ escaped "034" "092" (chars body)
    ∧ (Forall (λ ch, ch ≠ "034"%char) (chars text) → body = text).
Proof.
  intros text. eexists. split; [done|]. split.
  - by apply (replace_char_escaped "034" "092").
  - clear. induction text as [|x s IH]; [done|]. intros [Hx Hs]%Forall_cons.
    change (backslash +:+ dquote) with (String "092" (String "034" "")) in *.
    change dquote with (String "034" "") in *.
    rewrite replace_char, bool_decide_false by done. f_equal. auto.
Qed.

End DiagramLaws.

(** * Facts about draw_metamodel.py *)

Module MetamodelSpec.
Import Diagram DiagramSpec DiagramLaws Metamodel.
Local Open Scope py_scope.

(** ** Rules for [keeps] *)

Lemma keeps_ret {A} I (a : A) : keeps I (ret a).
Proof. by intros d r d' [= _ <-]. Qed.

Lemma keeps_raise {A} I e : keeps I (raise e : M ClassDiagram A).
Proof. by intros d r d' [= _ <-]. Qed.

Lemma keeps_bind {A B} I (m : M ClassDiagram A) (k : A → M ClassDiagram B) :
  keeps I m → (∀ a, keeps I (k a)) → keeps I (bind m k).
Proof.
  intros Hm Hk d r d'. unfold bind.
  destruct (m d) as [[a|e|] d1] eqn:Hrun.
  - intros Hrest Hd. eapply Hk; [exact Hrest|]. by eapply Hm.
  - intros [= _ <-] Hd. by eapply Hm.
  - intros [= _ <-] Hd. by eapply Hm.
Qed.

Lemma keeps_for_each {A B} I (l : list A) (body : B → A → M ClassDiagram B) :
  (∀ acc x, x ∈ l → keeps I (body acc x)) → ∀ acc, keeps I (for_each l body acc).
Proof.
  induction l as [|x l IH]; intros Hbody acc; simpl.
  - apply keeps_ret.
  - apply keeps_bind.
    + apply Hbody. left.
    + intros a. apply IH. intros acc' y Hy. apply Hbody. by right.
Qed.

Lemma keeps_and {A} I J (m : M ClassDiagram A) :
  keeps I m → keeps J m → keeps (λ d, I d ∧ J d) m.
Proof. intros HI HJ d r d' Hrun [? ?]. split; [by eapply HI | by eapply HJ]. Qed.

(** ** What the operations keep *)

Lemma keeps_well_formed_add_class name stereotype :
  keeps (λ d, well_keyed d ∧ vivified d) (add_class name stereotype).
Proof.
  intros d r d' Hrun [Hw Hv]. split.
  - destruct (operations_keep_well_keyed d Hw) as (H1 & _ & _). by eapply H1.
  - unfold add_class in Hrun. eapply keys_keep_vivified; [| |exact Hv].
    + destruct (decide (name = "")) as [->|Hne].
      * rewrite ensure_class_empty in Hrun. by simplify_eq.
      * destruct (ensure_class_returns name stereotype d Hne) as (? & ? & Hr & _ & ? & _).
        rewrite Hr in Hrun. by simplify_eq.
    + intros k. by eapply ensure_class_keeps_keys.
Qed.

Lemma keeps_well_formed_add_member c m vis hint :
  keeps (λ d, well_keyed d ∧ vivified d) (add_member c m vis hint).
Proof.
  intros d r d' Hrun [Hw Hv]. split.
  - destruct (operations_keep_well_keyed d Hw) as (_ & H2 & _). by eapply H2.
  - destruct (decide (c = "" ∨ m = "")) as [Hcm|Hcm].
    + destruct (add_member_raises c m vis hint d Hcm) as [e He].
      rewrite He in Hrun. by simplify_eq.
    + assert (c ≠ "" ∧ m ≠ "") as [Hc Hm] by (split; intros ->; apply Hcm; auto).
      destruct (add_member_returns c m vis hint d Hc Hm) as (? & ? & Hr & _ & _ & ? & ? & _).
      rewrite Hr in Hrun. simplify_eq. by eapply keys_keep_vivified.
Qed.

Lemma keeps_well_formed_relate a b kind label :
  keeps (λ d, well_keyed d ∧ vivified d) (relate a b kind label).
Proof.
  intros d r d' Hrun [Hw Hv]. split.
  - destruct (operations_keep_well_keyed d Hw) as (_ & _ & H3). by eapply H3.
  - destruct (decide (a = "" ∨ b = "")) as [Hab|Hab].
    + destruct (relate_raises a b kind label d Hab) as [e He].
      rewrite He in Hrun. by simplify_eq.
    + assert (a ≠ "" ∧ b ≠ "") as [Ha Hb] by (split; intros ->; apply Hab; auto).
      destruct (relate_returns a b kind label d Ha Hb) as (? & Hr & Hsa & Hsb & Hrel & Hkeys & _).
      rewrite Hr in Hrun. simplify_eq. intros x. rewrite Hrel, elem_of_app.
      intros [Hx| ->%list_elem_of_singleton]; [|done].
      destruct (Hv x Hx). split; auto.
Qed.

Lemma keeps_members_ensure_class Q name stereotype :
  keeps (members_ok Q) (_ensure_class name stereotype).
Proof.
  intros d r d' Hrun Hd.
  destruct (decide (name = "")) as [->|Hne].
  { rewrite ensure_class_empty in Hrun. by simplify_eq. }
  destruct (ensure_class_effect name stereotype d Hne)
    as (node & d1 & Hr & Hnode & [[-> _]| ->]); rewrite Hr in Hrun; simplify_eq; [done|].
  intros k n mem. simpl. rewrite dict_get_set. case_decide as Hk; [|apply Hd].
  subst k. intros [= <-].
  destruct (dict_get name (classes d)) as [n|] eqn:Hget.
  - intros Hmem. apply (Hd name n); [done|]. by destruct (c_stereotype n).
  - by intros ?%elem_of_nil.
Qed.

Lemma keeps_members_add_member (Q : string → Member → Prop) c m vis hint :
  Q c (mkMember m vis hint) → keeps (members_ok Q) (add_member c m vis hint).
Proof.
  intros HQ. unfold add_member. destruct (falsy m); [apply keeps_raise|].
  intros d r d'. unfold bind.
  destruct (_ensure_class c None d) as [[node| |] d1] eqn:Hrun;
    pose proof (keeps_members_ensure_class Q c None d _ d1 Hrun) as Hk;
    [|intros [= _ <-]; done..].
  intros [= _ <-] Hd. specialize (Hk Hd).
  apply ensure_class_lookup in Hrun as (Hget & _).
  intros k n mem. simpl. rewrite dict_get_set. case_decide as Heq; [|apply Hk].
  subst k. intros [= <-]. simpl. rewrite elem_of_app, list_elem_of_singleton.
  intros [?| ->]; [by eapply Hk | done].
Qed.

Lemma keeps_members_relate Q a b kind label :
  keeps (members_ok Q) (relate a b kind label).
Proof.
  unfold relate. destruct (_ || _); [apply keeps_raise|].
  apply keeps_bind; [apply keeps_members_ensure_class|]. intros _.
  apply keeps_bind; [apply keeps_members_ensure_class|]. intros _.
  by intros d r d' [= _ <-].
Qed.

Lemma keeps_relations_ensure_class Q name stereotype :
  keeps (relations_ok Q) (_ensure_class name stereotype).
Proof.
  intros d r d' Hrun Hd.
  destruct (decide (name = "")) as [->|Hne].
  { rewrite ensure_class_empty in Hrun. by simplify_eq. }
  destruct (ensure_class_returns name stereotype d Hne) as (? & ? & Hr & _ & Hrel & _).
  rewrite Hr in Hrun. simplify_eq. intros rel. rewrite Hrel. apply Hd.
Qed.

Lemma keeps_relations_add_member Q c m vis hint :
  keeps (relations_ok Q) (add_member c m vis hint).
Proof.
  unfold add_member. destruct (falsy m); [apply keeps_raise|].
  apply keeps_bind; [apply keeps_relations_ensure_class|]. intros node.
  by intros d r d' [= _ <-].
Qed.

Lemma keeps_relations_relate (Q : Relation → Prop) a b kind label :
  Q (mkRelation a b kind label) → keeps (relations_ok Q) (relate a b kind label).
Proof.
  intros HQ. unfold relate. destruct (_ || _); [apply keeps_raise|].
  apply keeps_bind; [apply keeps_relations_ensure_class|]. intros _.
  apply keeps_bind; [apply keeps_relations_ensure_class|]. intros _.
  intros d r d' [= _ <-] Hd x. simpl. rewrite elem_of_app, list_elem_of_singleton.
  intros [?| ->]; [by apply Hd | done].
Qed.

(** ** The operations end *)

Lemma ends_ret {A} (a : A) : ends (ret a).
Proof. by intros d. Qed.

Lemma ends_bind {A B} (m : M ClassDiagram A) (k : A → M ClassDiagram B) :
  ends m → (∀ a, ends (k a)) → ends (bind m k).
Proof.
  intros Hm Hk d. unfold bind. specialize (Hm d).
  destruct (m d) as [[a|e|] d1]; simpl in *; [apply Hk|done..].
Qed.

Lemma ends_for_each {A B} (l : list A) (body : B → A → M ClassDiagram B) :
  (∀ acc x, ends (body acc x)) → ∀ acc, ends (for_each l body acc).
Proof.
  intros Hbody. induction l as [|x l IH]; intros acc; simpl; [apply ends_ret|].
  by apply ends_bind.
Qed.

Lemma ends_ensure_class name stereotype : ends (_ensure_class name stereotype).
Proof.
  intros d. destruct (decide (name = "")) as [->|Hne].
  - by rewrite ensure_class_empty.
  - by destruct (ensure_class_returns name stereotype d Hne) as (? & ? & -> & _).
Qed.

Lemma ends_add_member c m vis hint : ends (add_member c m vis hint).
Proof.
  unfold add_member. destruct (falsy m); [done|].
  apply ends_bind; [apply ends_ensure_class | done].
Qed.

Lemma ends_relate a b kind label : ends (relate a b kind label).
Proof.
  unfold relate. destruct (_ || _); [done|].
  apply ends_bind; [apply ends_ensure_class|]. intros _.
  apply ends_bind; [apply ends_ensure_class | done].
Qed.

(** ** The loops of DrawMetamodel *)

Lemma dict_union_cons {V} (a b : list (string * V)) k v :
  dict_union a ((k, v) :: b) = dict_union (dict_set k v a) b.
Proof. done. Qed.

Lemma dict_union_NoDup {V} (b a : list (string * V)) :
  NoDup (dict_keys a) → NoDup (dict_keys (dict_union a b)).
Proof.
  revert a. induction b as [|[k v] b IH]; intros a Ha; [done|].
  rewrite dict_union_cons. by apply IH, dict_set_NoDup.
Qed.

(** [a | b]: the entry of [b] wins. *)
Lemma dict_get_union {V} (b a : list (string * V)) k :
  NoDup (dict_keys b) →
  dict_get k (dict_union a b)
  = match dict_get k b with Some v => Some v | None => dict_get k a end.
Proof.
  revert a. induction b as [|[k1 v1] b IH]; intros a Hb; [done|].
  unfold dict_keys in Hb. simpl in Hb. apply NoDup_cons in Hb as [Hk1 Hb].
  rewrite dict_union_cons, IH by done. simpl. case_decide as Hk.
  - subst k1. apply dict_get_None in Hk1. rewrite Hk1. apply dict_get_set_eq.
  - by rewrite dict_get_set_ne.
Qed.

Section loops.
Context (nts : list ScoreNeedType).
Context (attributes : option (list string)) (links : option str_or_list).

Local Abbreviation well_formed := (λ d, well_keyed d ∧ vivified d).

Lemma add_attributes_props class_name nt attrs :
  ends (_add_attributes_to_class class_name nt attrs)
  ∧ keeps well_formed (_add_attributes_to_class class_name nt attrs)
  ∧ ∀ Q, keeps (relations_ok Q) (_add_attributes_to_class class_name nt attrs).
Proof.
  unfold _add_attributes_to_class. split_and!; [| |intros Q].
  - apply ends_bind; [|intros _]; apply ends_for_each; intros _ [opt allowed];
      (case_bool_decide; [apply ends_add_member | apply ends_ret]).
  - apply keeps_bind; [|intros _]; apply keeps_for_each; intros _ [opt allowed] _;
      (case_bool_decide; [apply keeps_well_formed_add_member | apply keeps_ret]).
  - apply keeps_bind; [|intros _]; apply keeps_for_each; intros _ [opt allowed] _;
      (case_bool_decide; [apply keeps_relations_add_member | apply keeps_ret]).
Qed.

Lemma add_attributes_members class_name nt attrs :
  nt ∈ nts → directive nt = class_name → attributes = Some attrs →
  keeps (members_ok (member_from nts attributes))
    (_add_attributes_to_class class_name nt attrs).
Proof.
  intros Hnt Hdir Hattrs. unfold _add_attributes_to_class.
  apply keeps_bind; [|intros _]; apply keeps_for_each; intros _ [opt allowed] Hin;
    (case_bool_decide; [apply keeps_members_add_member | apply keeps_ret]);
    exists nt, attrs, allowed; split_and!; auto.
Qed.

Lemma add_links_props class_name nt l :
  ends (_add_links_to_class class_name nt l)
  ∧ keeps well_formed (_add_links_to_class class_name nt l)
  ∧ ∀ Q, keeps (members_ok Q) (_add_links_to_class class_name nt l).
Proof.
  unfold _add_links_to_class. split_and!; [| |intros Q].
  - apply ends_for_each. intros _ [link_name targets].
    apply ends_for_each. intros _ target. apply ends_relate.
  - apply keeps_for_each. intros _ [link_name targets] _.
    apply keeps_for_each. intros _ target _. apply keeps_well_formed_relate.
  - apply keeps_for_each. intros _ [link_name targets] _.
    apply keeps_for_each. intros _ target _. apply keeps_members_relate.
Qed.

Lemma add_links_relations class_name nt l :
  nt ∈ nts → directive nt = class_name → links = Some l → nonempty links = true →
  links_ok nt →
  keeps (relations_ok (relation_from nts links)) (_add_links_to_class class_name nt l).
Proof.
  intros Hnt Hdir Hlinks Hne [Hm Ho]. unfold _add_links_to_class.
  apply keeps_for_each. intros _ [link_name targets] [Hsel Hin]%list_elem_of_filter.
  apply keeps_for_each. intros _ target Htarget. apply keeps_relations_relate.
  simpl in Hsel. apply dict_get_elem_of in Hin; [|by apply dict_union_NoDup].
  rewrite dict_get_union in Hin by done.
  exists nt, l, link_name, targets, target. split_and!; [done..| |done|by rewrite Hdir].
  destruct (dict_get link_name (optional_links nt)); [left|right]; done.
Qed.
End loops.


Lemma draw_types_ends nts attributes links : ends (draw_types nts attributes links).
Proof.
  unfold draw_types. apply ends_for_each. intros _ nt.
  apply ends_bind; [apply ends_ensure_class|]. intros _. apply ends_bind.
  - destruct attributes as [[|a attrs]|]; [apply ends_ret| |apply ends_ret].
    apply add_attributes_props.
  - intros _. destruct links as [l|]; [|apply ends_ret].
    destruct (nonempty _); [apply add_links_props | apply ends_ret].
Qed.

Lemma draw_types_well_formed nts attributes links :
  keeps (λ d, well_keyed d ∧ vivified d) (draw_types nts attributes links).
Proof.
  unfold draw_types. apply keeps_for_each. intros _ nt _.
  apply keeps_bind; [apply keeps_well_formed_add_class|]. intros _. apply keeps_bind.
  - destruct attributes as [[|a attrs]|]; [apply keeps_ret| |apply keeps_ret].
    apply add_attributes_props.
  - intros _. destruct links as [l|]; [|apply keeps_ret].
    destruct (nonempty _); [apply add_links_props | apply keeps_ret].
Qed.

Lemma empty_diagram_well_formed : well_keyed empty_diagram ∧ vivified empty_diagram.
Proof.
  split; [split; [apply NoDup_nil_2 | constructor]|]. by intros r ?%elem_of_nil.
Qed.

(** X10. A call with an empty list of types raises a [ValueError]. Types
    that the configuration does not know are no error: a call with types of
    which none is a directive of the configuration returns the text of the
    empty diagram, a line break, whatever attributes and links are asked
    for. *)
Theorem unknown_types_draw_nothing (needs_types : list ScoreNeedType)
    (types : str_or_list) (attributes : option (list string))
    (links : option str_or_list) :
  Forall (λ nt, directive nt ∉ as_list types) needs_types →
  __call__ needs_types types attributes links
  = if bool_decide (as_list types = [])
    then Raise (ValueError "No need types found for directives: []")
    else Val nl.
Proof.
  intros Hnone. unfold __call__, _get_need_types.
  destruct (as_list types) as [|t ts] eqn:Hts; [done|].
  rewrite bool_decide_false by done. rewrite bool_decide_false by done.
  assert (filter (λ nt, directive nt ∈ t :: ts) needs_types = []) as ->; [|done].
  induction Hnone as [|nt l Hnt _ IH]; [done|].
  rewrite filter_cons. by rewrite decide_False.
Qed.

Lemma unknown_types_draw_nothing_witness :
  __call__ example_types (List ["feat"; "comp"]) (Some ["id"]) (Some (Str "all")) = Val nl.
Proof.
  apply (unknown_types_draw_nothing example_types (List ["feat"; "comp"])).
  by apply (bool_decide_unpack _).
Defined.

(** X11. The diagram of a call is well formed, whatever the configuration
    and the arguments, and also when the call raises on the way: it holds
    each class once and under its name, and both ends of each relation are
    classes of it. A call is never cut off. *)
Theorem metamodel_diagram_well_formed :
  ∀ needs_types types nts attributes links,
    let d := (draw_types nts attributes links empty_diagram).2 in
    well_keyed d ∧ vivified d
    ∧ __call__ needs_types types attributes links ≠ Diverge.
Proof.
  intros needs_types types nts attributes links d.
  assert (well_keyed d ∧ vivified d) as [? ?].
  { eapply (draw_types_well_formed nts attributes links empty_diagram);
      [apply surjective_pairing | apply empty_diagram_well_formed]. }
  split_and!; [done..|].
  unfold __call__, _get_need_types. case_bool_decide; [done|].
  pose proof (draw_types_ends (filter (λ nt, directive nt ∈ as_list types) needs_types)
                attributes links empty_diagram) as Hends.
  clearbody d.
  destruct (draw_types _ _ _ _) as [[[]| |] d1]; simpl in *; [|done..].
  pose proof (render_tells d1) as Ht. by destruct (render d1).
Qed.

(** X12. Every member of the diagram of a call stands for an option of a
    requested need type: it is in the class of that need type, its name is
    one of the attributes that were asked for, its type hint is the allowed
    values of the option, and it is public if the option is mandatory and
    private if it is optional. Without attributes there are no members. *)
Theorem members_are_requested_options :
  ∀ nts attributes links,
    members_ok (member_from nts attributes)
      (draw_types nts attributes links empty_diagram).2.
Proof.
  intros nts attributes links.
  assert (keeps (members_ok (member_from nts attributes))
            (draw_types nts attributes links)) as Hkeeps.
  { unfold draw_types. apply keeps_for_each. intros _ nt Hnt.
    apply keeps_bind; [apply keeps_members_ensure_class|]. intros _. apply keeps_bind.
    - destruct attributes as [[|a attrs]|] eqn:Ha; [apply keeps_ret| |apply keeps_ret].
      by apply add_attributes_members.
    - intros _. destruct links as [l|]; [|apply keeps_ret].
      destruct (nonempty _); [apply add_links_props | apply keeps_ret]. }
  eapply Hkeeps; [apply surjective_pairing|]. intros k node mem Hget. done.
Qed.

(** X13. Every relation of the diagram of a call stands for a selected link
    of a requested need type: it is an association from the need type to a
    target of the link, labelled with the name of the link, and the link is
    among the links asked for or all links were asked for. Where a need type
    has a mandatory and an optional link of one name, the targets are those
    of the optional link. Without links there are no relations. *)
Theorem relations_are_selected_links (nts : list ScoreNeedType)
    (attributes : option (list string)) (links : option str_or_list) :
  Forall links_ok nts →
  relations_ok (relation_from nts links)
    (draw_types nts attributes links empty_diagram).2.
Proof.
  intros Hok. rewrite Forall_forall in Hok.
  assert (keeps (relations_ok (relation_from nts links))
            (draw_types nts attributes links)) as Hkeeps.
  { unfold draw_types. apply keeps_for_each. intros _ nt Hnt.
    apply keeps_bind; [apply keeps_relations_ensure_class|]. intros _. apply keeps_bind.
    - destruct attributes as [[|a attrs]|]; [apply keeps_ret| |apply keeps_ret].
      apply add_attributes_props.
    - intros _. destruct links as [l|] eqn:Hl; [|apply keeps_ret].
      destruct (nonempty _) eqn:Hne; [|apply keeps_ret].
      apply add_links_relations; auto. }
  eapply Hkeeps; [apply surjective_pairing|]. by intros r ?%elem_of_nil.
Qed.

Lemma relations_are_selected_links_witness :
  Forall links_ok example_types
  ∧ relations_ok (relation_from example_types (Some (List ["satisfies"])))
      (draw_types example_types None (Some (List ["satisfies"])) empty_diagram).2.
Proof.
  assert (Forall links_ok example_types) as Hok.
  { repeat constructor; by apply (bool_decide_unpack _). }
  split; [done|]. by apply (relations_are_selected_links example_types).
Defined.

(** ** What was asked for is drawn *)

Lemma grows_ret {A} (a : A) : grows (ret a).
Proof. intros d. apply diagram_kept_refl. Qed.

Lemma grows_bind {A B} (m : M ClassDiagram A) (k : A → M ClassDiagram B) :
  grows m → (∀ a, grows (k a)) → grows (bind m k).
Proof.
  intros Hm Hk d. unfold bind. specialize (Hm d).
  destruct (m d) as [[a|e|] d1]; simpl in *; [|done..].
  eapply diagram_kept_trans; [exact Hm | apply Hk].
Qed.

Lemma grows_for_each {A B} (l : list A) (body : B → A → M ClassDiagram B) :
  (∀ acc x, grows (body acc x)) → ∀ acc, grows (for_each l body acc).
Proof.
  intros Hbody. induction l as [|x l IH]; intros acc; simpl; [apply grows_ret|].
  by apply grows_bind.
Qed.

Lemma grows_options class_name (attrs : list string) vis
    (options : list (string * string)) :
  grows (for_each options (λ (_ : unit) '(opt, allowed_values),
           if bool_decide (opt ∈ attrs)
           then add_member class_name opt vis (Some allowed_values)
           else ret tt) tt).
Proof.
  apply grows_for_each. intros _ [opt allowed].
  case_bool_decide; [intros d; apply add_member_kept | apply grows_ret].
Qed.

Lemma grows_add_attributes class_name nt attrs :
  grows (_add_attributes_to_class class_name nt attrs).
Proof.
  unfold _add_attributes_to_class.
  apply grows_bind;
    [exact (grows_options class_name attrs PUBLIC _)
    |intros _; exact (grows_options class_name attrs PRIVATE _)].
Qed.

Lemma grows_add_links class_name nt l : grows (_add_links_to_class class_name nt l).
Proof.
  unfold _add_links_to_class. apply grows_for_each. intros _ [link_name targets].
  apply grows_for_each. intros _ target d. apply relate_kept.
Qed.

(** What a turn of a loop has reached is there when the loop returns, if it
    stays when the diagram grows. *)
Lemma for_each_reaches {A B} (body : B → A → M ClassDiagram B)
    (P : ClassDiagram → Prop) x :
  (∀ acc y, grows (body acc y)) →
  (∀ d d', diagram_kept d d' → P d → P d') →
  (∀ acc d b d', body acc x d = (Val b, d') → P d') →
  ∀ l, x ∈ l → ∀ acc d r d', for_each l body acc d = (Val r, d') → P d'.
Proof.
  intros Hgrows Hstable Hx. induction l as [|y l IH]; [by intros ?%elem_of_nil|].
  intros Hin acc d r d'. rewrite DrawSpec.for_each_cons.
  destruct (body acc y d) as [[b| |] d1] eqn:Hbody; [|done..].
  intros Hrest. apply elem_of_cons in Hin as [<-|Hin].
  - eapply Hstable; [|by eapply Hx].
    pose proof (grows_for_each l body Hgrows b d1) as Hk. by rewrite Hrest in Hk.
  - by eapply IH.
Qed.

Lemma has_member_stable k mem d d' :
  diagram_kept d d' → has_member k mem d → has_member k mem d'.
Proof.
  intros (_ & _ & Hk) (node & Hget & Hmem).
  destruct (Hk _ _ Hget) as (node' & Hget' & _ & _ & Hpre).
  exists node'. split; [done|]. destruct Hpre as [more ->]. apply elem_of_app. by left.
Qed.

Lemma relation_stable r d d' :
  diagram_kept d d' → r ∈ relations d → r ∈ relations d'.
Proof. intros (_ & [more ->] & _) ?. apply elem_of_app. by left. Qed.

Lemma add_member_Val c m vis hint d b d' :
  add_member c m vis hint d = (Val b, d') → has_member c (mkMember m vis hint) d'.
Proof.
  intros Hrun. destruct (decide (c = "" ∨ m = "")) as [Hcm|Hcm].
  - destruct (add_member_raises c m vis hint d Hcm) as [e He]. congruence.
  - assert (c ≠ "" ∧ m ≠ "") as [Hc Hm] by (split; intros ->; apply Hcm; auto).
    destruct (add_member_returns c m vis hint d Hc Hm) as (node & d1 & Hr & ? & ? & _).
    rewrite Hr in Hrun. simplify_eq. by exists node.
Qed.

Lemma relate_Val a b kind label d u d' :
  relate a b kind label d = (Val u, d') → mkRelation a b kind label ∈ relations d'.
Proof.
  intros Hrun. destruct (decide (a = "" ∨ b = "")) as [Hab|Hab].
  - destruct (relate_raises a b kind label d Hab) as [e He]. congruence.
  - assert (a ≠ "" ∧ b ≠ "") as [Ha Hb] by (split; intros ->; apply Hab; auto).
    destruct (relate_returns a b kind label d Ha Hb) as (d1 & Hr & _ & _ & Hrel & _).
    rewrite Hr in Hrun. simplify_eq. rewrite Hrel. apply elem_of_app. right. left.
Qed.

Lemma add_attributes_reaches class_name nt attrs opt allowed d u d' :
  _add_attributes_to_class class_name nt attrs d = (Val u, d') → opt ∈ attrs →
  ((opt, allowed) ∈ mandatory_options nt →
     has_member class_name (mkMember opt PUBLIC (Some allowed)) d')
  ∧ ((opt, allowed) ∈ optional_options nt →
       has_member class_name (mkMember opt PRIVATE (Some allowed)) d').
Proof.
  unfold _add_attributes_to_class. intros (u1 & d1 & H1 & H2)%DrawSpec.bind_Val_inv Hopt.
  pose proof (λ vis, for_each_reaches
      (λ (_ : unit) '(opt, allowed_values),
         if bool_decide (opt ∈ attrs)
         then add_member class_name opt vis (Some allowed_values) else ret tt)
      (has_member class_name (mkMember opt vis (Some allowed))) (opt, allowed)) as Hreach.
  split; intros Hin.
  - eapply has_member_stable.
    { pose proof (grows_options class_name attrs PRIVATE (optional_options nt) d1) as Hk.
      destruct u1. rewrite H2 in Hk. exact Hk. }
    eapply (Hreach PUBLIC); [| | |exact Hin|exact H1].
    + intros _ [o a]. case_bool_decide; [intros ?; apply add_member_kept | apply grows_ret].
    + apply has_member_stable.
    + intros acc0 d0 b d0'. rewrite bool_decide_true by done. apply add_member_Val.
  - eapply (Hreach PRIVATE); [| | |exact Hin|exact H2].
    + intros _ [o a]. case_bool_decide; [intros ?; apply add_member_kept | apply grows_ret].
    + apply has_member_stable.
    + intros acc0 d0 b d0'. rewrite bool_decide_true by done. apply add_member_Val.
Qed.

Lemma add_links_reaches class_name nt l link_name targets target d u d' :
  _add_links_to_class class_name nt l d = (Val u, d') →
  selected l link_name = true →
  (link_name, targets) ∈ dict_union (mandatory_links nt) (optional_links nt) →
  target ∈ targets →
  mkRelation class_name (target_name target) ASSOCIATION (Some link_name) ∈ relations d'.
Proof.
  unfold _add_links_to_class. intros Hrun Hsel Hin Htarget.
  eapply (for_each_reaches _
            (λ d, mkRelation class_name (target_name target) ASSOCIATION (Some link_name)
                    ∈ relations d) (link_name, targets)); [| | | |exact Hrun].
  - intros _ [ln ts]. apply grows_for_each. intros _ t d0. apply relate_kept.
  - apply relation_stable.
  - intros acc0 d0 b d0'.
    apply (for_each_reaches _
            (λ d, mkRelation class_name (target_name target) ASSOCIATION (Some link_name)
                    ∈ relations d) target); [| | |done].
    + intros _ t d1. apply relate_kept.
    + apply relation_stable.
    + intros acc1 d1 b1 d1'. apply relate_Val.
  - apply list_elem_of_filter. by split.
Qed.

Lemma grows_draw_types_body nt attributes links :
  grows (add_class (directive nt) (title nt) ;;'
         match attributes with
         | Some ((_ :: _) as attributes) =>
             _add_attributes_to_class (directive nt) nt attributes
         | _ => ret tt
         end ;;'
         match links with
         | Some l =>
             if nonempty links then _add_links_to_class (directive nt) nt l else ret tt
         | None => ret tt
         end).
Proof.
  apply grows_bind; [intros d; apply ensure_class_kept|]. intros _. apply grows_bind.
  - destruct attributes as [[|a attrs]|]; [apply grows_ret| |apply grows_ret].
    apply grows_add_attributes.
  - intros _. destruct links as [l|]; [|apply grows_ret].
    destruct (nonempty _); [apply grows_add_links | apply grows_ret].
Qed.

(** X14. What was asked for is drawn: when the loop over the need types
    returns, the class of each need type has a public member for each of its
    mandatory options and a private one for each of its optional options that
    is among the attributes, with the allowed values as type hint; and the
    diagram has a relation for each target of each link of the need type that
    is selected. *)
Theorem requested_parts_are_drawn (nts : list ScoreNeedType)
    (attributes : option (list string)) (links : option str_or_list)
    (d : ClassDiagram) (nt : ScoreNeedType) :
  draw_types nts attributes links empty_diagram = (Val tt, d) → nt ∈ nts →
  (∀ attrs opt allowed, attributes = Some attrs → opt ∈ attrs →
     ((opt, allowed) ∈ mandatory_options nt →
        has_member (directive nt) (mkMember opt PUBLIC (Some allowed)) d)
     ∧ ((opt, allowed) ∈ optional_options nt →
          has_member (directive nt) (mkMember opt PRIVATE (Some allowed)) d))
  ∧ (∀ l link_name targets target,
       links = Some l → nonempty links = true → selected l link_name = true →
       (link_name, targets) ∈ dict_union (mandatory_links nt) (optional_links nt) →
       target ∈ targets →
       mkRelation (directive nt) (target_name target) ASSOCIATION (Some link_name)
         ∈ relations d).
Proof.
  intros Hrun Hnt. unfold draw_types in Hrun. split.
  - intros attrs opt allowed -> Hopt.
    pose proof (λ vis, for_each_reaches _
      (has_member (directive nt) (mkMember opt vis (Some allowed))) nt
      (λ _ nt, grows_draw_types_body nt (Some attrs) links)
      (has_member_stable _ _)) as Hreach.
    split; intros Hin.
    + eapply (Hreach PUBLIC); [|exact Hnt|exact Hrun].
      intros acc0 d0 b d0' (? & d1 & _ & (? & d2 & Hattrs & Hlinks)%DrawSpec.bind_Val_inv)
        %DrawSpec.bind_Val_inv.
      eapply has_member_stable.
      { assert (grows (match links with
                       | Some l => if nonempty links
                                   then _add_links_to_class (directive nt) nt l else ret tt
                       | None => ret tt
                       end)) as Hg.
        { destruct links as [l|]; [|apply grows_ret].
          destruct (nonempty _); [apply grows_add_links | apply grows_ret]. }
        specialize (Hg d2). rewrite Hlinks in Hg. exact Hg. }
      destruct attrs as [|a attrs]; [by apply elem_of_nil in Hopt|].
      by eapply add_attributes_reaches.
    + eapply (Hreach PRIVATE); [|exact Hnt|exact Hrun].
      intros acc0 d0 b d0' (? & d1 & _ & (? & d2 & Hattrs & Hlinks)%DrawSpec.bind_Val_inv)
        %DrawSpec.bind_Val_inv.
      eapply has_member_stable.
      { assert (grows (match links with
                       | Some l => if nonempty links
                                   then _add_links_to_class (directive nt) nt l else ret tt
                       | None => ret tt
                       end)) as Hg.
        { destruct links as [l|]; [|apply grows_ret].
          destruct (nonempty _); [apply grows_add_links | apply grows_ret]. }
        specialize (Hg d2). rewrite Hlinks in Hg. exact Hg. }
      destruct attrs as [|a attrs]; [by apply elem_of_nil in Hopt|].
      by eapply add_attributes_reaches.
  - intros l link_name targets target -> Hne Hsel Hin Htarget.
    eapply (for_each_reaches _
      (λ d, mkRelation (directive nt) (target_name target) ASSOCIATION (Some link_name)
              ∈ relations d) nt
      (λ _ nt, grows_draw_types_body nt attributes (Some l))
      (relation_stable _)); [|exact Hnt|exact Hrun].
    intros acc0 d0 b d0' (? & d1 & _ & (? & d2 & _ & Hlinks)%DrawSpec.bind_Val_inv)
      %DrawSpec.bind_Val_inv.
    rewrite Hne in Hlinks. by eapply add_links_reaches.
Qed.

Lemma requested_parts_are_drawn_witness :
  mkRelation "req" "feat" ASSOCIATION (Some "satisfies")
    ∈ relations (draw_types example_types (Some ["id"]) (Some (Str "all")) empty_diagram).2.
Proof.
  destruct (requested_parts_are_drawn example_types (Some ["id"]) (Some (Str "all"))
              (draw_types example_types (Some ["id"]) (Some (Str "all")) empty_diagram).2
              req_type) as [_ Hrel].
  - by vm_compute.
  - left.
  - apply (Hrel (Str "all") "satisfies" [TargetType "feat"] (TargetType "feat"));
      [done|done|done| |left].
    by apply (bool_decide_unpack _).
Defined.

End MetamodelSpec.

(** * Further facts about the drawing functions *)

Module DrawLaws.
Import Draw DrawSpec.
Local Open Scope py_scope.

(** ** No drawing raises a [KeyError] *)

Section no_key_error.
Context (all_needs : gmap string Need).

Local Abbreviation gk c := (is_Some (all_needs !! c)).
Local Abbreviation K := (users_known all_needs).
Local Abbreviation safe fixed m := (triple (K fixed) m (post (λ _, True) False True)).

Lemma safe_info fixed e : safe fixed (info e).
Proof. intros w Hw. done. Qed.

Lemma safe_gets {A} fixed (f : world → A) : safe fixed (gets f).
Proof. by apply triple_gets. Qed.

Lemma safe_item fixed key : gk key → safe fixed (item all_needs key).
Proof. intros [n Hn]. unfold item. rewrite Hn. by intros w Hw. Qed.

Lemma safe_append fixed l x : gk x → safe fixed (append l x).
Proof.
  intros Hx w [Hall Hfix]. split; [done|]. split; [|done]. simpl.
  eapply Forall_impl; [exact Hall|]. intros [k l'] (Hk & Hdom & Hl'). simpl in *.
  split_and!; [done|rewrite dom_insert; set_solver|].
  unfold deref. destruct (decide (l = l')) as [->|Hne].
  - rewrite lookup_insert_eq. simpl. apply Forall_app. split; [done|]. by constructor.
  - by rewrite lookup_insert_ne.
Qed.

Lemma users_known_alloc fixed v w :
  K fixed w → K fixed (set_heap (insert (fresh (dom (heap w))) v) w).
Proof.
  intros [Hall Hfix]. split; [|done]. simpl.
  eapply Forall_impl; [exact Hall|]. intros [k l'] (Hk & Hdom & Hl'). simpl in *.
  split_and!; [done|rewrite dom_insert; set_solver|].
  unfold deref. rewrite lookup_insert_ne; [done|].
  intros <-. by apply is_fresh in Hdom.
Qed.

Lemma safe_registry_set fixed r k v :
  (r = ProcUsed → fixed = None ∧ gk k ∧ Forall (λ c, gk c) v) →
  safe fixed (registry_set r k v).
Proof.
  intros Hr w Hw. rewrite registry_set_eq. split; [done|]. simpl.
  pose proof (users_known_alloc fixed v w Hw) as [Hall Hfix].
  destruct r; [done|]. destruct (Hr eq_refl) as (-> & Hk & Hv).
  split; [|done]. simpl in *. apply dict_set_Forall; [done|]. simpl.
  split_and!; [done|rewrite dom_insert; set_solver|].
  unfold deref. by rewrite lookup_insert_eq.
Qed.

Lemma safe_ensure_entry fixed r iface v :
  (r = ProcUsed → fixed = None ∧ gk iface ∧ Forall (λ c, gk c) v) →
  safe fixed (cur ←' registry_get r iface;
              (if bool_decide (cur = []) then registry_set r iface v else ret tt) ;;'
              registry_item r iface).
Proof.
  intros Hr w Hw. destruct (ensure_entry_eq r iface v w) as (l & w' & -> & Hcase).
  simpl. split; [done|]. destruct Hcase as [[-> _]|[-> ->]]; [done|].
  pose proof (safe_registry_set fixed r iface v Hr w Hw) as [_ Hw'].
  by rewrite registry_set_eq in Hw'.
Qed.

Lemma safe_credit_implementer fixed r need iface iface_id (linkage_text : text) :
  gk (id need) → (r = ProcUsed → fixed = None ∧ gk iface) →
  safe fixed
    (cur ←' registry_get r iface;
     (if bool_decide (cur = []) then registry_set r iface [] else ret tt) ;;'
     l ←' registry_item r iface;
     credited ←' read l;
     if bool_decide (id need ∈ credited) then ret linkage_text
     else
       append l (id need) ;;'
       ret (linkage_text ++ [Link (id need) "-u->" iface_id "implements"])).
Proof.
  intros Hneed Hr.
  eapply (triple_ext _ (bind (cur ←' registry_get r iface;
     (if bool_decide (cur = []) then registry_set r iface [] else ret tt) ;;'
     registry_item r iface)%py _)).
  { intros w. unfold bind.
    destruct (registry_get r iface w) as [[cur|e|] w1]; [|done|done].
    case_bool_decide; [|done].
    by destruct (registry_set r iface [] w1) as [[[]|e|] w2]. }
  eapply triple_bind with (P1 := λ _, True).
  { apply safe_ensure_entry. intros (-> & ?)%Hr. split_and!; [done..|constructor]. }
  intros l _. eapply triple_bind; [apply safe_gets|].
  intros credited _. case_bool_decide; [by apply triple_ret|].
  eapply triple_bind; [by apply safe_append|]. intros _ _. by apply triple_ret.
Qed.

Lemma safe_credit_user fixed r need iface (linkage_text : text) :
  gk (id need) → (r = ProcUsed → fixed = None ∧ gk iface) →
  safe fixed
    (cur ←' registry_get r iface;
     (if bool_decide (cur = []) then registry_set r iface [id need]
      else l ←' registry_item r iface; append l (id need)) ;;'
     ret linkage_text).
Proof.
  intros Hneed Hr w Hw.
  set (cur := match dict_get iface (registry_of r w) with
              | Some l => deref (heap w) l | None => [] end).
  pose proof (eq_refl :
    (cur ←' registry_get r iface;
     (if bool_decide (cur = []) then registry_set r iface [id need]
      else l ←' registry_item r iface; append l (id need)) ;;'
     ret linkage_text)%py w
    = ((if bool_decide (cur = []) then registry_set r iface [id need]
        else l ←' registry_item r iface; append l (id need)) ;;'
       ret linkage_text)%py w) as ->.
  case_bool_decide as Hcur.
  - apply (triple_bind (K fixed) False True _ _ (λ _, True) (λ _, True));
      [|by intros; apply triple_ret|done].
    apply safe_registry_set. intros (-> & ?)%Hr. split_and!; [done..|].
    by repeat constructor.
  - subst cur. destruct (dict_get iface (registry_of r w)) as [l0|] eqn:Hget; [|done].
    rewrite bind_assoc. erewrite bind_val; [|by apply registry_item_eq].
    apply (triple_bind (K fixed) False True _ _ (λ _, True) (λ _, True));
      [|by intros; apply triple_ret|done].
    by apply safe_append.
Qed.

(** [_process_interfaces] for a need of the graph. *)
Lemma safe_process_interfaces fixed iface_list relation need r linkage_text :
  gk (id need) → (r = ProcUsed → fixed = None) →
  safe fixed (_process_interfaces iface_list relation need all_needs r linkage_text).
Proof.
  intros Hneed Hr. unfold _process_interfaces.
  apply triple_for_each; [|done]. intros acc iface _ _.
  destruct (all_needs !! iface) as [iface_need|] eqn:Hiface.
  - case_bool_decide as Hrel.
    + apply safe_credit_implementer; [done|]. intros ?%Hr. split; [done|]. by rewrite Hiface.
    + apply safe_credit_user; [done|]. intros ?%Hr. split; [done|]. by rewrite Hiface.
  - eapply triple_bind; [apply safe_info|]. intros _ _. by apply triple_ret.
Qed.

Ltac safe_go :=
  cbv beta zeta;
  lazymatch goal with
  | |- triple _ (ret _) _ => by apply triple_ret
  | |- triple _ diverge _ => by apply triple_diverge
  | |- triple _ (bind _ _) _ =>
      eapply (triple_bind _ _ _ _ _ (λ _, True)); [safe_go | intros; safe_go]
  | |- triple _ (info _) _ => apply safe_info
  | |- triple _ (gets _) _ => apply safe_gets
  | |- triple _ (read _) _ => apply safe_gets
  | |- triple _ (registry_get _ _) _ => apply safe_gets
  | |- triple _ (registry_set ProcImpl _ _) _ => by apply safe_registry_set
  | |- triple _ (for_each _ _ _) _ =>
      apply triple_for_each; [intros; safe_go | done]
  | |- triple _ (match ?x with _ => _ end) _ => destruct x eqn:?; safe_go
  | |- triple _ (if ?b then _ else _) _ => destruct b eqn:?; safe_go
  | |- triple _ (match ?x with _ => _ end _) _ => destruct x eqn:?; safe_go
  | _ => idtac
  end.

Context (get_interface_from_component :
           gmap loc (list string) → Need → string → gmap string Need → list string).
Context (get_impl_comp_from_logic_iface :
           gmap loc (list string) → string → gmap string Need → list string).

Lemma safe_draw_comp fuel : ∀ need white_box_view,
  id_keyed all_needs → gk (id need) →
  safe None (draw_comp_incl_impl_int get_interface_from_component fuel need
               all_needs white_box_view).
Proof.
  induction fuel as [|fuel IH]; intros need wb Hkeyed Hneed; simpl; [safe_go|].
  safe_go.
  - apply IH; [done|]. rewrite (Hkeyed x n) by done. eauto.
  - by apply safe_process_interfaces.
  - by apply safe_process_interfaces.
Qed.

Lemma safe_draw_impl_interface fixed fuel : ∀ need local_impl_interfaces,
  safe fixed (draw_impl_interface get_interface_from_component fuel need all_needs
                local_impl_interfaces).
Proof.
  induction fuel as [|fuel IH]; intros need local_impl_interfaces; simpl; [safe_go|].
  safe_go. apply IH.
Qed.

Lemma safe_process_impl_interfaces fixed fuel need structure_text :
  safe fixed (_process_impl_interfaces get_interface_from_component fuel need
                all_needs structure_text).
Proof.
  unfold _process_impl_interfaces. safe_go. apply safe_draw_impl_interface.
Qed.

(** In [_process_used_interfaces] the registry of the used interfaces is
    the one the loop runs over. *)
Lemma safe_process_used_interfaces need local_impl_interfaces
    structure_text linkage_text :
  safe None (_process_used_interfaces get_impl_comp_from_logic_iface need all_needs
               local_impl_interfaces structure_text linkage_text).
Proof.
  intros w Hw. unfold _process_used_interfaces, bind at 1, gets at 1.
  cut (triple (K (Some (proc_used_interfaces w)))
         (for_each (proc_used_interfaces w) (λ '(structure_text, linkage_text) '(iface, comps),
            entry ←' gets (λ w, dict_get iface (proc_impl_interfaces w));
            h ←' gets heap;
            let interface_structure_exists :=
              match entry with
              | Some l => bool_decide (0 < length (deref h l))
              | None => false
              end in
            let* (structure_text, linkage_text) :=
              (if interface_structure_exists then ret (structure_text, linkage_text)
               else
                 let impl_comp_str := get_impl_comp_from_logic_iface h iface all_needs in
                 match impl_comp_str with
                 | c :: _ =>
                     match all_needs !! c with
                     | Some impl_comp =>
                         let structure_text :=
                           structure_text ++ [Hierarchy 2 c; Hierarchy 0 c;
                                              Hierarchy 1 c; Hierarchy 3 c] in
                         structure_text ←'
                           (if bool_decide (iface ∈ local_impl_interfaces)
                            then ret structure_text
                            else
                              registry_set ProcImpl iface [c] ;;'
                              ret (structure_text ++ [Interface iface]));
                         iface_need ←' item all_needs iface;
                         ret (structure_text,
                              linkage_text
                                ++ [Link (id impl_comp) "-u->" (id iface_need) "implements"])
                     | None =>
                         info (NoImplementer iface) ;;'
                         registry_set ProcImpl iface [] ;;'
                         ret (structure_text ++ [Interface iface], linkage_text)
                     end
                 | [] =>
                     info (NoImplementer iface) ;;'
                     registry_set ProcImpl iface [] ;;'
                     ret (structure_text ++ [Interface iface], linkage_text)
                 end) in
            users ←' read comps;
            linkage_text ←'
              for_each users (λ linkage_text comp,
                comp_need ←' item all_needs comp;
                iface_need ←' item all_needs iface;
                ret (linkage_text
                       ++ [Link (id comp_need) "-d[#green]->" (id iface_need) "uses"]))
                linkage_text;
            ret (structure_text, linkage_text)) (structure_text, linkage_text))
         (post (λ _, True) False True)).
  { intros Hloop. destruct (Hloop w) as [Hpost [Hall _]].
    - destruct Hw as [Hall _]. by split.
    - simpl. split; [done|]. by split. }
  apply triple_for_each; [|done].
  intros [st lt] [iface comps] Hin _.
  assert (∀ w', K (Some (proc_used_interfaces w)) w' →
            gk iface ∧ Forall (λ c, gk c) (deref (heap w') comps)) as Hentry.
  { intros w' [Hall Hfix]. rewrite <-Hfix in Hin. rewrite Forall_forall in Hall.
    by destruct (Hall _ Hin) as (? & _ & ?). }
  assert (gk iface) as Hiface.
  { destruct Hw as [Hall _]. rewrite Forall_forall in Hall.
    by destruct (Hall _ Hin) as (? & _). }
  eapply (triple_bind _ _ _ _ _ (λ _, True)); [safe_go|]. intros entry _.
  eapply (triple_bind _ _ _ _ _ (λ _, True)); [safe_go|]. intros h _.
  cbv zeta.
  eapply (triple_bind _ _ _ _ _ (λ _, True)).
  { safe_go; by apply safe_item. }
  intros [st' lt'] _.
  eapply (triple_bind _ _ _ _ _ (λ users, Forall (λ c, gk c) users)).
  { apply triple_gets. intros w' Hw'. by destruct (Hentry w' Hw'). }
  intros users Husers. rewrite Forall_forall in Husers.
  eapply (triple_bind _ _ _ _ _ (λ _, True)); [|intros; safe_go].
  apply triple_for_each; [|done]. intros acc comp Hcomp _.
  eapply (triple_bind _ _ _ _ _ (λ _, True)); [by apply safe_item; auto|]. intros ? _.
  eapply (triple_bind _ _ _ _ _ (λ _, True)); [by apply safe_item|]. intros ? _.
  safe_go.
Qed.

Lemma safe_draw_module fuel need :
  id_keyed all_needs →
  safe None (draw_module get_interface_from_component get_impl_comp_from_logic_iface
               fuel need all_needs).
Proof.
  intros Hkeyed. unfold draw_module. safe_go.
  - apply safe_draw_impl_interface.
  - apply safe_process_impl_interfaces.
  - apply safe_draw_comp; [done|]. rewrite (Hkeyed x n) by done. eauto.
  - apply safe_process_used_interfaces.
Qed.

Lemma safe_alloc fixed v : safe fixed (alloc v).
Proof. intros w Hw. split; [done|]. by apply users_known_alloc. Qed.

Lemma safe_build_links fixed need original_feature_interfaces all_interfaces
    impl_comp link_text :
  Forall (λ iface, gk iface) all_interfaces →
  safe fixed (_build_links need all_needs original_feature_interfaces all_interfaces
                impl_comp link_text).
Proof.
  intros Hall. rewrite Forall_forall in Hall. unfold _build_links.
  apply triple_for_each; [|done]. intros acc iface Hin%Hall _.
  safe_go; by apply safe_item.
Qed.

Context (get_module get_interface_from_int :
           gmap loc (list string) → string → gmap string Need → string).

Lemma collect_modules_to_draw_known h comps module :
  modules_known get_module all_needs →
  module ∈ collect_modules_to_draw get_module h all_needs comps → gk module.
Proof.
  intros Hknown. unfold collect_modules_to_draw.
  generalize (elements comps). intros l.
  cut (∀ acc : gset string, (∀ m, m ∈ acc → gk m) →
         module ∈ foldl (λ acc comp_id,
           if is_external_baselib comp_id then acc
           else
             let module := get_module h comp_id all_needs in
             if bool_decide (module = "") then acc else {[module]} ∪ acc) acc l →
         gk module).
  { intros Hcut. apply Hcut. set_solver. }
  induction l as [|c l IH]; intros acc Hacc; simpl; [apply Hacc|].
  apply IH. destruct (is_external_baselib c); [done|].
  case_bool_decide as Hm; [done|]. intros m [->%elem_of_singleton|?]%elem_of_union; [|auto].
  by destruct (Hknown h c).
Qed.

Lemma safe_collect fuel need interfacelist impl_comp proc_modules
    structure_text link_text :
  id_keyed all_needs → modules_known get_module all_needs →
  Forall (λ kv, gk kv.1) impl_comp →
  triple (K None)
    (_collect_interfaces_and_modules get_interface_from_component
       get_impl_comp_from_logic_iface get_module fuel need all_needs
       interfacelist impl_comp proc_modules structure_text link_text)
    (post (λ r, Forall (λ kv, gk kv.1) r.2) False True).
Proof.
  intros Hkeyed Hknown Himpl. unfold _collect_interfaces_and_modules.
  eapply (triple_bind _ _ _ _ _ (λ _, True)); [safe_go|]. intros h _. cbv zeta.
  destruct (secondary_loop _ _ _ _ _ _ _ _) as [st|]; [|by apply triple_diverge].
  eapply (triple_bind _ _ _ _ _ (λ _, True)).
  { apply triple_for_each; [|done]. intros [st1 lt1] module Hm%elem_of_elements _.
    apply collect_modules_to_draw_known in Hm; [|done].
    safe_go; [by apply safe_item|by apply safe_draw_module|by apply safe_append]. }
  intros [st1 lt1] _.
  eapply (triple_bind _ _ _ _ _ (λ r, Forall (λ kv, gk kv.1) r)).
  { apply triple_for_each; [|done]. intros acc iface _ Hacc.
    destruct (all_needs !! iface) eqn:Hiface.
    - eapply (triple_bind _ _ _ _ _ (λ _, True)); [safe_go|]. intros h' _. cbv zeta.
      case_bool_decide; [by apply triple_ret|]. apply triple_ret.
      apply dict_set_Forall; [done|]. simpl. by rewrite Hiface.
    - eapply (triple_bind _ _ _ _ _ (λ _, True)); [safe_go|]. intros _ _.
      by apply triple_ret. }
  intros impl_comp' Himpl'. by apply triple_ret.
Qed.

Lemma safe_draw_full_feature fuel need :
  id_keyed all_needs → modules_known get_module all_needs →
  safe None (proc_modules ←' alloc [];
             let link_text : text := [] in
             let structure_text := [Actor] in
             h ←' gets heap;
             let interfacelist :=
               feature_interfaces get_interface_from_int h need all_needs in
             let* (structure_text, link_text, impl_comp) :=
               _collect_interfaces_and_modules get_interface_from_component
                 get_impl_comp_from_logic_iface get_module fuel need all_needs
                 interfacelist [] proc_modules structure_text link_text in
             let all_interfaces := dict_keys impl_comp in
             link_text ←' _build_links need all_needs interfacelist all_interfaces
                            impl_comp link_text;
             ret ([Header] ++ structure_text ++ dedup_lines link_text)).
Proof.
  intros Hkeyed Hknown.
  eapply (triple_bind _ _ _ _ _ (λ _, True)); [apply safe_alloc|]. intros pm _. cbv zeta.
  eapply (triple_bind _ _ _ _ _ (λ _, True)); [safe_go|]. intros h _.
  eapply triple_bind; [by apply safe_collect|].
  intros [[st lt] impl_comp] Himpl. simpl in Himpl.
  eapply (triple_bind _ _ _ _ _ (λ _, True)); [|intros; safe_go].
  apply safe_build_links. unfold dict_keys. by apply Forall_fmap.
Qed.

Lemma users_known_new_registries w : K None (new_registries w).2.
Proof. split; [|done]. simpl. constructor. Qed.

End no_key_error.

Lemma triple_no_raise {A} (I : world → Prop) (m : M world A) (P : A → Prop) D w :
  triple I m (post P False D) → I w → ¬ raises m w.
Proof. intros Hm Hw [e He]. destruct (Hm w Hw) as [Hpost _]. by rewrite He in Hpost. Qed.

Lemma inv_draw_impl_interface G h0 gifc all_needs fuel : ∀ need local_impl_interfaces,
  triple (inv G h0)
    (draw_impl_interface gifc fuel need all_needs local_impl_interfaces)
    (post (λ _, True) False True).
Proof.
  induction fuel as [|fuel IH]; intros need acc; simpl; [by apply triple_diverge|].
  eapply (triple_bind _ _ _ _ _ (λ _, True)); [by apply triple_gets|]. intros h _.
  eapply (triple_bind _ _ _ _ _ (λ _, True)).
  - apply triple_for_each; [|done]. intros acc' need_inc _ _.
    destruct (all_needs !! need_inc); [apply IH|].
    eapply triple_bind; [apply inv_info|]. intros _ _. by apply triple_ret.
  - intros acc' _. eapply (triple_bind _ _ _ _ _ (λ _, True)); [by apply triple_gets|].
    intros h' _. by apply triple_ret.
Qed.

Lemma graph_from_id_keyed es : ∀ i, id_keyed (graph_from i es).2.
Proof.
  induction es as [|e es IH]; intros i; simpl.
  - apply map_Forall_empty.
  - specialize (IH (S i)). destruct (graph_from (S i) es) as [h needs]. simpl in *.
    by apply map_Forall_insert_2.
Qed.

Lemma spec_get_module_known all_needs : modules_known spec_get_module all_needs.
Proof.
  intros h c. unfold spec_get_module.
  destruct (filter _ _) as [|[k n] l] eqn:Hf; [by left|]. right. simpl.
  assert ((k, n) ∈ filter (λ kv, type kv.2 = "mod" ∧ c ∈ field h (includes kv.2))
                     (map_to_list all_needs)) as Hin by (rewrite Hf; left).
  apply list_elem_of_filter in Hin as [_ Hin%elem_of_map_to_list]. eauto.
Qed.






(** ** What [_process_interfaces] leaves in the registry *)

Section credits.
Context (relation : string) (need : Need) (all_needs : gmap string Need).
Context (r : registry).

Local Abbreviation credited := (credited r (id need)).
Local Abbreviation body :=
  (λ (linkage_text : text) iface,
    match all_needs !! iface with
    | None => info (NotFound (id need) relation iface) ;;' ret linkage_text
    | Some iface_need =>
        if bool_decide (relation = "implements") then
          cur ←' registry_get r iface;
          (if bool_decide (cur = []) then registry_set r iface []
           else ret tt) ;;'
          l ←' registry_item r iface;
          credited ←' read l;
          if bool_decide (id need ∈ credited) then ret linkage_text
          else
            append l (id need) ;;'
            ret (linkage_text ++ [Link (id need) "-u->" (id iface_need) "implements"])
        else
          cur ←' registry_get r iface;
          (if bool_decide (cur = []) then registry_set r iface [id need]
           else l ←' registry_item r iface; append l (id need)) ;;'
          ret linkage_text
    end)%py.

Lemma deref_elem_dom (h : gmap loc (list string)) l x : x ∈ deref h l → l ∈ dom h.
Proof.
  unfold deref. destruct (h !! l) eqn:Hl; simpl.
  - intros _. apply elem_of_dom. eauto.
  - by intros ?%elem_of_nil.
Qed.

Lemma credited_append k l x w :
  credited k w → credited k (append l x w).2.
Proof.
  intros (lk & Hget & Hin). exists lk. split; [by destruct r|]. simpl.
  unfold deref. destruct (decide (l = lk)) as [->|Hne].
  - rewrite lookup_insert_eq. simpl. apply elem_of_app. by left.
  - by rewrite lookup_insert_ne.
Qed.

(** An entry is set only for an interface that is not credited. *)
Lemma credited_registry_set k iface v w :
  k ≠ iface → credited k w → credited k (registry_set r iface v w).2.
Proof.
  intros Hne (lk & Hget & Hin). rewrite registry_set_eq. simpl.
  exists lk. split.
  - rewrite registry_of_set, dict_get_set_ne by done. by destruct r.
  - assert (deref (heap (set_registry r (dict_set iface (fresh (dom (heap w))))
                           (set_heap (insert (fresh (dom (heap w))) v) w))) lk
            = deref (heap w) lk) as ->; [|done].
    assert (heap (set_registry r (dict_set iface (fresh (dom (heap w))))
                    (set_heap (insert (fresh (dom (heap w))) v) w))
            = <[fresh (dom (heap w)) := v]> (heap w)) as -> by (by destruct r).
    unfold deref. rewrite lookup_insert_ne; [done|].
    intros <-. apply deref_elem_dom in Hin. by apply is_fresh in Hin.
Qed.

Lemma credited_set_eq iface v w :
  id need ∈ v → credited iface (registry_set r iface v w).2.
Proof.
  intros Hv. rewrite registry_set_eq. simpl. exists (fresh (dom (heap w))). split.
  - rewrite registry_of_set. apply dict_get_set_eq.
  - assert (heap (set_registry r (dict_set iface (fresh (dom (heap w))))
                    (set_heap (insert (fresh (dom (heap w))) v) w))
            = <[fresh (dom (heap w)) := v]> (heap w)) as -> by (by destruct r).
    unfold deref. by rewrite lookup_insert_eq.
Qed.

Lemma credited_nonempty iface w :
  credited iface w →
  match dict_get iface (registry_of r w) with
  | Some l => deref (heap w) l
  | None => []
  end ≠ [].
Proof. intros (l & -> & Hin) Heq. rewrite Heq in Hin. by apply elem_of_nil in Hin. Qed.

(** One turn of the loop of [_process_interfaces]: it returns, keeps what
    is credited, credits the interface if it is a need of the graph, and
    adds to the text only for the relation implements, and only if the
    interface was not credited. *)
Lemma process_interfaces_turn (acc : text) iface w :
  ∃ t w',
    body acc iface w = (Val t, w')
    ∧ (∀ k, credited k w → credited k w')
    ∧ (is_Some (all_needs !! iface) → credited iface w')
    ∧ acc `prefix_of` t
    ∧ (relation ≠ "implements" ∨ (is_Some (all_needs !! iface) → credited iface w) →
       t = acc).
Proof.
  cbv beta. destruct (all_needs !! iface) as [iface_need|] eqn:Hiface.
  2: { eexists _, _. split; [done|]. split_and!; [|by intros [? [=]]|done..].
       intros k (l & ? & ?). by exists l. }
  case_bool_decide as Hrel.
  - (* implements *)
    unfold bind at 1, registry_get at 1, gets at 1. simpl.
    set (cur := match dict_get iface (registry_of r w) with
                | Some l => deref (heap w) l | None => [] end).
    case_bool_decide as Hcur.
    + set (l := fresh (dom (heap w))).
      set (w1 := set_registry r (dict_set iface l) (set_heap (insert l []) w)).
      assert (heap w1 = <[l := []]> (heap w)) as Hheap by (by destruct r).
      erewrite bind_val; [|apply registry_set_eq]. fold l w1.
      erewrite bind_val;
        [|apply registry_item_eq; unfold w1; rewrite registry_of_set;
          apply dict_get_set_eq].
      unfold bind at 1, read, gets. simpl.
      assert (deref (heap w1) l = []) as ->.
      { rewrite Hheap. unfold deref. by rewrite lookup_insert_eq. }
      rewrite bool_decide_false by (by intros ?%elem_of_nil).
      eexists _, _. split; [done|]. split_and!.
      * intros k Hk. apply (credited_append k l (id need) w1).
        destruct (decide (k = iface)) as [->|Hne].
        -- by apply credited_nonempty in Hk.
        -- pose proof (credited_registry_set k iface [] w Hne Hk) as Hk'.
           by rewrite registry_set_eq in Hk'.
      * intros _. exists l. split.
        -- clear. subst w1. destruct r; simpl; apply dict_get_set_eq.
        -- simpl. unfold deref. rewrite lookup_insert_eq. simpl. apply elem_of_app.
           right. left.
      * by apply prefix_app_r.
      * intros [?|Hc]; [done|]. exfalso.
        eapply credited_nonempty; [apply Hc; eauto|done].
    + subst cur. destruct (dict_get iface (registry_of r w)) as [l|] eqn:Hget; [|done].
      erewrite bind_val; [|done].
      erewrite bind_val; [|by apply registry_item_eq].
      unfold bind at 1, read, gets. simpl.
      case_bool_decide as Hin.
      * eexists _, _. split; [done|]. split_and!; [done| |done|done].
        intros _. by exists l.
      * eexists _, _. split; [done|]. split_and!.
        -- intros k Hk. by apply (credited_append k l (id need) w).
        -- intros _. exists l. split; [by destruct r|]. simpl.
           unfold deref. rewrite lookup_insert_eq. simpl. apply elem_of_app. right. left.
        -- by apply prefix_app_r.
        -- intros [?|Hc]; [done|]. exfalso. apply Hin.
           destruct Hc as (l' & Hl' & ?); [eauto|]. congruence.
  - (* uses *)
    unfold bind at 1, registry_get at 1, gets at 1. simpl.
    case_bool_decide as Hcur.
    + unfold bind. rewrite registry_set_eq. simpl.
      eexists _, _. split; [done|]. split_and!; [| |done|done].
      * intros k Hk. destruct (decide (k = iface)) as [->|Hne].
        -- by apply credited_nonempty in Hk.
        -- pose proof (credited_registry_set k iface [id need] w Hne Hk) as Hk'.
           by rewrite registry_set_eq in Hk'.
      * intros _. pose proof (credited_set_eq iface [id need] w) as Hk'.
        rewrite registry_set_eq in Hk'. apply Hk'. left.
    + destruct (dict_get iface (registry_of r w)) as [l0|] eqn:Hget; [|done].
      unfold bind, registry_item, bind, gets. simpl. rewrite Hget. simpl.
      eexists _, _. split; [done|]. split_and!; [| |done|done].
      * intros k Hk. by apply (credited_append k l0 (id need) w).
      * intros _. exists l0. split; [by destruct r|]. simpl.
        unfold deref. rewrite lookup_insert_eq. simpl. apply elem_of_app. right. left.
Qed.

Lemma process_interfaces_run iface_list : ∀ linkage_text w,
  ∃ t w',
    _process_interfaces iface_list relation need all_needs r linkage_text w = (Val t, w')
    ∧ (∀ k, credited k w → credited k w')
    ∧ (∀ iface, iface ∈ iface_list → is_Some (all_needs !! iface) → credited iface w')
    ∧ linkage_text `prefix_of` t
    ∧ (relation ≠ "implements"
       ∨ (∀ iface, iface ∈ iface_list → is_Some (all_needs !! iface) → credited iface w) →
       t = linkage_text).
Proof.
  unfold _process_interfaces.
  induction iface_list as [|iface l IH]; intros acc w.
  - eexists _, _. split; [done|]. split_and!; [done| |done|done].
    by intros ? ?%elem_of_nil.
  - destruct (process_interfaces_turn acc iface w)
      as (t1 & w1 & Hturn & Hk1 & Hc1 & Hp1 & Ht1).
    lazymatch goal with
    | |- context [for_each (iface :: l) ?B acc w] =>
        assert (B acc iface w = (Val t1, w1)) as Hturn' by exact Hturn
    end.
    rewrite for_each_cons, Hturn'.
    destruct (IH t1 w1) as (t & w' & -> & Hk & Hc & Hp & Ht).
    eexists _, _. split; [done|]. split_and!.
    + auto.
    + intros i [->|Hi]%elem_of_cons Hsome; auto.
    + by etrans.
    + intros Hcase. rewrite Ht, Ht1; [done| |].
      * destruct Hcase as [?|Hall]; [by left|]. right. apply Hall. left.
      * destruct Hcase as [?|Hall]; [by left|]. right.
        intros i Hi Hsome. apply Hk1, Hall; [by right|done].
Qed.
End credits.

(** X18. [_process_interfaces] always returns: the entry of the registry is
    there when it is read. After the run the registry credits the need for
    every interface of the list that is a need of the graph, and what was
    credited before still is. The text it is given comes first in the text
    it returns, and for a relation other than implements it is the text it
    returns. *)
Theorem process_interfaces_credits :
  ∀ iface_list relation need all_needs r linkage_text w,
  ∃ t w',
    _process_interfaces iface_list relation need all_needs r linkage_text w = (Val t, w')
    ∧ (∀ iface, iface ∈ iface_list → is_Some (all_needs !! iface) →
         credited r (id need) iface w')
    ∧ (∀ iface, credited r (id need) iface w → credited r (id need) iface w')
    ∧ linkage_text `prefix_of` t
    ∧ (relation ≠ "implements" → t = linkage_text).
Proof.
  intros iface_list relation need all_needs r linkage_text w.
  destruct (process_interfaces_run relation need all_needs r iface_list linkage_text w)
    as (t & w' & Hrun & Hk & Hc & Hp & Ht).
  exists t, w'. split_and!; auto.
Qed.

(** X19. The link from a component to an interface it implements is made
    once: a second run of [_process_interfaces] with the same arguments, in
    the world the first run has left, returns the text it is given, so that
    for the relation implements no link is made again. *)
Theorem implements_links_once :
  ∀ iface_list relation need all_needs r linkage_text w linkage_text',
    (_process_interfaces iface_list relation need all_needs r linkage_text'
       (_process_interfaces iface_list relation need all_needs r linkage_text w).2).1
    = Val linkage_text'.
Proof.
  intros iface_list relation need all_needs r linkage_text w linkage_text'.
  destruct (process_interfaces_run relation need all_needs r iface_list linkage_text w)
    as (t & w' & -> & _ & Hc & _). simpl.
  destruct (process_interfaces_run relation need all_needs r iface_list linkage_text' w')
    as (t' & w'' & -> & _ & _ & _ & Ht). simpl. f_equal. apply Ht. by right.
Qed.

(** X20. A component that is drawn as a black box is drawn without its
    sub-components, whatever the graph: one level of recursion is enough, and
    the structure is the element of the component and its closing line. *)
Theorem black_box_component :
  ∀ get_interface_from_component fuel need all_needs w,
  ∃ linkage_text w',
    draw_comp_incl_impl_int get_interface_from_component (S fuel) need all_needs false w
    = (Val ([StructOpen "component" (id need); StructClose (title need)], linkage_text), w').
Proof.
  intros gifc fuel need all_needs w. simpl.
  unfold bind at 1. unfold ret at 1. unfold bind at 1, gets at 1.
  destruct (process_interfaces_run "implements" need all_needs ProcImpl
              (gifc (heap w) need "implements" all_needs) [] w)
    as (t1 & w1 & Hrun1 & _).
  erewrite bind_val; [|exact Hrun1].
  destruct (process_interfaces_run "uses" need all_needs ProcUsed
              (gifc (heap w) need "uses" all_needs) t1 w1)
    as (t2 & w2 & Hrun2 & _).
  erewrite bind_val; [|exact Hrun2]. by eexists _, _.
Qed.

(** ** The sets that [_collect_interfaces_and_modules] computes *)

(** A loop that adds to a set what [P] holds of. *)
Lemma foldl_elem {A} (step : gset string → A → gset string) (P : A → string → Prop) :
  (∀ acc x y, y ∈ step acc x ↔ y ∈ acc ∨ P x y) →
  ∀ l acc y, y ∈ foldl step acc l ↔ y ∈ acc ∨ ∃ x, x ∈ l ∧ P x y.
Proof.
  intros Hstep. induction l as [|x l IH]; intros acc y; simpl.
  - split; [by left|]. intros [?|(x & ?%elem_of_nil & _)]; done.
  - rewrite IH, Hstep. split.
    + intros [[?|?]|(x' & ? & ?)]; [by left| |].
      * right. exists x. split; [left|done].
      * right. exists x'. split; [by right|done].
    + intros [?|(x' & [->|?]%elem_of_cons & ?)]; [by left; left|by left; right|].
      right. by exists x'.
Qed.

Section collected.
Context (get_interface_from_component :
           gmap loc (list string) → Need → string → gmap string Need → list string).
Context (get_impl_comp_from_logic_iface :
           gmap loc (list string) → string → gmap string Need → list string).
Context (get_module : gmap loc (list string) → string → gmap string Need → string).
Context (h : gmap loc (list string)) (all_needs : gmap string Need).
Context (primary_components primary_interfaces : gset string).

Lemma primary_interface_implementers_elem c :
  c ∈ collect_primary_interface_implementers get_impl_comp_from_logic_iface h
        all_needs primary_components primary_interfaces
  ↔ (c ∉ primary_components) ∧ is_external_baselib c = false
    ∧ ∃ iface, iface ∈ primary_interfaces ∧ is_Some (all_needs !! iface)
               ∧ c ∈ get_impl_comp_from_logic_iface h iface all_needs.
Proof.
  unfold collect_primary_interface_implementers.
  rewrite (foldl_elem _ (λ iface c,
    is_Some (all_needs !! iface) ∧ (c ∉ primary_components)
    ∧ is_external_baselib c = false
    ∧ c ∈ get_impl_comp_from_logic_iface h iface all_needs)).
  - setoid_rewrite elem_of_elements. split.
    + intros [?%elem_of_empty|(iface & ? & ? & ? & ? & ?)]; [done|]. eauto 10.
    + intros (? & ? & iface & ? & ? & ?). right. exists iface. eauto.
  - intros acc iface y. destruct (all_needs !! iface) as [n|] eqn:Hiface.
    + rewrite (foldl_elem _ (λ comp_id y,
        y = comp_id ∧ (comp_id ∉ primary_components)
        ∧ is_external_baselib comp_id = false)).
      * split.
        -- intros [?|(x & ? & -> & ? & ?)]; [by left|]. right. eauto.
        -- intros [?|(_ & ? & ? & ?)]; [by left|]. right. eauto.
      * intros acc' x y'. case_bool_decide as Hprim; simpl.
        -- destruct (is_external_baselib x) eqn:Hext; simpl.
           ++ split; [by left|]. intros [?|(_ & _ & [=])]. done.
           ++ rewrite elem_of_union, elem_of_singleton. naive_solver.
        -- split; [by left|]. intros [?|(_ & ? & _)]; [done|]. naive_solver.
    + split; [by left|]. intros [?|([? [=]] & _)]. done.
Qed.

Lemma secondary_interfaces_elem iface :
  iface ∈ collect_secondary_interfaces get_interface_from_component h all_needs
            primary_components
  ↔ ∃ comp_id comp, comp_id ∈ primary_components ∧ all_needs !! comp_id = Some comp
      ∧ iface ∈ get_interface_from_component h comp "uses" all_needs.
Proof.
  unfold collect_secondary_interfaces.
  rewrite (foldl_elem _ (λ comp_id iface, ∃ comp,
    all_needs !! comp_id = Some comp
    ∧ iface ∈ get_interface_from_component h comp "uses" all_needs)).
  - setoid_rewrite elem_of_elements. split.
    + intros [?%elem_of_empty|(c & ? & comp & ? & ?)]; [done|]. eauto.
    + intros (c & comp & ? & ? & ?). right. eauto.
  - intros acc c y. destruct (all_needs !! c) as [comp|].
    + rewrite elem_of_union, elem_of_list_to_set. split.
      * intros [?|?]; [by left|]. right. eauto.
      * intros [?|(comp' & [= <-] & ?)]; [by left|by right].
    + split; [by left|]. intros [?|(? & [=] & _)]. done.
Qed.

Lemma modules_to_draw_elem components module :
  module ∈ collect_modules_to_draw get_module h all_needs components
  ↔ module ≠ ""
    ∧ ∃ comp_id, comp_id ∈ components ∧ is_external_baselib comp_id = false
                 ∧ get_module h comp_id all_needs = module.
Proof.
  unfold collect_modules_to_draw.
  rewrite (foldl_elem _ (λ comp_id module,
    module ≠ "" ∧ is_external_baselib comp_id = false
    ∧ get_module h comp_id all_needs = module)).
  - setoid_rewrite elem_of_elements. split.
    + intros [?%elem_of_empty|(c & ? & ? & ? & ?)]; [done|]. eauto.
    + intros (? & c & ? & ? & ?). right. eauto.
  - intros acc c y. destruct (is_external_baselib c).
    + split; [by left|]. intros [?|(_ & [=] & _)]. done.
    + cbv zeta. case_bool_decide as Hm.
      * split; [by left|]. intros [?|(? & _ & <-)]; done.
      * rewrite elem_of_union, elem_of_singleton. naive_solver.
Qed.

Lemma components_in_modules_only_elem modules c :
  c ∈ collect_components_in_modules_only h all_needs primary_components modules
  ↔ (c ∉ primary_components)
    ∧ ∃ module m, module ∈ modules ∧ all_needs !! module = Some m
                  ∧ c ∈ field h (includes m).
Proof.
  unfold collect_components_in_modules_only.
  rewrite (foldl_elem _ (λ module c, ∃ m,
    all_needs !! module = Some m ∧ (c ∉ primary_components)
    ∧ c ∈ field h (includes m))).
  - setoid_rewrite elem_of_elements. split.
    + intros [?%elem_of_empty|(module & ? & m & ? & ? & ?)]; [done|]. eauto 10.
    + intros (? & module & m & ? & ? & ?). right. eauto 10.
  - intros acc module y. destruct (all_needs !! module) as [m|].
    + rewrite (foldl_elem _ (λ comp_id y, y = comp_id ∧ comp_id ∉ primary_components)).
      * split.
        -- intros [?|(x & ? & -> & ?)]; [by left|]. right. eauto.
        -- intros [?|(m' & [= <-] & ? & ?)]; [by left|]. right. eauto.
      * intros acc' x y'. case_bool_decide as Hprim.
        -- rewrite elem_of_union, elem_of_singleton. naive_solver.
        -- split; [by left|]. intros [?|(_ & ?)]; [done|]. naive_solver.
    + split; [by left|]. intros [?|(? & [=] & _)]. done.
Qed.
End collected.

(** X21. What the drawing of a feature collects before it draws. An
    implementer of a primary interface is a component that is not primary and
    not external and implements a primary interface that is a need of the
    graph. A secondary interface is one that a primary component of the
    graph uses. A module to draw is the module, if there is one, of a related
    component that is not external. A component in modules only is one that
    is not primary and that a module to draw includes. *)
Theorem collected_sets :
  ∀ get_interface_from_component get_impl_comp_from_logic_iface get_module
    h all_needs primary_components primary_interfaces components modules x,
    (x ∈ collect_primary_interface_implementers get_impl_comp_from_logic_iface h
           all_needs primary_components primary_interfaces
     ↔ (x ∉ primary_components) ∧ is_external_baselib x = false
       ∧ ∃ iface, iface ∈ primary_interfaces ∧ is_Some (all_needs !! iface)
                  ∧ x ∈ get_impl_comp_from_logic_iface h iface all_needs)
    ∧ (x ∈ collect_secondary_interfaces get_interface_from_component h all_needs
             primary_components
       ↔ ∃ comp_id comp, comp_id ∈ primary_components ∧ all_needs !! comp_id = Some comp
           ∧ x ∈ get_interface_from_component h comp "uses" all_needs)
    ∧ (x ∈ collect_modules_to_draw get_module h all_needs components
       ↔ x ≠ ""
         ∧ ∃ comp_id, comp_id ∈ components ∧ is_external_baselib comp_id = false
                      ∧ get_module h comp_id all_needs = x)
    ∧ (x ∈ collect_components_in_modules_only h all_needs primary_components modules
       ↔ (x ∉ primary_components)
         ∧ ∃ module m, module ∈ modules ∧ all_needs !! module = Some m
                       ∧ x ∈ field h (includes m)).
Proof.
  intros. split_and!.
  - apply primary_interface_implementers_elem; assumption.
  - apply secondary_interfaces_elem; assumption.
  - apply modules_to_draw_elem; assumption.
  - apply components_in_modules_only_elem; assumption.
Qed.

(** X22. The interfaces of a feature are the interfaces that
    [get_interface_from_int] finds for its includes, each once. *)
Theorem feature_interfaces_once :
  ∀ get_interface_from_int h need all_needs,
    NoDup (feature_interfaces get_interface_from_int h need all_needs)
    ∧ ∀ iface,
        iface ∈ feature_interfaces get_interface_from_int h need all_needs
        ↔ ∃ need_inc, need_inc ∈ field h (includes need)
                      ∧ iface = get_interface_from_int h need_inc all_needs.
Proof.
  intros gi h need all_needs. unfold feature_interfaces.
  cut (∀ l acc, NoDup acc →
         NoDup (foldl (λ interfacelist need_inc,
                  let iface := gi h need_inc all_needs in
                  if bool_decide (iface ∈ interfacelist) then interfacelist
                  else interfacelist ++ [iface]) acc l)
         ∧ ∀ iface,
             iface ∈ foldl (λ interfacelist need_inc,
                       let iface := gi h need_inc all_needs in
                       if bool_decide (iface ∈ interfacelist) then interfacelist
                       else interfacelist ++ [iface]) acc l
             ↔ iface ∈ acc ∨ ∃ need_inc, need_inc ∈ l ∧ iface = gi h need_inc all_needs).
  { intros Hcut. destruct (Hcut (field h (includes need)) [] (NoDup_nil_2)) as [Hnd Hin].
    split; [done|]. intros iface. rewrite Hin. split; [|by right].
    intros [?%elem_of_nil|?]; done. }
  induction l as [|x l IH]; intros acc Hacc; simpl.
  - split; [done|]. intros iface. split; [by left|].
    intros [?|(? & ?%elem_of_nil & _)]; done.
  - case_bool_decide as Hx.
    + destruct (IH acc Hacc) as [Hnd Hin]. split; [done|]. intros iface.
      rewrite Hin. split.
      * intros [?|(y & ? & ?)]; [by left|]. right. exists y. split; [by right|done].
      * intros [?|(y & [->|?]%elem_of_cons & ->)]; [by left|by left|]. right. eauto.
    + destruct (IH (acc ++ [gi h x all_needs])) as [Hnd Hin].
      { apply NoDup_app. split_and!; [done| |apply NoDup_singleton].
        intros y ? ->%list_elem_of_singleton. done. }
      split; [done|]. intros iface. rewrite Hin, elem_of_app, list_elem_of_singleton. split.
      * intros [[? | ->]|(y & ? & ?)]; [by left| |].
        -- right. exists x. split; [left|done].
        -- right. exists y. split; [by right|done].
      * intros [?|(y & [->|?]%elem_of_cons & ->)]; [by left; left|by left; right|].
        right. eauto.
Qed.

(** ** [_collect_recursive_components] ends *)

(** A loop over a set that grows: every turn returns, keeps [P] and
    reaches [Q] for its element, and [Q] stays when the set grows. *)
Lemma for_each_grows {A} (P : gset string → Prop) (Q : A → gset string → Prop)
    (body : unit → A → M (gset string) unit) (l : list A) :
  (∀ x s, x ∈ l → P s →
     ∃ s', body tt x s = (Val tt, s') ∧ P s' ∧ s ⊆ s' ∧ Q x s') →
  (∀ x s s', Q x s → s ⊆ s' → Q x s') →
  ∀ s, P s →
    ∃ s', for_each l body tt s = (Val tt, s') ∧ P s' ∧ s ⊆ s' ∧ ∀ x, x ∈ l → Q x s'.
Proof.
  intros Hbody Hmono. induction l as [|x l IH]; intros s Hs.
  - exists s. split_and!; [done..|]. by intros ? ?%elem_of_nil.
  - destruct (Hbody x s) as (s1 & Hrun & Hs1 & Hsub1 & Hq); [left|done|].
    destruct IH with (s := s1) as (s' & Hrest & Hs' & Hsub & Hqs); [|done|].
    { intros y s0 Hy. apply Hbody. by right. }
    exists s'. rewrite for_each_cons, Hrun. split_and!; [done|done|set_solver|].
    intros y [->|Hy]%elem_of_cons; [by eapply Hmono|auto].
Qed.

Section recursive_components_facts.
Context (get_interface_from_component :
           gmap loc (list string) → Need → string → gmap string Need → list string).
Context (get_impl_comp_from_logic_iface :
           gmap loc (list string) → string → gmap string Need → list string).
Context (h : gmap loc (list string)) (all_needs : gmap string Need).

Local Abbreviation run fuel c :=
  (_collect_recursive_components get_interface_from_component
     get_impl_comp_from_logic_iface fuel h c all_needs).
Local Abbreviation collected :=
  (collected get_interface_from_component get_impl_comp_from_logic_iface h all_needs).
Local Abbreviation related :=
  (related get_interface_from_component get_impl_comp_from_logic_iface h all_needs).
Local Abbreviation unvisited v := (size (dom all_needs ∖ v)).

Lemma collected_refl v : collected v v.
Proof. split_and!; [done|set_solver|]. intros c t ? ?. done. Qed.

Lemma collected_trans v1 v2 v3 : collected v1 v2 → collected v2 v3 → collected v1 v3.
Proof.
  intros (Hs1 & Hd1 & Hc1) (Hs2 & Hd2 & Hc2). split_and!; [set_solver|set_solver|].
  intros c t Hc Hn Hrel. destruct (decide (c ∈ v2)) as [Hin|Hin].
  - apply Hs2. by eapply Hc1.
  - by eapply Hc2.
Qed.

Lemma unvisited_mono v s : v ⊆ s → unvisited s ≤ unvisited v.
Proof. intros Hsub. apply subseteq_size. set_solver. Qed.

Lemma unvisited_add c v :
  is_Some (all_needs !! c) → c ∉ v → unvisited ({[c]} ∪ v) < unvisited v.
Proof.
  intros Hc%elem_of_dom Hv. apply subset_size. split; [set_solver|].
  intros Hsub. assert (c ∈ dom all_needs ∖ v) as Hin by set_solver.
  apply Hsub in Hin. set_solver.
Qed.

(** With more fuel than there are needs of the graph that are not
    visited, a call returns the set it leaves, and that is [collected]. *)
Lemma collect_recursive_returns fuel : ∀ c v,
  unvisited v < fuel →
  ∃ v', run fuel c v = (Val v', v') ∧ collected v v'
        ∧ (is_Some (all_needs !! c) → c ∈ v').
Proof.
  induction fuel as [|fuel IH]; intros c v Hfuel; [lia|]. simpl.
  unfold bind at 1, get at 1.
  destruct (all_needs !! c) as [comp|] eqn:Hc.
  2: { exists v. split_and!; [done|apply collected_refl|by intros [? [=]]]. }
  case_bool_decide as Hvis.
  { exists v. split_and!; [done|apply collected_refl|done]. }
  unfold bind at 1, modify at 1. set (v1 := {[c]} ∪ v).
  assert (unvisited v1 < fuel) as Hfuel1.
  { assert (unvisited ({[c]} ∪ v) < unvisited v) as Hadd.
    { apply unvisited_add; [by rewrite Hc|done]. }
    unfold v1. lia. }
  (* a recursive call in a state that has grown from [v1] *)
  assert (∀ t s, collected v1 s →
            ∃ s', (run fuel t ;;' ret tt)%py s = (Val tt, s')
                  ∧ collected v1 s' ∧ s ⊆ s'
                  ∧ (is_Some (all_needs !! t) → t ∈ s')) as Hcall.
  { intros t s Hs. destruct (IH t s) as (s' & Hrun & Hcol & Ht).
    { destruct Hs as (Hsub & _). pose proof (unvisited_mono v1 s Hsub). lia. }
    exists s'. unfold bind. rewrite Hrun. split_and!; [done| |apply Hcol|done].
    by eapply collected_trans. }
  (* the four loops *)
  destruct (for_each_grows (collected v1)
    (λ iface s, is_Some (all_needs !! iface) →
       ∀ need_id need, all_needs !! need_id = Some need →
         type need ∈ ["comp"; "comp_arc_sta"] →
         iface ∈ get_interface_from_component h need "uses" all_needs →
         need_id ∈ s)
    (λ _ iface,
       if bool_decide (is_Some (all_needs !! iface)) then
         for_each (map_to_list all_needs) (λ _ '(need_id, need),
           if bool_decide (type need ∈ ["comp"; "comp_arc_sta"]) then
             let comp_used_ifaces :=
               get_interface_from_component h need "uses" all_needs in
             visited_components ←' get;
             if bool_decide (iface ∈ comp_used_ifaces ∧ need_id ∉ visited_components)
             then run fuel need_id ;;' ret tt
             else ret tt
           else ret tt) tt
       else ret tt)%py
    (get_interface_from_component h comp "implements" all_needs)) with (s := v1)
    as (s1 & Hrun1 & Hs1 & Hsub1 & Hq1).
  { intros iface s _ Hs. case_bool_decide as Hiface.
    2: { exists s. split_and!; [done|done|done|]. by intros ?. }
    destruct (for_each_grows (collected v1)
      (λ (kn : string * Need) s,
         type kn.2 ∈ ["comp"; "comp_arc_sta"] →
         iface ∈ get_interface_from_component h kn.2 "uses" all_needs → kn.1 ∈ s)
      (λ _ '(need_id, need),
         if bool_decide (type need ∈ ["comp"; "comp_arc_sta"]) then
           let comp_used_ifaces :=
             get_interface_from_component h need "uses" all_needs in
           visited_components ←' get;
           if bool_decide (iface ∈ comp_used_ifaces ∧ need_id ∉ visited_components)
           then run fuel need_id ;;' ret tt
           else ret tt
         else ret tt)%py
      (map_to_list all_needs)) with (s := s)
      as (s' & Hrun & Hs' & Hsub & Hq); [| |done|].
    - intros [need_id need] s0 Hin%elem_of_map_to_list Hs0. simpl.
      case_bool_decide as Htype.
      2: { exists s0. split_and!; [done|done|done|]. by intros ?. }
      unfold bind at 1, get at 1. case_bool_decide as Hcond.
      + destruct (Hcall need_id s0 Hs0) as (s0' & Hr & ? & ? & Hin').
        exists s0'. split_and!; [done..|]. intros _ _. apply Hin'. by rewrite Hin.
      + exists s0. split_and!; [done|done|done|]. intros _ Huses.
        destruct (decide (need_id ∈ s0)); [done|]. destruct Hcond. by split.
    - intros [need_id need] s0 s0' Hq Hsub ? ?. simpl in *. apply Hsub. by apply Hq.
    - exists s'. split_and!; [done..|].
      intros _ need_id need Hneed Htype Huses.
      apply (Hq (need_id, need)); [by apply elem_of_map_to_list|done..]. }
  { intros iface s s' Hq Hsub Hiface need_id need ? ? ?. apply Hsub. by eapply Hq. }
  { unfold v1. apply collected_refl. }
  destruct (for_each_grows (collected v1)
    (λ iface s, is_Some (all_needs !! iface) →
       ∀ t, t ∈ get_impl_comp_from_logic_iface h iface all_needs →
            is_Some (all_needs !! t) → t ∈ s)
    (λ _ iface,
       if bool_decide (is_Some (all_needs !! iface)) then
         let impl_comps := get_impl_comp_from_logic_iface h iface all_needs in
         for_each impl_comps (λ _ impl_comp_id,
           visited_components ←' get;
           if bool_decide (impl_comp_id ∉ visited_components)
           then run fuel impl_comp_id ;;' ret tt
           else ret tt) tt
       else ret tt)%py
    (get_interface_from_component h comp "uses" all_needs)) with (s := s1)
    as (s2 & Hrun2 & Hs2 & Hsub2 & Hq2).
  { intros iface s _ Hs. case_bool_decide as Hiface.
    2: { exists s. split_and!; [done|done|done|]. by intros ?. }
    cbv zeta.
    destruct (for_each_grows (collected v1)
      (λ t s, is_Some (all_needs !! t) → t ∈ s)
      (λ _ impl_comp_id,
         visited_components ←' get;
         if bool_decide (impl_comp_id ∉ visited_components)
         then run fuel impl_comp_id ;;' ret tt
         else ret tt)%py
      (get_impl_comp_from_logic_iface h iface all_needs)) with (s := s)
      as (s' & Hrun & Hs' & Hsub & Hq); [| |done|].
    - intros t s0 _ Hs0. unfold bind at 1, get at 1. case_bool_decide as Hcond.
      + destruct (Hcall t s0 Hs0) as (s0' & Hr & ? & ? & Hin').
        exists s0'. split_and!; done.
      + exists s0. split_and!; [done|done|done|]. intros _.
        destruct (decide (t ∈ s0)); done.
    - intros t s0 s0' Hq Hsub ?. apply Hsub. by apply Hq.
    - exists s'. split_and!; [done..|]. intros _ t Ht Hsome. by apply Hq. }
  { intros iface s s' Hq Hsub Hiface t ? ?. apply Hsub. by eapply Hq. }
  { done. }
  assert (∀ subs s, collected v1 s →
    ∃ s', for_each subs (λ _ sub_comp_id,
            match all_needs !! sub_comp_id with
            | Some sub_comp =>
                if bool_decide (type sub_comp ∈ ["comp"; "comp_arc_sta"])
                then run fuel sub_comp_id ;;' ret tt
                else ret tt
            | None => ret tt
            end)%py tt s = (Val tt, s')
          ∧ collected v1 s' ∧ s ⊆ s'
          ∧ ∀ sub, sub ∈ subs →
              ∀ n, all_needs !! sub = Some n → type n ∈ ["comp"; "comp_arc_sta"] →
                   sub ∈ s') as Hsubs.
  { intros subs s Hs.
    apply (for_each_grows (collected v1)
      (λ sub s, ∀ n, all_needs !! sub = Some n →
                     type n ∈ ["comp"; "comp_arc_sta"] → sub ∈ s)); [| |done].
    - intros sub s0 _ Hs0. destruct (all_needs !! sub) as [n|] eqn:Hsub.
      2: { exists s0. split_and!; [done|done|done|]. by intros ? [=]. }
      case_bool_decide as Htype.
      + destruct (Hcall sub s0 Hs0) as (s0' & Hr & ? & ? & Hin').
        exists s0'. split_and!; [done..|]. intros ? _ _. apply Hin'. by rewrite Hsub.
      + exists s0. split_and!; [done|done|done|]. by intros ? [= <-] ?.
    - intros sub s0 s0' Hq Hsub n ? ?. apply Hsub. by eapply Hq. }
  destruct (Hsubs (field h (includes comp)) s2 Hs2) as (s3 & Hrun3 & Hs3 & Hsub3 & Hq3).
  destruct (Hsubs (field h (consists_of comp)) s3 Hs3) as (s4 & Hrun4 & Hs4 & Hsub4 & Hq4).
  exists s4. split_and!.
  - cbv zeta. unfold bind at 1. 
    lazymatch goal with
    | |- context [for_each (get_interface_from_component h comp "implements" all_needs)
                    ?B tt v1] =>
        assert (for_each (get_interface_from_component h comp "implements" all_needs)
                  B tt v1 = (Val tt, s1)) as -> by exact Hrun1
    end.
    unfold bind at 1.
    lazymatch goal with
    | |- context [for_each (get_interface_from_component h comp "uses" all_needs)
                    ?B tt s1] =>
        assert (for_each (get_interface_from_component h comp "uses" all_needs)
                  B tt s1 = (Val tt, s2)) as -> by exact Hrun2
    end.
    unfold bind at 1.
    lazymatch goal with
    | |- context [for_each (field h (includes comp)) ?B tt s2] =>
        assert (for_each (field h (includes comp)) B tt s2 = (Val tt, s3)) as ->
          by exact Hrun3
    end.
    unfold bind at 1.
    lazymatch goal with
    | |- context [for_each (field h (consists_of comp)) ?B tt s3] =>
        assert (for_each (field h (consists_of comp)) B tt s3 = (Val tt, s4)) as ->
          by exact Hrun4
    end.
    done.
  - destruct Hs4 as (Hsub & Hdom & Hclosed). split_and!.
    + unfold v1 in Hsub. set_solver.
    + assert (c ∈ dom all_needs) by (apply elem_of_dom; by rewrite Hc).
      unfold v1 in Hdom. set_solver.
    + intros c' t Hc' Hnv Hrel. destruct (decide (c' = c)) as [->|Hne].
      2: { eapply Hclosed; [done| |done]. unfold v1. set_solver. }
      destruct Hrel as (comp' & target & Hcomp' & Htarget & Hcase).
      rewrite Hc in Hcomp'. injection Hcomp' as <-.
      destruct Hcase as [(iface & Hi & Hsome & Htype & Huses)
                        |[(iface & Hi & Hsome & Ht)|[Hpart Htype]]].
      * apply Hsub4, Hsub3, Hsub2. by eapply (Hq1 iface).
      * apply Hsub4, Hsub3. eapply (Hq2 iface); [done..|]. by rewrite Htarget.
      * apply elem_of_app in Hpart as [Hinc|Hcons].
        -- apply Hsub4. by eapply Hq3.
        -- by eapply Hq4.
  - intros _. destruct Hs4 as (Hsub & _). apply Hsub. unfold v1. set_solver.
Qed.
End recursive_components_facts.

(** X23. [_collect_recursive_components] ends on every graph, also on one
    with a cycle: with more fuel than the graph has needs that are not
    visited, a call returns the set of visited components it leaves. The call
    only adds to the set, it adds needs of the graph only, among them the
    component it is called for if that is one, and with each component it adds
    every component that is related to it: the users of the interfaces it
    implements, the implementers of the interfaces it uses, and its
    sub-components. *)
Theorem collect_recursive_components_ends
    (get_interface_from_component :
       gmap loc (list string) → Need → string → gmap string Need → list string)
    (get_impl_comp_from_logic_iface :
       gmap loc (list string) → string → gmap string Need → list string)
    (h : gmap loc (list string)) (all_needs : gmap string Need)
    (fuel : nat) (component_id : string) (visited_components : gset string) :
  size (dom all_needs ∖ visited_components) < fuel →
  ∃ v',
    _collect_recursive_components get_interface_from_component
      get_impl_comp_from_logic_iface fuel h component_id all_needs visited_components
    = (Val v', v')
    ∧ collected get_interface_from_component get_impl_comp_from_logic_iface
        h all_needs visited_components v'
    ∧ (is_Some (all_needs !! component_id) → component_id ∈ v').
Proof. apply collect_recursive_returns. Qed.

Lemma collect_recursive_components_ends_witness :
  ∃ v',
    _collect_recursive_components spec_get_interface_from_component
      spec_get_impl_comp_from_logic_iface 3 (graph cyclic).1 "A" (graph cyclic).2 ∅
    = (Val v', v')
    ∧ "B" ∈ v'.
Proof.
  destruct (collect_recursive_components_ends spec_get_interface_from_component
              spec_get_impl_comp_from_logic_iface (graph cyclic).1 (graph cyclic).2
              3 "A" ∅) as (v' & Hrun & (_ & _ & Hclosed) & HA).
  - by apply (bool_decide_unpack _).
  - exists v'. split; [done|]. apply (Hclosed "A" "B").
    + apply HA. by apply (bool_decide_unpack _).
    + apply not_elem_of_empty.
    + eexists _, _. split_and!; [by vm_compute..|]. right. right. split.
      * by apply (bool_decide_unpack _).
      * by apply (bool_decide_unpack _).
Defined.

(** ** The structure of a component *)

Lemma level_app t1 : ∀ t2 d, level (t1 ++ t2) d = level t1 d ≫= level t2.
Proof.
  induction t1 as [|p t1 IH]; intros t2 d; [done|].
  destruct p; simpl; try apply IH. destruct d; [done|apply IH].
Qed.

Lemma level_deeper t : ∀ d d' k, level t d = Some d' → level t (d + k) = Some (d' + k).
Proof.
  induction t as [|p t IH]; intros d d' k; simpl.
  - by intros [= <-].
  - destruct p; try apply IH.
    + apply (IH (S d)).
    + destruct d; [done|]. simpl. apply IH.
Qed.

Lemma draw_comp_nested gifc fuel : ∀ need all_needs white_box_view,
  triple (λ _, True)
    (draw_comp_incl_impl_int gifc fuel need all_needs white_box_view)
    (post (λ r, well_nested r.1 ∧ head r.1 = Some (StructOpen "component" (id need))
                ∧ last r.1 = Some (StructClose (title need))) True True).
Proof.
  induction fuel as [|fuel IH]; intros need all_needs wb; simpl;
    [by apply triple_diverge|].
  eapply (triple_bind _ _ _ _ _
            (λ r, level r.1 0 = Some 1
                  ∧ head r.1 = Some (StructOpen "component" (id need)))).
  - destruct wb; [|by apply triple_ret].
    eapply (triple_bind _ _ _ _ _ (λ _, True)); [by apply triple_gets|]. intros h _.
    apply triple_for_each; [|done]. intros [st lt] need_inc _ [Hlevel Hhead].
    destruct (all_needs !! need_inc) as [curr_need|].
    + case_bool_decide; [|by apply triple_ret].
      eapply (triple_bind _ _ _ _ _ (λ _, True)); [by apply triple_gets|]. intros h' _.
      eapply triple_bind; [apply IH|]. intros [sub_structure sub_linkage] (Hsub & _ & _).
      apply triple_ret. simpl in *. split.
      * rewrite level_app, Hlevel. simpl. apply (level_deeper _ 0 0 1 Hsub).
      * destruct st; [done|]. done.
    + eapply (triple_bind _ _ _ _ _ (λ _, True)); [by intros ? ?|]. intros _ _.
      by apply triple_ret.
  - intros [st lt] [Hlevel Hhead]. simpl in *.
    eapply (triple_bind _ _ _ _ _ (λ _, True)); [by apply triple_gets|]. intros h _.
    eapply (triple_bind _ _ _ _ _ (λ _, True)); [apply triple_any|]. intros lt1 _.
    eapply (triple_bind _ _ _ _ _ (λ _, True)); [apply triple_any|]. intros lt2 _.
    apply triple_ret. simpl. split_and!.
    + unfold well_nested. by rewrite level_app, Hlevel.
    + destruct st; [done|]. done.
    + by rewrite last_snoc.
Qed.

(** X24. The structure that is drawn for a component is nested: it starts
    with the element of the component and ends with its closing line, and in
    between every element of a sub-component is opened and closed again. *)
Theorem component_structure_is_nested
    (get_interface_from_component :
       gmap loc (list string) → Need → string → gmap string Need → list string)
    (fuel : nat) (need : Need) (all_needs : gmap string Need) (white_box_view : bool)
    (w w' : world) (structure_text linkage_text : text) :
  draw_comp_incl_impl_int get_interface_from_component fuel need all_needs
    white_box_view w = (Val (structure_text, linkage_text), w') →
  well_nested structure_text
  ∧ head structure_text = Some (StructOpen "component" (id need))
  ∧ last structure_text = Some (StructClose (title need)).
Proof.
  intros Hrun.
  destruct (draw_comp_nested get_interface_from_component fuel need all_needs
              white_box_view w I) as [Hpost _].
  by rewrite Hrun in Hpost.
Qed.

Lemma component_structure_is_nested_witness :
  well_nested [StructOpen "component" "A"; StructOpen "component" "B"; StructClose "B";
          StructOpen "component" "C"; StructClose "C"; StructClose "A"].
Proof.
  eapply (component_structure_is_nested spec_get_interface_from_component 3
            (need_of nested "A") (graph nested).2 true (empty_world (graph nested).1)).
  by vm_compute.
Defined.

End DrawLaws.
